(** * LLM-visuals: the simulation pipeline and the stage controller

    A shallow embedding of the component [LLMVisualization] (tokenizer,
    embedding generator, attention-weight generator, output generator and
    the React state that sequences them), with the properties its
    specification states.

    Conventions of the embedding.
    - A JavaScript string is a sequence of UTF-16 code units.  The model
      covers the strings whose code units are below 256 (ASCII and
      Latin-1): a Rocq [string], one [ascii] per code unit.
    - A JavaScript number that holds an integer (stage index, dimension,
      delay) is a [Z].  Any other number is a rational ([Q]): the value
      of the double.  The attention weights are computed as the code
      computes them, in binary64 arithmetic: every product, sum and
      quotient is rounded to the nearest double ([Double.nearest], ties
      to even, with gradual underflow), a decimal literal is the double
      nearest to it, and [parseFloat(x.toFixed(3))] is the double nearest
      to the decimal that [toFixed] prints.  Overflow and the sign of
      zero are not modelled, the attention weights stay far from them; a
      quotient by 0, which is not a finite number, is [None].
      The coordinates of the embeddings are only stored, never computed
      with: each is given by the decimal that [toFixed(3)] prints, and
      the argument and the results of [Math.sin] and [Math.cos] are left
      to the host.  Elsewhere (the coordinates of the first version,
      [x * 2 - 1], and the index of the random phrase) the arithmetic is
      that of the rationals.
    - [Math.sin] and [Math.cos] are operations of the host, taken as an
      interface ([MathLib]).  [Math.random] is a stream of numbers handed
      to the code, threaded through a small state monad ([Rand]).
    - React state is a record; an event handler is a function on it, and
      the effects that React runs after a render are run by [commit]. *)

From Stdlib Require Import ZArith QArith Qround Qabs Qpower Lia Lqa.
From Stdlib Require Import Ascii String List.
From stdpp Require Import gmap strings.
Import ListNotations.

Local Open Scope string_scope.
Local Open Scope list_scope.

(** ** JavaScript strings (code units below 256) *)

Module JsString.

(** [c.charCodeAt(0)] of a one-unit string. *)
Definition charCodeAt0 (c : ascii) : Z := Z.of_nat (nat_of_ascii c).

(** One code unit of [String.prototype.toLowerCase]: A-Z, and the
    Latin-1 capitals U+00C0..U+00DE except the multiplication sign
    U+00D7, move up by 32; every other unit below 256 is unchanged. *)
Definition lowerUnit (c : ascii) : ascii :=
  let n := nat_of_ascii c in
  if ((65 <=? n) && (n <=? 90))%nat then ascii_of_nat (n + 32)
  else if ((192 <=? n) && (n <=? 222) && negb (n =? 215))%nat
       then ascii_of_nat (n + 32)
  else c.

Fixpoint toLowerCase (s : string) : string :=
  match s with
  | EmptyString => EmptyString
  | String c s' => String (lowerUnit c) (toLowerCase s')
  end.

(** [s.includes(t)]: [t] occurs in [s] as a contiguous substring. *)
Fixpoint includes (s t : string) : bool :=
  if String.prefix t s then true
  else match s with
       | EmptyString => false
       | String _ s' => includes s' t
       end.

(** The class [\s] of a regular expression, on units below 256: TAB, LF,
    VT, FF, CR, SPACE and NO-BREAK SPACE. *)
Definition isSpace (c : ascii) : bool :=
  match c with
  | "009"%char | "010"%char | "011"%char | "012"%char | "013"%char
  | " "%char | "160"%char => true
  | _ => false
  end.

(** [s.split(/[cls]+/)] for a character class [cls].  The loop of
    [RegExp.prototype[Symbol.split]] walks the string; [frag] is the
    text since the end of the last match; [inMatch] says that the unit
    before the cursor was consumed by the match in progress ([+] is
    greedy, so a match takes the whole run of class units).  A match
    closes the fragment before it; the text after the last match is the
    last fragment, so the empty string splits to one empty fragment. *)
Fixpoint splitLoop (cls : ascii -> bool) (s frag : string) (inMatch : bool)
  : list string :=
  match s with
  | EmptyString => [frag]
  | String c s' =>
      if cls c then
        if inMatch then splitLoop cls s' EmptyString true
        else frag :: splitLoop cls s' EmptyString true
      else splitLoop cls s' (frag ++ String c EmptyString) false
  end.

Definition splitClassPlus (cls : ascii -> bool) (s : string) : list string :=
  splitLoop cls s EmptyString false.

(** [s.split('')]: the code units of [s]. *)
Definition splitUnits (s : string) : list ascii := list_ascii_of_string s.

End JsString.

(** ** The tokenizer *)

Module Tokenizer.
Import JsString.

(** The character class of the regular expression of [tokenizeText]:
    white space, comma, full stop, exclamation mark, question mark,
    semicolon, colon, single quote, double quote (unit 34), the two
    parentheses and the hyphen. *)
Definition isDelimiter (c : ascii) : bool :=
  isSpace c ||
  match c with
  | ","%char | "."%char | "!"%char | "?"%char | ";"%char | ":"%char
  | "'"%char | "034"%char | "("%char | ")"%char | "-"%char => true
  | _ => false
  end.


Definition notDelimiter (c : ascii) : bool := negb (isDelimiter c).

Definition nonEmpty (word : string) : bool := (0 <? String.length word)%nat.

(** [text.toLowerCase().split(/[class]+/g).filter(word => word.length > 0)] *)
Definition tokenizeText (text : string) : list string :=
  List.filter nonEmpty (splitClassPlus isDelimiter (toLowerCase text)).

(** The tokenizer in the words of the specification: lower-case, cut at
    every delimiter unit, drop the empty fragments. *)
Fixpoint fields (cls : ascii -> bool) (s frag : string) : list string :=
  match s with
  | EmptyString => [frag]
  | String c s' =>
      if cls c then frag :: fields cls s' EmptyString
      else fields cls s' (frag ++ String c EmptyString)
  end.

Definition tokenize_spec (text : string) : list string :=
  List.filter nonEmpty (fields isDelimiter (toLowerCase text) EmptyString).

(** The units of a string that are kept, in order. *)
Fixpoint keepUnits (keep : ascii -> bool) (s : string) : string :=
  match s with
  | EmptyString => EmptyString
  | String c s' =>
      if keep c then String c (keepUnits keep s') else keepUnits keep s'
  end.

Fixpoint concatStrings (l : list string) : string :=
  match l with
  | [] => EmptyString
  | w :: l' => w ++ concatStrings l'
  end.

Fixpoint allUnits (p : ascii -> bool) (s : string) : bool :=
  match s with
  | EmptyString => true
  | String c s' => p c && allUnits p s'
  end.

End Tokenizer.

(** The tokenizer of the first version of the component
    (src/components/LLMVisualization.tsx), which cuts at white space only. *)
Module Legacy.
Import JsString.

(** [text.toLowerCase().split(/\s+/).filter(word => word.length > 0)] *)
Definition tokenizeText (text : string) : list string :=
  List.filter Tokenizer.nonEmpty (splitClassPlus isSpace (toLowerCase text)).

End Legacy.

(** ** Numbers *)

Module Num.
Local Open Scope Q_scope.

Definition Qltb (x y : Q) : bool := negb (Qle_bool y x).

(** [parseFloat(x.toFixed(3))]: the multiple of 1/1000 nearest to [x];
    of two equally near, [toFixed] takes the larger in magnitude (it
    rounds the absolute value, half up, and puts the sign back). *)
Definition toFixed3 (x : Q) : Q :=
  if Qle_bool 0 x then Qfloor (x * 1000 + (1 # 2)) # 1000
  else - (Qfloor (- x * 1000 + (1 # 2)) # 1000).

(** [Math.floor] *)
Definition floor (x : Q) : Z := Qfloor x.

(** A count as a rational. *)
Definition Qnat (n : nat) : Q := inject_Z (Z.of_nat n).

Fixpoint Qsum (l : list Q) : Q :=
  match l with
  | [] => 0
  | x :: l' => x + Qsum l'
  end.

(** [Array.from({ length: len }, (_, i) => f(i))]: [ToLength] turns a
    length that is not positive into 0. *)
Definition arrayFrom {A} (len : Z) (f : nat -> A) : list A :=
  map f (seq 0 (Z.to_nat len)).

End Num.

(** ** Binary64 arithmetic

    A double is given by its value, a rational.  [nearest] is the
    rounding of IEEE 754 to binary64, round to nearest, ties to even:
    53 significant bits, and no bit below 2^-1074. *)

Module Double.
Local Open Scope Q_scope.

(** The integer nearest to [m]; of two equally near, the even one. *)
Definition roundEven (m : Q) : Z :=
  let f := Qfloor m in
  match Qcompare (m - inject_Z f) (1 # 2) with
  | Lt => f
  | Gt => (f + 1)%Z
  | Eq => if Z.even f then f else (f + 1)%Z
  end.

(** For [x] above 0, the [e] with 2^e <= x < 2^(e+1). *)
Definition exponent (x : Q) : Z :=
  let e := (Z.log2 (Qnum x) - Z.log2 (Zpos (Qden x)))%Z in
  if Qle_bool (2 ^ e) x then e else (e - 1)%Z.

(** The double nearest to [x], for [x] not negative: the multiple of
    2^-k nearest to it, where 2^-k is the distance between the doubles
    around [x]. *)
Definition roundPos (x : Q) : Q :=
  if Qle_bool x 0 then 0
  else let k := Z.min (52 - exponent x) 1074 in
       Qred (inject_Z (roundEven (x * 2 ^ k)) / 2 ^ k).

Definition nearest (x : Q) : Q :=
  if Qle_bool 0 x then roundPos x else - roundPos (- x).

(** A decimal literal of the source. *)
Definition lit (x : Q) : Q := nearest x.

(** [a + b], [a * b], [a / b] *)
Definition fadd (a b : Q) : Q := nearest (a + b).
Definition fmul (a b : Q) : Q := nearest (a * b).
Definition fdiv (a b : Q) : Q := nearest (a / b).

(** [parseFloat(x.toFixed(3))]: [toFixed] prints the multiple of 1/1000
    nearest to the value of [x], the larger in magnitude of two equally
    near, and [parseFloat] reads it back as the nearest double. *)
Definition toFixed3 (x : Q) : Q :=
  if Qle_bool 0 x then nearest (Qfloor (x * 1000 + (1 # 2)) # 1000)
  else nearest (- (Qfloor (- x * 1000 + (1 # 2)) # 1000)).

(** Half the distance from 1 to the next double, and half the smallest
    double above 0. *)
Definition u : Q := 2 ^ (-53).
Definition eta : Q := 2 ^ (-1075).

(** A bound of the rounding error of the numbers up to 4. *)
Definition tiny : Q := 1 # 100000000000000.

End Double.

(** ** The host: [Math.sin], [Math.cos] and [Math.random] *)

Class MathLib := {
  Math_sin : Q -> Q;
  Math_cos : Q -> Q
}.

Module Random.
Local Open Scope Q_scope.

(** What [Math.random] will return, call after call. *)
Definition source := nat -> Q.

(** [Math.random] returns a number in [0, 1). *)
Definition unit_interval (r : source) : Prop :=
  forall k, 0 <= r k /\ r k < 1.

Definition Rand (A : Type) : Type := source -> A * source.

Definition ret {A} (a : A) : Rand A := fun r => (a, r).

Definition bind {A B} (c : Rand A) (k : A -> Rand B) : Rand B :=
  fun r => let (a, r') := c r in k a r'.

Definition advance (r : source) : source := fun k => r (S k).

(** One call of [Math.random()]. *)
Definition random : Rand Q := fun r => (r 0%nat, advance r).

(** A source that returns the numbers of [l], then [d] for ever. *)
Definition fromList (l : list Q) (d : Q) : source := fun k => nth k l d.

End Random.

Notation "'let*' x ':=' c 'in' k" :=
  (Random.bind c (fun x => k))
  (at level 10, x name, c at level 100, k at level 200).

(** ** The four computations of the pipeline *)

(** [interface Token { token: string; vector: number[] }] *)
Record Token := { token : string; vector : list Q }.

Module Pipeline.
Import JsString Num Random.
Import Double (lit, fadd, fmul, fdiv).
Local Open Scope Q_scope.

Definition tokenizeText := Tokenizer.tokenizeText.

Section Embeddings.
Context `{MathLib}.

(** [token.split('').reduce((acc, char) => acc + char.charCodeAt(0), 0)] *)
Definition tokenHash (token : string) : Z :=
  fold_left (fun acc char => (acc + charCodeAt0 char)%Z) (splitUnits token) 0%Z.

(** The callback of [Array.from]:
    [parseFloat((Math.sin((tokenHash + i * 10) / 50) * Math.cos(i / 3) * 2).toFixed(3))] *)
Definition coordinate (tokenHash : Z) (i : nat) : Q :=
  toFixed3
    (Math_sin ((inject_Z tokenHash + inject_Z (Z.of_nat i) * 10) / 50)
     * Math_cos (inject_Z (Z.of_nat i) / 3) * 2).

(** The callback of [tokenList.map], with the [Map] it reads and
    writes passed along. *)
Fixpoint embedLoop (dimension : Z) (tokenList : list string)
         (embeddingCache : gmap string (list Q)) : list Token :=
  match tokenList with
  | [] => []
  | token :: rest =>
      match embeddingCache !! token with
      | Some cached =>
          {| token := token; vector := cached |}
            :: embedLoop dimension rest embeddingCache
      | None =>
          let vector := arrayFrom dimension (coordinate (tokenHash token)) in
          {| token := token; vector := vector |}
            :: embedLoop dimension rest (<[token := vector]> embeddingCache)
      end
  end.

Definition generateEmbeddings (tokenList : list string) (dimension : Z)
  : list Token :=
  embedLoop dimension tokenList ∅.

End Embeddings.

(** [tokenList[i]]; the loops keep [i] below the length. *)
Definition at_ (tokenList : list string) (i : nat) : string :=
  nth i tokenList "undefined".

(** [Math.abs(i - j)] *)
Definition absDiff (i j : nat) : nat := ((i - j) + (j - i))%nat.

(** The body of the inner loop up to [row.push]: the weight of column
    [j] in row [i]. *)
Definition rawWeight (tokenList : list string) (i j : nat) : Rand Q :=
  let* jitter := random in
  let weight := fmul jitter (lit 0.1) in
  if (i =? j)%nat then ret (fadd weight (lit 0.7))
  else if (absDiff i j <=? 1)%nat then ret (fadd weight (lit 0.2))
  else if String.eqb (at_ tokenList i) (at_ tokenList j)
          && (1 <? String.length (at_ tokenList i))%nat
       then ret (fadd weight (lit 0.3))
  else
    let* chance := random in
    if Qltb chance (lit 0.1) then
      let* extra := random in ret (fadd weight (fmul extra (lit 0.2)))
    else ret weight.

(** The inner loop over the columns [js], with [row] and [sum] as they
    stand. *)
Fixpoint rowLoop (tokenList : list string) (i : nat) (js : list nat)
         (row : list Q) (sum : Q) : Rand (list Q * Q) :=
  match js with
  | [] => ret (row, sum)
  | j :: js' =>
      let* weight := rawWeight tokenList i j in
      rowLoop tokenList i js' (row ++ [Double.toFixed3 weight])
              (fadd sum weight)
  end.

(** [row.map(w => parseFloat((w / sum).toFixed(3)))] *)
Definition normalizeRow (row : list Q) (sum : Q) : list Q :=
  map (fun w => Double.toFixed3 (fdiv w sum)) row.

(** The outer loop over the rows [is_]. *)
Fixpoint matrixLoop (tokenList : list string) (is_ : list nat)
         (weights : list (list Q)) : Rand (list (list Q)) :=
  match is_ with
  | [] => ret weights
  | i :: is' =>
      let* rs := rowLoop tokenList i (seq 0 (List.length tokenList)) [] 0 in
      matrixLoop tokenList is' (weights ++ [normalizeRow (fst rs) (snd rs)])
  end.

Definition generateAttentionWeights (tokenList : list string)
  : Rand (list (list Q)) :=
  matrixLoop tokenList (seq 0 (List.length tokenList)) [].

Definition randomPhrases : list string :=
  [ "What comes next?";
    "Thinking about that...";
    "A fascinating input!";
    "Let's see...";
    "Processing the tokens now." ].

(** [randomPhrases[k]] for an integer [k]. *)
Definition phraseAt (k : Z) : string :=
  if (k <? 0)%Z then "undefined" else nth (Z.to_nat k) randomPhrases "undefined".

Definition startTyping : string := "Start typing to generate output...".
Definition helloReply : string := "Hey there! How can I assist you today?".
Definition questionReply : string := "I'm ready to answer your question!".
Definition nameReply : string := "My name is LLM-Vis. What's yours?".
Definition weatherReply : string := "The weather is simulated to be sunny.".
Definition moreContext : string := "Please provide more context.".
Definition bitShort : string := "Input is a bit short. Could you elaborate?".
Definition lotToThink : string := " A lot to think about!".

(** The [switch (lastToken)]. *)
Definition continuation (lastToken : string) : Rand string :=
  if String.eqb lastToken "fox" then ret "jumps over the lazy dog."
  else if String.eqb lastToken "quick" then ret "brown fox jumps."
  else if String.eqb lastToken "brown" then ret "fox is fast."
  else if String.eqb lastToken "apple" then ret "is a delicious fruit."
  else if String.eqb lastToken "cat" then ret "sits quietly."
  else if String.eqb lastToken "dog" then ret "barks loudly."
  else if String.eqb lastToken "computer" then ret "is a powerful tool."
  else if String.eqb lastToken "data" then ret "is the new oil."
  else
    let* pick := random in
    let randomPhrase := phraseAt (floor (pick * 5)) in
    ret ("... and then " ++ lastToken ++ " leads to: " ++ randomPhrase)%string.

(** [generateSimpleOutput].  [currentStep] is the state variable of the
    component that the function reads; [localeTime] is what
    [new Date().toLocaleTimeString()] returns. *)
Definition generateSimpleOutput (currentStep : Z) (localeTime : string)
           (input : string) (currentTokens : list string)
           (currentEmbeddings : list Token) : Rand string :=
  if (List.length currentTokens =? 0)%nat then ret startTyping
  else
    let lastToken := at_ currentTokens (List.length currentTokens - 1) in
    let* generatedPart :=
      if includes (toLowerCase input) "hello" then ret helloReply
      else if includes (toLowerCase input) "question" then ret questionReply
      else if includes (toLowerCase input) "name" then ret nameReply
      else if includes (toLowerCase input) "weather" then ret weatherReply
      else if includes (toLowerCase input) "time"
           then ret ("It's currently " ++ localeTime ++ " here.")%string
      else if (3 <? List.length currentTokens)%nat then continuation lastToken
      else ret moreContext in
    if (List.length currentTokens <? 3)%nat && (currentStep =? 4)%Z
    then ret bitShort
    else if (7 <? List.length currentTokens)%nat then
      let* coin := random in
      if Qltb 0.5 coin then ret (generatedPart ++ lotToThink)%string
      else ret generatedPart
    else ret generatedPart.

End Pipeline.

(** ** The component state and the stage controller *)

Module Controller.
Import Random Pipeline.

(** The [useState] cells of the component, and [timer]: the time-out
    that [setTimeout] has scheduled and that has neither fired nor been
    cleared (with its delay), if there is one. *)
Record State := {
  currentStep : Z;
  isPlaying : bool;
  inputText : string;
  tokens : list string;
  embeddings : list Token;
  attentionWeights : list (list Q);
  output : string;
  animationSpeed : Z;
  embeddingDimension : Z;
  timer : option Z
}.

Definition setCurrentStep (v : Z) (s : State) : State :=
  {| currentStep := v; isPlaying := isPlaying s; inputText := inputText s;
     tokens := tokens s; embeddings := embeddings s;
     attentionWeights := attentionWeights s; output := output s;
     animationSpeed := animationSpeed s;
     embeddingDimension := embeddingDimension s; timer := timer s |}.

Definition setIsPlaying (v : bool) (s : State) : State :=
  {| currentStep := currentStep s; isPlaying := v; inputText := inputText s;
     tokens := tokens s; embeddings := embeddings s;
     attentionWeights := attentionWeights s; output := output s;
     animationSpeed := animationSpeed s;
     embeddingDimension := embeddingDimension s; timer := timer s |}.

Definition setInputText (v : string) (s : State) : State :=
  {| currentStep := currentStep s; isPlaying := isPlaying s; inputText := v;
     tokens := tokens s; embeddings := embeddings s;
     attentionWeights := attentionWeights s; output := output s;
     animationSpeed := animationSpeed s;
     embeddingDimension := embeddingDimension s; timer := timer s |}.

Definition setAnimationSpeed (v : Z) (s : State) : State :=
  {| currentStep := currentStep s; isPlaying := isPlaying s;
     inputText := inputText s;
     tokens := tokens s; embeddings := embeddings s;
     attentionWeights := attentionWeights s; output := output s;
     animationSpeed := v;
     embeddingDimension := embeddingDimension s; timer := timer s |}.

Definition setEmbeddingDimension (v : Z) (s : State) : State :=
  {| currentStep := currentStep s; isPlaying := isPlaying s;
     inputText := inputText s;
     tokens := tokens s; embeddings := embeddings s;
     attentionWeights := attentionWeights s; output := output s;
     animationSpeed := animationSpeed s;
     embeddingDimension := v; timer := timer s |}.

Definition setTimer (v : option Z) (s : State) : State :=
  {| currentStep := currentStep s; isPlaying := isPlaying s;
     inputText := inputText s;
     tokens := tokens s; embeddings := embeddings s;
     attentionWeights := attentionWeights s; output := output s;
     animationSpeed := animationSpeed s;
     embeddingDimension := embeddingDimension s; timer := v |}.

(** [setTokens], [setEmbeddings], [setAttentionWeights] and [setOutput],
    as the third effect calls them together. *)
Definition setArtifacts (tk : list string) (em : list Token)
           (aw : list (list Q)) (out : string) (s : State) : State :=
  {| currentStep := currentStep s; isPlaying := isPlaying s;
     inputText := inputText s;
     tokens := tk; embeddings := em; attentionWeights := aw; output := out;
     animationSpeed := animationSpeed s;
     embeddingDimension := embeddingDimension s; timer := timer s |}.

Definition defaultText : string := "The quick brown fox".

(** The arguments of the [useState] calls; nothing is scheduled. *)
Definition initialState : State :=
  {| currentStep := 0; isPlaying := false; inputText := defaultText;
     tokens := []; embeddings := []; attentionWeights := []; output := "";
     animationSpeed := 2000; embeddingDimension := 8; timer := None |}.

(** [steps.length - 1] *)
Definition lastStep : Z := 4.

(** What the controller accepts: the handlers bound in the markup, and
    the call-back of the pending time-out. *)
Inductive Event :=
| InputChange (value : string)
| PlayClick
| ResetClick
| StepClick (stepIndex : Z)
| SpeedChange (value : Z)
| DimensionChange (value : Z)
| TimerFire.

Definition handlePlay (s : State) : State :=
  if negb (isPlaying s) && (currentStep s =? lastStep)%Z
  then setIsPlaying true (setCurrentStep 0 s)
  else setIsPlaying (negb (isPlaying s)) s.

Definition handleReset (s : State) : State :=
  setInputText defaultText (setIsPlaying false (setCurrentStep 0 s)).

Definition handleStepClick (stepIndex : Z) (s : State) : State :=
  setIsPlaying false (setCurrentStep stepIndex s).

Definition handleInputChange (value : string) (s : State) : State :=
  setIsPlaying false (setCurrentStep 0 (setInputText value s)).

Definition handleSpeedChange (value : Z) (s : State) : State :=
  setAnimationSpeed value s.

Definition handleEmbeddingDimensionChange (value : Z) (s : State) : State :=
  setEmbeddingDimension value s.

(** The call-back given to [setTimeout]:
    [setCurrentStep(prevStep => prevStep + 1)].  It runs only for a
    time-out that is pending, and then the time-out is spent. *)
Definition timerCallback (s : State) : State :=
  match timer s with
  | Some _ => setTimer None (setCurrentStep (currentStep s + 1) s)
  | None => s
  end.

Definition handle (e : Event) (s : State) : State :=
  match e with
  | InputChange value => handleInputChange value s
  | PlayClick => handlePlay s
  | ResetClick => handleReset s
  | StepClick stepIndex => handleStepClick stepIndex s
  | SpeedChange value => handleSpeedChange value s
  | DimensionChange value => handleEmbeddingDimensionChange value s
  | TimerFire => timerCallback s
  end.

(** What the host supplies while the effects of one event run. *)
Record Host := { rnd : source; localeTime : string }.

Section Effects.
Context `{MathLib}.

(** First effect, clean-up: [clearTimeout(timer)]. *)
Definition timerCleanup (s : State) : State := setTimer None s.

(** First effect, body. *)
Definition timerEffect (s : State) : State :=
  if isPlaying s && (currentStep s <? lastStep)%Z
  then setTimer (Some (animationSpeed s)) s
  else if (currentStep s =? lastStep)%Z then setIsPlaying false s
  else s.

(** Its dependencies [currentStep, isPlaying, steps.length,
    animationSpeed] are the same in two renders. *)
Definition sameTimerDeps (a b : State) : bool :=
  (currentStep a =? currentStep b)%Z
  && Bool.eqb (isPlaying a) (isPlaying b)
  && (animationSpeed a =? animationSpeed b)%Z.

(** Third effect, body. *)
Definition recompute (h : Host) (s : State) : State :=
  let tokenList := tokenizeText (inputText s) in
  let em :=
    if (2 <=? currentStep s)%Z
    then generateEmbeddings tokenList (embeddingDimension s) else [] in
  let (aw, r1) :=
    if (3 <=? currentStep s)%Z
    then generateAttentionWeights tokenList (rnd h) else ([], rnd h) in
  let (out, _) :=
    if (4 <=? currentStep s)%Z
    then generateSimpleOutput (currentStep s) (localeTime h)
           (inputText s) tokenList (embeddings s) r1
    else ("", r1) in
  setArtifacts tokenList em aw out s.

(** Its dependencies [inputText, currentStep, embeddingDimension]. *)
Definition sameRecomputeDeps (a b : State) : bool :=
  String.eqb (inputText a) (inputText b)
  && (currentStep a =? currentStep b)%Z
  && (embeddingDimension a =? embeddingDimension b)%Z.

(** The effects after a render of [cur] that follows a render of
    [prev]: an effect whose dependencies changed is cleaned up and run
    again.  (The second effect scrolls the page and is left out.) *)
Definition effectsPass (h : Host) (prev cur : State) : State :=
  let s1 := if sameTimerDeps prev cur then cur
            else timerEffect (timerCleanup cur) in
  if sameRecomputeDeps prev cur then s1 else recompute h s1.

(** An effect that sets state ([setIsPlaying(false)]) causes one more
    render, whose effects run against the render before it. *)
Definition commit (h : Host) (prev next : State) : State :=
  let s1 := effectsPass h prev next in
  if Bool.eqb (isPlaying s1) (isPlaying next) then s1
  else effectsPass h next s1.

(** One event: the handler, the render, the effects. *)
Definition step (h : Host) (e : Event) (s : State) : State :=
  commit h s (handle e s).

(** The first render: every effect runs. *)
Definition mount (h : Host) : State :=
  let s1 := recompute h (timerEffect initialState) in
  if Bool.eqb (isPlaying s1) (isPlaying initialState) then s1
  else effectsPass h initialState s1.

Inductive reachable : State -> Prop :=
| reach_mount h : unit_interval (rnd h) -> reachable (mount h)
| reach_step h e s :
    unit_interval (rnd h) -> reachable s -> reachable (step h e s).

Fixpoint run (h : Host) (es : list Event) (s : State) : State :=
  match es with
  | [] => s
  | e :: es' => run h es' (step h e s)
  end.

End Effects.

(** The artifacts follow the stage: the tokens are those of the text
    and what a later stage makes is empty before that stage. *)
Definition gated `{MathLib} (s : State) : Prop :=
  tokens s = tokenizeText (inputText s)
  /\ ((currentStep s < 2)%Z -> embeddings s = [])
  /\ ((2 <= currentStep s)%Z ->
      embeddings s = generateEmbeddings (tokens s) (embeddingDimension s))
  /\ ((currentStep s < 3)%Z -> attentionWeights s = [])
  /\ ((currentStep s < 4)%Z -> output s = "").

(** A time-out is pending only while the walk-through plays and has a
    stage left. *)
Definition timerSound (s : State) : Prop :=
  forall d, timer s = Some d ->
            isPlaying s = true /\ (currentStep s < lastStep)%Z.

(** [pause()], [reset()] and [seek(index)]: the events that stop the
    walk-through when it is playing. *)
Definition stops (e : Event) : Prop :=
  e = PlayClick \/ e = ResetClick \/ exists i, e = StepClick i.

End Controller.

(** ** Notions of the specification *)

Module Spec.
Import JsString Num Random Pipeline.
Import Double (fadd, fdiv).
Local Open Scope Q_scope.

(** The sum of the character codes of the characters of a token. *)
Fixpoint charCodeSum (t : string) : Z :=
  match t with
  | EmptyString => 0%Z
  | String c t' => (charCodeAt0 c + charCodeSum t')%Z
  end.

(** The vector that the specification gives for a token and a
    dimension: coordinate [i] is
    round(sin((hash + i*10)/50) * cos(i/3) * 2, 3 decimals). *)
Definition embedVector `{MathLib} (t : string) (d : Z) : list Q :=
  map (fun i : nat =>
         toFixed3
           (Math_sin ((inject_Z (charCodeSum t) + inject_Z (Z.of_nat i) * 10) / 50)
            * Math_cos (inject_Z (Z.of_nat i) / 3) * 2))
      (seq 0 (Z.to_nat d)).

(** Every vector in the cache is the vector of its key. *)
Definition cacheSound `{MathLib} (d : Z) (cache : gmap string (list Q)) : Prop :=
  forall t v, cache !! t = Some v -> v = embedVector t d.

(** A matrix is [n] by [n], its entries are not negative and every row
    sums to 1 within [tol]. *)
Definition rowStochasticWithin (tol : Q) (n : nat) (m : list (list Q)) : Prop :=
  List.length m = n
  /\ Forall (fun row =>
               List.length row = n
               /\ Forall (fun w => 0 <= w) row
               /\ Qabs (Qsum row - 1) <= tol) m.

(** [sum = 0; sum += w] over a list. *)
Definition sumLeft (l : list Q) : Q := fold_left fadd l 0.

(** A row in the words of the specification: round each raw weight,
    sum the rounded weights, divide each rounded weight by that sum and
    round again. *)
Definition specRow (raw : list Q) : list Q :=
  let rounded := map Double.toFixed3 raw in
  map (fun w => Double.toFixed3 (fdiv w (sumLeft rounded))) rounded.

(** A row as the code computes it: the divisor is the sum of the raw
    weights. *)
Definition codeRow (raw : list Q) : list Q :=
  map (fun w => Double.toFixed3 (fdiv w (sumLeft raw)))
      (map Double.toFixed3 raw).

(** The raw weights of row [i], columns [js], drawn as [rawWeight]
    draws them. *)
Fixpoint rawRow (tokenList : list string) (i : nat) (js : list nat)
  : Rand (list Q) :=
  match js with
  | [] => ret []
  | j :: js' =>
      let* w := rawWeight tokenList i j in
      let* ws := rawRow tokenList i js' in
      ret (w :: ws)
  end.

(** The raw weights of the rows [is_], row after row. *)
Fixpoint rawRows (tokenList : list string) (is_ : list nat)
  : Rand (list (list Q)) :=
  match is_ with
  | [] => ret []
  | i :: is' =>
      let* raw := rawRow tokenList i (seq 0 (List.length tokenList)) in
      let* raws := rawRows tokenList is' in
      ret (raw :: raws)
  end.

Definition rawMatrix (tokenList : list string) : Rand (list (list Q)) :=
  rawRows tokenList (seq 0 (List.length tokenList)).

End Spec.

(** A host for concrete instances.  Sine and cosine are computed by
    their Taylor polynomials of degree 15 and 14 after the argument is
    brought into [-pi, pi], with 355/113 for pi; near the multiples of 1/2000
    a rounded coordinate can differ from that of a browser by 0.001. *)
Module SampleHost.
Import Double (lit).
Local Open Scope Q_scope.

Definition twoPi : Q := 710 # 113.

Definition reduce (x : Q) : Q :=
  Qred (x - twoPi * inject_Z (Qfloor (x / twoPi + (1 # 2)))).

Definition sinPoly (x : Q) : Q :=
  let y := reduce x in
  Qred (y - y^3 / 6 + y^5 / 120 - y^7 / 5040 + y^9 / 362880
        - y^11 / 39916800 + y^13 / 6227020800 - y^15 / 1307674368000).

Definition cosPoly (x : Q) : Q :=
  let y := reduce x in
  Qred (1 - y^2 / 2 + y^4 / 24 - y^6 / 720 + y^8 / 40320
        - y^10 / 3628800 + y^12 / 479001600 - y^14 / 87178291200).

#[export] Instance polyMath : MathLib :=
  {| Math_sin := sinPoly; Math_cos := cosPoly |}.

(** [Math.random] returning 0.2 at every call. *)
Definition steady : Random.source := Random.fromList [] (lit 0.2).

(** [Math.random] returning 0.133, 0.473, 0.143, then 0.5 for ever. *)
Definition skewed : Random.source :=
  Random.fromList [lit 0.133; lit 0.473; lit 0.143] 0.5.

(** [Math.random] returning six jitters, a 0.5 after each of the last
    four, then 0.5 for ever. *)
Definition spread : Random.source :=
  Random.fromList
    [lit 0.763; lit 0.12; lit 0.462; 0.5; lit 0.297; 0.5; lit 0.733; 0.5;
     lit 0.938] 0.5.

(** [Math.random] returning 0.0049, then 0.5 for ever. *)
Definition low : Random.source := Random.fromList [lit 0.0049] 0.5.

Definition host : Controller.Host :=
  {| Controller.rnd := steady; Controller.localeTime := "10:00:00 AM" |}.

End SampleHost.

(** ** Notions used in the further properties *)

Module Notions.

(** A unit that lower-casing leaves alone. *)
Definition lowerFixed (c : ascii) : bool :=
  Ascii.eqb (JsString.lowerUnit c) c.

(** [Math.random] returning 0.006, then 0.5 for ever. *)
Definition high : Random.source :=
  Random.fromList [Double.lit 0.006%Q] 0.5%Q.

(** What the weight of column [j] in row [i] can be before [toFixed]. *)
Definition rawRange (i j : nat) (w : Q) : Prop :=
  (0 <= w)%Q /\ (w <= 81 # 100)%Q
  /\ (j = i -> (69 # 100 <= w)%Q) /\ (j <> i -> (w <= 41 # 100)%Q).

(** The keywords that [generateSimpleOutput] looks for, in its order. *)
Definition keywords : list string :=
  ["hello"; "question"; "name"; "weather"; "time"].

Definition noKeyword (input : string) : Prop :=
  Forall (fun k => JsString.includes (JsString.toLowerCase input) k = false)
         keywords.

(** The cases of its [switch]. *)
Definition lexicon : list string :=
  ["fox"; "quick"; "brown"; "apple"; "cat"; "dog"; "computer"; "data"].

(** The first [if] chain of [generateSimpleOutput], which makes
    [generatedPart]. *)
Definition basePart (localeTime input : string) (currentTokens : list string)
  : Random.Rand string :=
  let lastToken :=
    Pipeline.at_ currentTokens (List.length currentTokens - 1) in
  if JsString.includes (JsString.toLowerCase input) "hello"
  then Random.ret Pipeline.helloReply
  else if JsString.includes (JsString.toLowerCase input) "question"
  then Random.ret Pipeline.questionReply
  else if JsString.includes (JsString.toLowerCase input) "name"
  then Random.ret Pipeline.nameReply
  else if JsString.includes (JsString.toLowerCase input) "weather"
  then Random.ret Pipeline.weatherReply
  else if JsString.includes (JsString.toLowerCase input) "time"
  then Random.ret ("It's currently " ++ localeTime ++ " here.")%string
  else if (3 <? List.length currentTokens)%nat
  then Pipeline.continuation lastToken
  else Random.ret Pipeline.moreContext.

(** Its second [if] chain, which replaces or extends [generatedPart]. *)
Definition postProcess (currentStep : Z) (n : nat) (generatedPart : string)
  : Random.Rand string :=
  if (n <? 3)%nat && (currentStep =? 4)%Z then Random.ret Pipeline.bitShort
  else if (7 <? n)%nat then
    let* coin := Random.random in
    if Num.Qltb 0.5 coin
    then Random.ret (generatedPart ++ Pipeline.lotToThink)%string
    else Random.ret generatedPart
  else Random.ret generatedPart.

End Notions.

(** ** What the markup shows and what it can send *)

Module Markup.
Import Controller.

(** The text of the output panel:
    [output || placeholder], where the empty string counts as false. *)
Definition outputPlaceholder : string :=
  "Output will appear here once the 'Generation' step is reached.".

Definition shownOutput (s : State) : string :=
  match output s with
  | EmptyString => outputPlaceholder
  | _ => output s
  end.

(** [currentStep >= 1 && <TokenVisualization />] and its two siblings. *)
Definition tokenPanelShown (s : State) : bool := (1 <=? currentStep s)%Z.
Definition embeddingPanelShown (s : State) : bool := (2 <=? currentStep s)%Z.
Definition attentionPanelShown (s : State) : bool := (3 <=? currentStep s)%Z.

(** [tokens[i]], the label of row [i] of the attention table; [None] is
    [undefined]. *)
Definition rowLabel (s : State) (i : nat) : option string := tokens s !! i.

(** The indices that [steps.map((step, index) => ...)] gives to
    [handleStepClick]. *)
Definition stepButtons : list Z := [0; 1; 2; 3; 4]%Z.

(** The events that the markup can send: a step button sends its index,
    the two range inputs send a value between their [min] and [max]
    (500 and 3000, 4 and 20). *)
Definition fromMarkup (e : Event) : Prop :=
  match e with
  | StepClick stepIndex => In stepIndex stepButtons
  | SpeedChange value => (500 <= value <= 3000)%Z
  | DimensionChange value => (4 <= value <= 20)%Z
  | _ => True
  end.

(** The states reached from the first render by events of the markup. *)
Inductive reachableByMarkup `{MathLib} : State -> Prop :=
| markup_mount h :
    Random.unit_interval (rnd h) -> reachableByMarkup (mount h)
| markup_step h e s :
    Random.unit_interval (rnd h) -> fromMarkup e ->
    reachableByMarkup s -> reachableByMarkup (step h e s).

(** What the first effect leaves behind: a time-out is pending, with the
    current delay, exactly while the walk-through plays below the last
    stage; and at the last stage it does not play. *)
Definition settled (s : State) : Prop :=
  timer s = (if isPlaying s && (currentStep s <? lastStep)%Z
             then Some (animationSpeed s) else None)
  /\ (currentStep s = lastStep -> isPlaying s = false).

(** What the third effect leaves behind from stage 3 on and from stage 4
    on: a matrix and an output that the generators made from the tokens. *)
Definition produced (s : State) : Prop :=
  ((3 <= currentStep s)%Z ->
   exists r, Random.unit_interval r
             /\ attentionWeights s
                = fst (Pipeline.generateAttentionWeights (tokens s) r))
  /\ ((4 <= currentStep s)%Z ->
      exists localeTime em r,
        output s
        = fst (Pipeline.generateSimpleOutput (currentStep s) localeTime
                 (inputText s) (tokens s) em r)).

End Markup.

(** A host whose sine and cosine stay between -1 and 1: those of
    [SampleHost], cut off at -1 and 1. *)
Module BoundedHost.
Local Open Scope Q_scope.

Definition clamp (x : Q) : Q :=
  if Qle_bool x (-1) then -1 else if Qle_bool 1 x then 1 else x.

Definition boundedMath : MathLib :=
  {| Math_sin := fun x => clamp (SampleHost.sinPoly x);
     Math_cos := fun x => clamp (SampleHost.cosPoly x) |}.

End BoundedHost.

(** ** The first version of the component

    src/components/LLMVisualization.tsx: random embeddings of dimension
    8, a matrix of random numbers with each row divided by its sum, a
    fixed output, and effects that set the artifacts of the stages
    reached without clearing the others. *)

Module LegacyComponent.
Import Num Random.
Local Open Scope Q_scope.

(** [Array.from({ length: n }, () => Math.random() * 2 - 1)] *)
Fixpoint randomVector (n : nat) : Rand (list Q) :=
  match n with
  | O => ret []
  | S n' =>
      let* x := random in
      let* rest := randomVector n' in
      ret (x * 2 - 1 :: rest)
  end.

(** [tokenList.map(token => ({ token, vector: ... }))] *)
Fixpoint generateEmbeddings (tokenList : list string) : Rand (list Token) :=
  match tokenList with
  | [] => ret []
  | token :: rest =>
      let* vector := randomVector 8 in
      let* records := generateEmbeddings rest in
      ret ({| token := token; vector := vector |} :: records)
  end.

(** The inner loop: [row.push(Math.random())] once per column. *)
Fixpoint randomRow (n : nat) : Rand (list Q) :=
  match n with
  | O => ret []
  | S n' =>
      let* x := random in
      let* rest := randomRow n' in
      ret (x :: rest)
  end.

(** [w / sum] for numbers that are not negative; [None] stands for the
    results that are not finite numbers ([NaN] for 0/0, [Infinity] for a
    positive number over 0). *)
Definition divide (w sum : Q) : option Q :=
  if Qeq_bool sum 0 then None else Some (Double.fdiv w sum).

(** [row.reduce((a, b) => a + b, 0)] *)
Definition rowSum (row : list Q) : Q := fold_left Double.fadd row 0.

(** [row.map(w => w / sum)] *)
Definition normalize (row : list Q) : list (option Q) :=
  map (fun w => divide w (rowSum row)) row.

(** A row of the first version's matrix, made from [n] numbers drawn
    from [0, 1): either no entry is a finite number (the numbers drawn
    sum to 0), or the entries are numbers that are not negative and,
    where fewer than 2^32 numbers are drawn and their values sum to at
    least 0.001, sum to 1 within 0.00001. *)
Definition legacyRowOk (n : nat) (row : list (option Q)) : Prop :=
  exists draws : list Q,
    List.length draws = n
    /\ Forall (fun x => 0 <= x /\ x < 1) draws
    /\ row = normalize draws
    /\ List.length row = n
    /\ (Forall (fun x => x = None) row
        \/ exists q,
             row = map Some q
             /\ Forall (fun x => 0 <= x) q
             /\ ((Z.of_nat n < 2 ^ 32)%Z -> 1 # 1000 <= Qsum draws ->
                 Qabs (Qsum q - 1) <= 1 # 100000)).

(** The outer loop, over [rows] rows still to make. *)
Fixpoint matrixLoop (n rows : nat) (weights : list (list (option Q)))
  : Rand (list (list (option Q))) :=
  match rows with
  | O => ret weights
  | S rows' =>
      let* row := randomRow n in
      matrixLoop n rows' (weights ++ [normalize row])
  end.

Definition generateAttentionWeights (tokenList : list string)
  : Rand (list (list (option Q))) :=
  matrixLoop (List.length tokenList) (List.length tokenList) [].

Definition fixedOutput : string := "jumps over the lazy dog".

(** The [useState] cells, and [timer]: the pending time-out with the
    value of [currentStep] that its call-back has captured. *)
Record State := {
  currentStep : Z;
  isPlaying : bool;
  inputText : string;
  tokens : list string;
  embeddings : list Token;
  attentionWeights : list (list (option Q));
  output : string;
  timer : option Z
}.

Definition initialState : State :=
  {| currentStep := 0; isPlaying := false;
     inputText := "The quick brown fox";
     tokens := []; embeddings := []; attentionWeights := []; output := "";
     timer := None |}.

Inductive Event :=
| InputChange (value : string)
| PlayClick
| ResetClick
| StepClick (stepIndex : Z)
| TimerFire.

Definition withStep (v : Z) (s : State) : State :=
  {| currentStep := v; isPlaying := isPlaying s; inputText := inputText s;
     tokens := tokens s; embeddings := embeddings s;
     attentionWeights := attentionWeights s; output := output s;
     timer := timer s |}.

Definition withPlaying (v : bool) (s : State) : State :=
  {| currentStep := currentStep s; isPlaying := v; inputText := inputText s;
     tokens := tokens s; embeddings := embeddings s;
     attentionWeights := attentionWeights s; output := output s;
     timer := timer s |}.

Definition withText (v : string) (s : State) : State :=
  {| currentStep := currentStep s; isPlaying := isPlaying s; inputText := v;
     tokens := tokens s; embeddings := embeddings s;
     attentionWeights := attentionWeights s; output := output s;
     timer := timer s |}.

Definition withTimer (v : option Z) (s : State) : State :=
  {| currentStep := currentStep s; isPlaying := isPlaying s;
     inputText := inputText s;
     tokens := tokens s; embeddings := embeddings s;
     attentionWeights := attentionWeights s; output := output s;
     timer := v |}.

Definition withArtifacts (tk : list string) (em : list Token)
           (aw : list (list (option Q))) (out : string) (s : State) : State :=
  {| currentStep := currentStep s; isPlaying := isPlaying s;
     inputText := inputText s;
     tokens := tk; embeddings := em; attentionWeights := aw; output := out;
     timer := timer s |}.

(** [setIsPlaying(!isPlaying)] *)
Definition handlePlay (s : State) : State := withPlaying (negb (isPlaying s)) s.

Definition handleReset (s : State) : State :=
  withArtifacts [] [] [] "" (withPlaying false (withStep 0 s)).

Definition handleStepClick (stepIndex : Z) (s : State) : State :=
  withPlaying false (withStep stepIndex s).

Definition handleInputChange (value : string) (s : State) : State :=
  withText value s.

(** The call-back of the time-out, with the [currentStep] it captured:
    [if (currentStep < steps.length - 1) setCurrentStep(currentStep + 1)
     else setIsPlaying(false)]. *)
Definition timerCallback (s : State) : State :=
  match timer s with
  | Some captured =>
      if (captured <? 4)%Z then withTimer None (withStep (captured + 1) s)
      else withTimer None (withPlaying false s)
  | None => s
  end.

Definition handle (e : Event) (s : State) : State :=
  match e with
  | InputChange value => handleInputChange value s
  | PlayClick => handlePlay s
  | ResetClick => handleReset s
  | StepClick stepIndex => handleStepClick stepIndex s
  | TimerFire => timerCallback s
  end.

(** First effect: [if (!isPlaying) return;] else schedule the time-out;
    its clean-up clears it. *)
Definition timerEffect (s : State) : State :=
  if isPlaying s then withTimer (Some (currentStep s)) (withTimer None s)
  else withTimer None s.

Definition sameTimerDeps (a b : State) : bool :=
  (currentStep a =? currentStep b)%Z && Bool.eqb (isPlaying a) (isPlaying b).

(** Second effect: each artifact is set when its stage is reached and
    left alone otherwise. *)
Definition recompute (r : source) (s : State) : State :=
  let tokenList := Legacy.tokenizeText (inputText s) in
  let tk := if (1 <=? currentStep s)%Z then tokenList else tokens s in
  let (em, r1) :=
    if (2 <=? currentStep s)%Z then generateEmbeddings tokenList r
    else (embeddings s, r) in
  let (aw, _) :=
    if (3 <=? currentStep s)%Z then generateAttentionWeights tokenList r1
    else (attentionWeights s, r1) in
  let out := if (4 <=? currentStep s)%Z then fixedOutput else output s in
  withArtifacts tk em aw out s.

Definition sameRecomputeDeps (a b : State) : bool :=
  (currentStep a =? currentStep b)%Z
  && String.eqb (inputText a) (inputText b).

(** The effects after a render of [cur] that follows a render of [prev]. *)
Definition commit (r : source) (prev cur : State) : State :=
  let s1 := if sameTimerDeps prev cur then cur else timerEffect cur in
  if sameRecomputeDeps prev cur then s1 else recompute r s1.

Definition step (r : source) (e : Event) (s : State) : State :=
  commit r s (handle e s).

(** The first render: both effects run. *)
Definition mount (r : source) : State :=
  recompute r (timerEffect initialState).

Inductive reachable : State -> Prop :=
| reach_mount r : unit_interval r -> reachable (mount r)
| reach_step r e s :
    unit_interval r -> reachable s -> reachable (step r e s).

(** The artifacts of the stages reached are those of the current text. *)
Definition fresh (s : State) : Prop :=
  ((1 <= currentStep s)%Z -> tokens s = Legacy.tokenizeText (inputText s))
  /\ ((2 <= currentStep s)%Z ->
      map token (embeddings s) = Legacy.tokenizeText (inputText s)
      /\ Forall (fun e => List.length (vector e) = 8%nat) (embeddings s))
  /\ ((3 <= currentStep s)%Z ->
      List.length (attentionWeights s)
      = List.length (Legacy.tokenizeText (inputText s)))
  /\ ((4 <= currentStep s)%Z -> output s = fixedOutput).

(** A time-out is pending exactly while the walk-through plays, and its
    call-back has captured the current stage. *)
Definition timed (s : State) : Prop :=
  timer s = if isPlaying s then Some (currentStep s) else None.

End LegacyComponent.

(** ** Sample states *)

Module Samples.
Import Controller SampleHost.

(** The default text, played up to the embeddings stage. *)
Definition playing : State :=
  run host [PlayClick; TimerFire; TimerFire] (mount host).

(** The default text, with the last step button clicked. *)
Definition atEnd : State := run host [StepClick 4] (mount host).

(** The first version, with the play button clicked. *)
Definition legacyPlaying : LegacyComponent.State :=
  LegacyComponent.step steady LegacyComponent.PlayClick
    (LegacyComponent.mount steady).

(** The first version, with the last step button clicked. *)
Definition legacyAtEnd : LegacyComponent.State :=
  LegacyComponent.step steady (LegacyComponent.StepClick 4)
    (LegacyComponent.mount steady).

End Samples.

(** * Properties *)

(** ** The tokenizer *)

Section TokenizerFacts.
Import JsString Tokenizer.


Lemma append_nil (b : string) : (EmptyString ++ b = b)%string.
Proof. reflexivity. Qed.

Lemma append_cons (x : ascii) (a b : string) :
  (String x a ++ b = String x (a ++ b))%string.
Proof. reflexivity. Qed.

Lemma append_unit (a b : string) (c : ascii) :
  ((a ++ String c EmptyString) ++ b = a ++ String c b)%string.
Proof.
  induction a as [|x a IH]; [reflexivity|].
  rewrite !append_cons. now rewrite IH.
Qed.

Lemma nonEmpty_empty : nonEmpty EmptyString = false.
Proof. reflexivity. Qed.

(** A greedy match of a run of delimiters and a cut at each delimiter
    leave the same fragments once the empty ones are dropped. *)
Lemma splitLoop_fields (cls : ascii -> bool) (s : string) :
  (forall frag,
      List.filter nonEmpty (splitLoop cls s frag false)
      = List.filter nonEmpty (fields cls s frag))
  /\ List.filter nonEmpty (splitLoop cls s EmptyString true)
     = List.filter nonEmpty (fields cls s EmptyString).
Proof.
  induction s as [|c s [IHf IHt]]; simpl.
  - split; reflexivity.
  - destruct (cls c) eqn:Hc; split.
    + intros frag. cbn [List.filter]. rewrite IHt. reflexivity.
    + cbn [List.filter]. rewrite nonEmpty_empty. exact IHt.
    + intros frag. apply IHf.
    + apply IHf.
Qed.

Lemma concat_nonEmpty (l : list string) :
  concatStrings (List.filter nonEmpty l) = concatStrings l.
Proof.
  induction l as [|w l IH]; simpl; [reflexivity|].
  destruct w as [|c w]; simpl; [now rewrite append_nil | now rewrite IH].
Qed.

Lemma concat_fields (cls : ascii -> bool) (s frag : string) :
  concatStrings (fields cls s frag)
  = (frag ++ keepUnits (fun c => negb (cls c)) s)%string.
Proof.
  revert frag; induction s as [|c s IH]; intros frag; simpl.
  - reflexivity.
  - destruct (cls c); simpl.
    + now rewrite IH.
    + rewrite IH. apply append_unit.
Qed.

Lemma allUnits_snoc (p : ascii -> bool) (a : string) (c : ascii) :
  allUnits p a = true -> p c = true ->
  allUnits p (a ++ String c EmptyString) = true.
Proof.
  induction a as [|x a IH]; intros Ha Hc.
  - rewrite append_nil. simpl. now rewrite Hc.
  - rewrite append_cons. simpl in *.
    apply andb_prop in Ha as [Hx Ha]. rewrite Hx. now apply IH.
Qed.

Lemma fields_clean (cls : ascii -> bool) (s frag : string) :
  allUnits (fun c => negb (cls c)) frag = true ->
  Forall (fun w => allUnits (fun c => negb (cls c)) w = true)
         (fields cls s frag).
Proof.
  revert frag; induction s as [|c s IH]; intros frag Hfrag; simpl.
  - constructor; [exact Hfrag | constructor].
  - destruct (cls c) eqn:Hc.
    + constructor; [exact Hfrag | now apply IH].
    + apply IH. apply allUnits_snoc; [exact Hfrag | now rewrite Hc].
Qed.

Lemma tokenizeText_spec (text : string) :
  tokenizeText text = tokenize_spec text.
Proof.
  unfold tokenizeText, tokenize_spec, splitClassPlus.
  apply (proj1 (splitLoop_fields isDelimiter (toLowerCase text))).
Qed.

Lemma tokenizeText_tokens (text : string) :
  Forall (fun w => nonEmpty w = true /\ allUnits notDelimiter w = true)
         (tokenizeText text).
Proof.
  rewrite tokenizeText_spec. unfold tokenize_spec.
  apply List.Forall_forall. intros w Hw.
  apply List.filter_In in Hw as [Hin Hne]. split; [exact Hne|].
  pose proof (fields_clean isDelimiter (toLowerCase text) EmptyString
                eq_refl) as Hc.
  rewrite List.Forall_forall in Hc. now apply Hc.
Qed.





(** A token that occurs twice is kept twice, in place. *)
Lemma tokenize_keeps_repeats :
  tokenizeText "the cat, the dog" = ["the"; "cat"; "the"; "dog"].
Proof. reflexivity. Qed.

End TokenizerFacts.

(** ** The embedding generator *)

Section EmbeddingFacts.
Import JsString Num Pipeline Spec.
Context `{MathLib}.

Lemma fold_charCodes (l : list ascii) (acc : Z) :
  fold_left (fun a char => (a + charCodeAt0 char)%Z) l acc
  = (acc + charCodeSum (string_of_list_ascii l))%Z.
Proof.
  revert acc; induction l as [|c l IH]; intros acc; simpl.
  - lia.
  - rewrite IH. lia.
Qed.

Lemma tokenHash_sum (t : string) : tokenHash t = charCodeSum t.
Proof.
  unfold tokenHash, splitUnits. rewrite fold_charCodes.
  now rewrite string_of_list_ascii_of_string.
Qed.

Lemma arrayFrom_embedVector (t : string) (d : Z) :
  arrayFrom d (coordinate (tokenHash t)) = embedVector t d.
Proof.
  unfold arrayFrom, embedVector, coordinate. now rewrite tokenHash_sum.
Qed.

Lemma embedLoop_map (d : Z) (tokenList : list string)
      (cache : gmap string (list Q)) :
  cacheSound d cache ->
  embedLoop d tokenList cache
  = map (fun t => {| token := t; vector := embedVector t d |}) tokenList.
Proof.
  revert cache; induction tokenList as [|t rest IH]; intros cache Hc; simpl.
  - reflexivity.
  - destruct (cache !! t) as [v|] eqn:Hl.
    + rewrite (Hc t v Hl). f_equal. now apply IH.
    + rewrite arrayFrom_embedVector. f_equal. apply IH.
      intros t' v'. destruct (decide (t = t')) as [->|Hne].
      * rewrite lookup_insert_eq. now intros [= <-].
      * rewrite lookup_insert_ne by exact Hne. apply Hc.
Qed.

Lemma generateEmbeddings_map (tokenList : list string) (d : Z) :
  generateEmbeddings tokenList d
  = map (fun t => {| token := t; vector := embedVector t d |}) tokenList.
Proof.
  apply embedLoop_map. intros t v. rewrite lookup_empty. discriminate.
Qed.

Lemma embedVector_length (t : string) (d : Z) :
  List.length (embedVector t d) = Z.to_nat d.
Proof. unfold embedVector. now rewrite length_map, length_seq. Qed.

(** C2.  For a token [t] and a dimension [d >= 1], [generateEmbeddings]
    on the one-token list is the record of [t] whose vector has [d]
    coordinates, coordinate [i] being
    round(sin((hash + i*10)/50) * cos(i/3) * 2, 3 decimals) with [hash]
    the sum of the character codes of [t].  The function takes no random
    source: its result is a function of the token and the dimension. *)
Theorem C2_embed_formula (t : string) (d : Z) :
  (1 <= d)%Z ->
  generateEmbeddings [t] d
  = [ {| token := t;
         vector :=
           map (fun i : nat =>
                  toFixed3
                    (Math_sin ((inject_Z (charCodeSum t)
                                + inject_Z (Z.of_nat i) * 10) / 50)
                     * Math_cos (inject_Z (Z.of_nat i) / 3) * 2)%Q)
               (seq 0 (Z.to_nat d)) |} ]
  /\ Forall (fun e => Z.of_nat (List.length (vector e)) = d)
            (generateEmbeddings [t] d).
Proof.
  intros Hd. rewrite generateEmbeddings_map. simpl. split; [reflexivity|].
  constructor; [|constructor]. simpl.
  rewrite embedVector_length. lia.
Qed.

(** C4.  [generateEmbeddings] returns one record per token, in the order
    of the tokens, record [i] carrying token [i]; and two records of one
    call with the same token carry the same vector. *)
Theorem C4_embed_records (tokenList : list string) (d : Z) :
  map token (generateEmbeddings tokenList d) = tokenList
  /\ List.length (generateEmbeddings tokenList d) = List.length tokenList
  /\ forall (i j : nat) (a b : Token),
      generateEmbeddings tokenList d !! i = Some a ->
      generateEmbeddings tokenList d !! j = Some b ->
      token a = token b -> vector a = vector b.
Proof.
  rewrite generateEmbeddings_map. split; [|split].
  - rewrite map_map. simpl. apply map_id.
  - apply length_map.
  - intros i j a b Ha Hb Hab.
    rewrite list_lookup_fmap in Ha, Hb.
    destruct (tokenList !! i) as [ti|]; [|discriminate].
    destruct (tokenList !! j) as [tj|]; [|discriminate].
    simpl in Ha, Hb. injection Ha as <-. injection Hb as <-.
    simpl in *. now rewrite Hab.
Qed.

(** C10.  For a dimension [d <= 0], [generateEmbeddings] returns one
    record per token, each with the empty vector; and for every
    dimension the vectors have [d] coordinates (none for [d <= 0]): the
    function does not bring [d] into the range 4..20, nor does the
    handler that stores the dimension. *)
Theorem C10_embed_nonpositive (tokenList : list string) (d : Z) :
  (d <= 0)%Z ->
  generateEmbeddings tokenList d
  = map (fun t => {| token := t; vector := [] |}) tokenList
  /\ (forall d' : Z,
        Forall (fun e => List.length (vector e) = Z.to_nat d')
               (generateEmbeddings tokenList d'))
  /\ (forall (v : Z) (s : Controller.State),
        Controller.embeddingDimension
          (Controller.handle (Controller.DimensionChange v) s) = v).
Proof.
  intros Hd. split; [|split].
  - rewrite generateEmbeddings_map. apply map_ext. intros t.
    unfold embedVector. replace (Z.to_nat d) with 0%nat by lia. reflexivity.
  - intros d'. rewrite generateEmbeddings_map.
    apply List.Forall_forall. intros e He.
    apply List.in_map_iff in He as [t [<- _]]. simpl.
    apply embedVector_length.
  - reflexivity.
Qed.

End EmbeddingFacts.

(** ** Rounding to three decimals *)

Section RoundingFacts.
Import Num.
Local Open Scope Q_scope.

Lemma Qnat_succ (n : nat) : Qnat (S n) == Qnat n + 1.
Proof.
  unfold Qnat. rewrite Nat2Z.inj_succ, <- Z.add_1_r, inject_Z_plus.
  reflexivity.
Qed.

Lemma Qmake_1000 (z : Z) : z # 1000 == inject_Z z * (1 # 1000).
Proof. unfold Qeq, inject_Z, Qmult. simpl. lia. Qed.

Lemma round_half_bounds (y : Q) :
  y - (1 # 2) <= inject_Z (Qfloor (y + (1 # 2)))
  /\ inject_Z (Qfloor (y + (1 # 2))) <= y + (1 # 2).
Proof.
  pose proof (Qfloor_le (y + (1 # 2))) as Hle.
  pose proof (Qlt_floor (y + (1 # 2))) as Hlt.
  rewrite inject_Z_plus in Hlt.
  change (inject_Z 1) with 1 in Hlt. split; lra.
Qed.

(** [toFixed(3)] moves a number by at most half a thousandth. *)
Lemma toFixed3_bounds (x : Q) :
  x - (1 # 2000) <= toFixed3 x /\ toFixed3 x <= x + (1 # 2000).
Proof.
  unfold toFixed3. destruct (Qle_bool 0 x).
  - destruct (round_half_bounds (x * 1000)) as [H1 H2].
    rewrite Qmake_1000. split; lra.
  - destruct (round_half_bounds (- x * 1000)) as [H1 H2].
    rewrite Qmake_1000. split; lra.
Qed.

Lemma toFixed3_nonneg (x : Q) : 0 <= x -> 0 <= toFixed3 x.
Proof.
  intros Hx. unfold toFixed3. destruct (Qle_bool 0 x) eqn:E.
  - rewrite Qmake_1000.
    assert (0 <= Qfloor (x * 1000 + (1 # 2)))%Z as Hz.
    { apply Qfloor_resp_le with (x := 0) (y := x * 1000 + (1 # 2)). lra. }
    assert (0 <= inject_Z (Qfloor (x * 1000 + (1 # 2)))) as Hq.
    { change 0 with (inject_Z 0). rewrite <- Zle_Qle. exact Hz. }
    lra.
  - apply Qle_bool_iff in Hx. congruence.
Qed.

Lemma Qsum_nonneg (l : list Q) : Forall (fun w => 0 <= w) l -> 0 <= Qsum l.
Proof.
  induction 1 as [|x l Hx _ IH]; simpl; lra.
Qed.

(** Entries that stay within [c] of [w / d] sum to within [c] times
    their number of the sum divided by [d]. *)
Lemma Qsum_map_bounds (f : Q -> Q) (d c : Q) (l : list Q) :
  (forall w, In w l -> w / d - c <= f w /\ f w <= w / d + c) ->
  Qsum l / d - c * Qnat (List.length l) <= Qsum (map f l)
  /\ Qsum (map f l) <= Qsum l / d + c * Qnat (List.length l).
Proof.
  induction l as [|x l IH]; intros Hf.
  - cbn [List.length map Qsum]. change (Qnat 0) with 0.
    unfold Qdiv. split; lra.
  - destruct (Hf x (or_introl eq_refl)) as [Hx1 Hx2].
    destruct IH as [IH1 IH2]; [intros w Hw; apply Hf; now right|].
    cbn [List.length map Qsum]. rewrite Qnat_succ.
    unfold Qdiv in *. split; lra.
Qed.

End RoundingFacts.

(** ** Binary64 rounding *)

Section DoubleFacts.
Import Num Double Spec.
Local Open Scope Q_scope.

Lemma roundEven_near (m : Q) :
  m - (1 # 2) <= inject_Z (roundEven m)
  /\ inject_Z (roundEven m) <= m + (1 # 2).
Proof.
  unfold roundEven.
  pose proof (Qfloor_le m) as Hlo.
  pose proof (Qlt_floor m) as Hhi.
  rewrite inject_Z_plus in Hhi. change (inject_Z 1) with 1 in Hhi.
  destruct (Qcompare (m - inject_Z (Qfloor m)) (1 # 2)) eqn:E.
  - apply Qeq_alt in E.
    destruct (Z.even (Qfloor m));
      [|rewrite inject_Z_plus; change (inject_Z 1) with 1]; lra.
  - apply Qlt_alt in E. lra.
  - apply Qgt_alt in E. rewrite inject_Z_plus.
    change (inject_Z 1) with 1. lra.
Qed.

Lemma roundEven_nonneg (m : Q) : 0 <= m -> (0 <= roundEven m)%Z.
Proof.
  intros Hm. unfold roundEven.
  assert (0 <= Qfloor m)%Z as Hf.
  { change 0%Z with (Qfloor 0). now apply Qfloor_resp_le. }
  destruct (Qcompare _ _); [destruct (Z.even _)| |]; lia.
Qed.

Lemma pow2_pos (k : Z) : 0 < 2 ^ k.
Proof. now apply Qpower_0_lt. Qed.

(** The power of 2 that [exponent] names is not above the number. *)
Lemma exponent_le (x : Q) : 0 < x -> 2 ^ exponent x <= x.
Proof.
  intros Hx. unfold exponent.
  destruct (Qle_bool _ x) eqn:E; [now apply Qle_bool_iff|]. clear E.
  destruct x as [a b]. cbn [Qnum Qden].
  assert (0 < a)%Z as Ha.
  { unfold Qlt in Hx. cbn in Hx. lia. }
  destruct (Z.log2_spec a Ha) as [Ha1 _].
  destruct (Z.log2_spec (Zpos b) (Pos2Z.is_pos b)) as [_ Hb].
  pose proof (Z.log2_nonneg a) as Hla.
  pose proof (Z.log2_nonneg (Zpos b)) as Hlb.
  replace (Z.log2 a - Z.log2 (Z.pos b) - 1)%Z
    with (Z.log2 a - Z.succ (Z.log2 (Z.pos b)))%Z by lia.
  rewrite Qpower_minus by (intros H; discriminate H).
  change 2 with (inject_Z 2).
  rewrite <- !Zpower_Qpower by lia.
  rewrite (Qmake_Qdiv a b).
  assert (0 < inject_Z (Zpos b)) as Hbpos.
  { change 0 with (inject_Z 0). rewrite <- Zlt_Qlt. lia. }
  assert (inject_Z (Zpos b) <= inject_Z (2 ^ Z.succ (Z.log2 (Zpos b)))) as Hb'.
  { rewrite <- Zle_Qle. lia. }
  assert (inject_Z (2 ^ Z.log2 a) <= inject_Z a) as Ha'.
  { now rewrite <- Zle_Qle. }
  assert (0 <= inject_Z (2 ^ Z.log2 a)) as HA.
  { change 0 with (inject_Z 0). rewrite <- Zle_Qle. lia. }
  set (A := inject_Z (2 ^ Z.log2 a)) in *.
  set (B := inject_Z (2 ^ Z.succ (Z.log2 (Zpos b)))) in *.
  set (a' := inject_Z a) in *. set (b' := inject_Z (Zpos b)) in *.
  apply Qle_shift_div_l; [exact Hbpos|].
  assert (0 < B) as HB by lra.
  assert (A / B * b' == A * (b' / B)) as -> by (field; lra).
  assert (b' / B <= 1) as Hr by (apply Qle_shift_div_r; lra).
  assert (0 <= b' / B) as Hr0 by (apply Qle_shift_div_l; lra).
  nra.
Qed.

Lemma u_eta_small :
  0 < u /\ u <= 1 # 8000000000000000
  /\ 0 < eta /\ eta <= 1 # 1000000000000000000000000000000.
Proof.
  repeat split; try apply pow2_pos; apply Qle_bool_iff; vm_compute;
    reflexivity.
Qed.

(** Rounding to the nearest double moves a number that is not negative
    by at most [u] times the number, or by [eta] below the smallest
    normal number. *)
Lemma roundPos_spec (x : Q) :
  0 <= x ->
  0 <= roundPos x
  /\ x - (u * x + eta) <= roundPos x
  /\ roundPos x <= x + (u * x + eta).
Proof.
  intros Hx. unfold roundPos.
  destruct u_eta_small as (Hu & _ & Heta & _).
  destruct (Qle_bool x 0) eqn:E.
  { apply Qle_bool_iff in E. nra. }
  assert (0 < x) as Hpos.
  { destruct (Qlt_le_dec 0 x) as [H|H]; [exact H|].
    apply Qle_bool_iff in H. congruence. }
  clear E. cbv zeta. rewrite Qred_correct.
  set (k := Z.min (52 - exponent x) 1074).
  pose proof (pow2_pos k) as Hk.
  pose proof (roundEven_near (x * 2 ^ k)) as [Hlo Hhi].
  pose proof (roundEven_nonneg (x * 2 ^ k)) as Hz.
  assert (0 <= inject_Z (roundEven (x * 2 ^ k))) as Hz'.
  { change 0 with (inject_Z 0). rewrite <- Zle_Qle. apply Hz. nra. }
  set (z := inject_Z (roundEven (x * 2 ^ k))) in *.
  assert (/ 2 ^ k * (1 # 2) <= u * x + eta) as Hbound.
  { destruct (Z.min_spec (52 - exponent x) 1074) as [[_ Ek]|[_ Ek]];
      fold k in Ek.
    - pose proof (exponent_le x Hpos) as He.
      assert (/ 2 ^ k * (1 # 2) == u * 2 ^ exponent x) as ->.
      { rewrite Ek. unfold u.
        replace (52 - exponent x)%Z with (- (exponent x + (-52)))%Z by lia.
        rewrite Qpower_opp, Qinv_involutive.
        rewrite Qpower_plus by (intros H; discriminate H).
        change (2 ^ (-53)) with (2 ^ (-52) * (1 # 2)). ring. }
      nra.
    - rewrite Ek. change (/ 2 ^ 1074 * (1 # 2)) with eta.
      assert (0 <= u * x) by nra. lra. }
  assert (z / 2 ^ k == z * / 2 ^ k) as Ediv by reflexivity.
  assert (0 < / 2 ^ k) as Hinv by now apply Qinv_lt_0_compat.
  assert (x == x * 2 ^ k * / 2 ^ k) as Ex by (field; lra).
  set (i := / 2 ^ k) in *. set (m := x * 2 ^ k) in *.
  rewrite Ediv.
  split; [nra|]. split; nra.
Qed.

Lemma nearest_spec (x : Q) :
  0 <= x ->
  0 <= nearest x
  /\ x - (u * x + eta) <= nearest x
  /\ nearest x <= x + (u * x + eta).
Proof.
  intros Hx. unfold nearest.
  apply Qle_bool_iff in Hx. rewrite Hx. apply Qle_bool_iff in Hx.
  now apply roundPos_spec.
Qed.

(** Up to 4, rounding moves a number by less than 10^-14. *)
Lemma nearest_near (x : Q) :
  0 <= x -> x <= 4 ->
  0 <= nearest x /\ x - tiny <= nearest x /\ nearest x <= x + tiny.
Proof.
  intros Hx Hx4.
  destruct (nearest_spec x Hx) as (H0 & Hlo & Hhi).
  destruct u_eta_small as (Hu & Hu' & Heta & Heta').
  unfold tiny. split; [exact H0|]. split; nra.
Qed.

Lemma thousandths_range (z : Z) :
  (0 <= z)%Z -> (z <= 4000)%Z -> 0 <= z # 1000 /\ z # 1000 <= 4.
Proof.
  intros H0 H4. rewrite (Qmake_1000 z).
  assert (inject_Z 0 <= inject_Z z) as H0' by (now rewrite <- Zle_Qle).
  assert (inject_Z z <= inject_Z 4000) as H4' by (now rewrite <- Zle_Qle).
  change (inject_Z 0) with 0 in H0'. change (inject_Z 4000) with 4000 in H4'.
  split; lra.
Qed.

(** The doubles nearest to the multiples of 1/1000 are in their order. *)
Lemma nearest_thousandths_le (a b : Z) :
  (0 <= a)%Z -> (a <= b)%Z -> (b <= 4000)%Z ->
  nearest (a # 1000) <= nearest (b # 1000).
Proof.
  intros H0 Hab H4.
  destruct (Z.eq_dec a b) as [-> | Hne]; [apply Qle_refl|].
  destruct (thousandths_range a) as [Ha0 Ha4]; [lia | lia |].
  destruct (thousandths_range b) as [Hb0 Hb4]; [lia | lia |].
  destruct (nearest_near _ Ha0 Ha4) as (_ & _ & Ha).
  destruct (nearest_near _ Hb0 Hb4) as (_ & Hb & _).
  assert (inject_Z (a + 1) <= inject_Z b) as Hq by (rewrite <- Zle_Qle; lia).
  rewrite inject_Z_plus in Hq. change (inject_Z 1) with 1 in Hq.
  pose proof (Qmake_1000 a) as Ea. pose proof (Qmake_1000 b) as Eb.
  unfold tiny in *. lra.
Qed.

Lemma floor_half_nonneg (y : Q) : 0 <= y -> (0 <= Qfloor (y + (1 # 2)))%Z.
Proof.
  intros Hy. apply (Qfloor_resp_le 0 (y + (1 # 2))). lra.
Qed.

(** [parseFloat(x.toFixed(3))] moves a number that is not negative by at
    most half a thousandth and the rounding of the result. *)
Lemma toFixed3_near (x : Q) :
  0 <= x -> x <= 3 ->
  0 <= toFixed3 x
  /\ x - (1 # 2000) - tiny <= toFixed3 x
  /\ toFixed3 x <= x + (1 # 2000) + tiny.
Proof.
  intros Hx Hx3. unfold toFixed3.
  assert (Qle_bool 0 x = true) as -> by (now apply Qle_bool_iff).
  destruct (round_half_bounds (x * 1000)) as [H1 H2].
  pose proof (floor_half_nonneg (x * 1000)) as Hz.
  set (z := Qfloor (x * 1000 + (1 # 2))) in *.
  assert (z <= 4000)%Z as Hz4.
  { apply (Qfloor_resp_le (x * 1000 + (1 # 2)) 4000). lra. }
  destruct (thousandths_range z) as [Hq0 Hq4]; [apply Hz; lra | exact Hz4 |].
  destruct (nearest_near _ Hq0 Hq4) as (Hn0 & Hn1 & Hn2).
  pose proof (Qmake_1000 z) as Ez.
  split; [exact Hn0|]. split; lra.
Qed.

Lemma toFixed3_le (x y : Q) :
  0 <= x -> x <= y -> y <= 3 -> toFixed3 x <= toFixed3 y.
Proof.
  intros Hx Hxy Hy. unfold toFixed3.
  assert (Qle_bool 0 x = true) as -> by (now apply Qle_bool_iff).
  assert (Qle_bool 0 y = true) as -> by (apply Qle_bool_iff; lra).
  apply nearest_thousandths_le.
  - apply floor_half_nonneg. lra.
  - apply Qfloor_resp_le. lra.
  - apply (Qfloor_resp_le (y * 1000 + (1 # 2)) 4000). lra.
Qed.

Lemma Qnat_nonneg (n : nat) : 0 <= Qnat n.
Proof.
  unfold Qnat. change 0 with (inject_Z 0). rewrite <- Zle_Qle. lia.
Qed.

(** A sum accumulated in doubles, against the sum of the values: each
    addition adds a relative error of [u] and an absolute one of [eta]. *)
Lemma fadd_sum_bounds (l : list Q) (acc : Q) :
  0 <= acc -> Forall (fun w => 0 <= w) l ->
  2 * Qnat (List.length l) * u <= 1 ->
  0 <= fold_left fadd l acc
  /\ (acc + Qsum l) * (1 - Qnat (List.length l) * u)
     - Qnat (List.length l) * eta <= fold_left fadd l acc
  /\ fold_left fadd l acc
     <= (acc + Qsum l + Qnat (List.length l) * eta)
        * (1 + 2 * Qnat (List.length l) * u).
Proof.
  destruct u_eta_small as (Hu & _ & Heta & _).
  intros Hacc Hl. revert acc Hacc.
  induction Hl as [|x l Hx Hl IH]; intros acc Hacc Hn.
  - cbn [fold_left List.length Qsum]. change (Qnat 0) with 0.
    split; [exact Hacc|]. split; nra.
  - cbn [fold_left List.length Qsum]. cbn [List.length] in Hn.
    rewrite Qnat_succ in *.
    pose proof (Qnat_nonneg (List.length l)) as Hn0.
    pose proof (Qsum_nonneg l Hl) as Hs0.
    assert (0 <= acc + x) as Ht by lra.
    destruct (nearest_spec (acc + x) Ht) as (Ha0 & Ha1 & Ha2).
    fold (fadd acc x) in Ha0, Ha1, Ha2.
    assert (0 <= Qnat (List.length l) * u) as Hnu by nra.
    assert (2 * Qnat (List.length l) * u <= 1) as Hn' by nra.
    destruct (IH (fadd acc x) Ha0 Hn') as (I0 & I1 & I2).
    set (n := Qnat (List.length l)) in *. set (s := Qsum l) in *.
    set (a := fadd acc x) in *. set (f := fold_left fadd l a) in *.
    assert (exists t, t == acc + x) as [t Et] by (now exists (acc + x)).
    rewrite <- Et in Ht, Ha1, Ha2.
    assert (0 <= u * t) as Hut by (apply Qmult_le_0_compat; lra).
    assert (0 <= u * s) as Hus by (apply Qmult_le_0_compat; lra).
    assert (0 <= eta * (n * u)) as Henu by (apply Qmult_le_0_compat; lra).
    split; [exact I0|]. split.
    + assert (0 <= (a - (t - (u * t + eta))) * (1 - n * u))
        by (apply Qmult_le_0_compat; lra).
      assert (0 <= u * t * (n * u)) by (apply Qmult_le_0_compat; lra).
      nra.
    + assert (0 <= (t + (u * t + eta) - a) * (1 + 2 * n * u))
        by (apply Qmult_le_0_compat; lra).
      assert (0 <= u * t * (1 - 2 * n * u))
        by (apply Qmult_le_0_compat; lra).
      assert (0 <= u * eta * (n + 1))
        by (apply Qmult_le_0_compat; [apply Qmult_le_0_compat|]; lra).
      nra.
Qed.

Lemma Qnat_le (n : nat) (b : Z) : (Z.of_nat n < b)%Z -> Qnat n <= inject_Z b.
Proof. intros H. unfold Qnat. rewrite <- Zle_Qle. lia. Qed.

(** For fewer than 2^32 numbers, the sum accumulated in doubles is
    within a millionth of the sum of the values. *)
Lemma sumLeft_near (l : list Q) :
  Forall (fun w => 0 <= w) l -> (Z.of_nat (List.length l) < 2 ^ 32)%Z ->
  0 <= sumLeft l
  /\ Qsum l - (1 # 1000000) * Qsum l - tiny <= sumLeft l
  /\ sumLeft l <= Qsum l + (2 # 1000000) * Qsum l + tiny.
Proof.
  intros Hl Hn. unfold sumLeft.
  destruct u_eta_small as (Hu & Hu' & Heta & Heta').
  pose proof (Qnat_le _ _ Hn) as Hq. change (inject_Z (2 ^ 32)) with 4294967296 in Hq.
  pose proof (Qnat_nonneg (List.length l)) as Hn0.
  pose proof (Qsum_nonneg l Hl) as Hs0.
  set (n := Qnat (List.length l)) in *.
  assert (n * u <= 4294967296 * u) as Hnu by nra.
  assert (n * eta <= 4294967296 * eta) as Hne by nra.
  assert (0 <= n * u) as Hnu0 by nra.
  assert (0 <= n * eta) as Hne0 by nra.
  destruct (fadd_sum_bounds l 0 ltac:(lra) Hl) as (H0 & H1 & H2).
  { fold n. lra. }
  fold n in H1, H2. set (s := Qsum l) in *. set (f := fold_left fadd l 0) in *.
  set (nu := n * u) in *. set (ne := n * eta) in *.
  assert (2 * n * u == 2 * nu) as E2 by (unfold nu; ring).
  rewrite E2 in H2.
  split; [exact H0|]. split.
  - assert (s * nu <= s * (1 # 1000000)) by nra. unfold tiny. nra.
  - assert (s * (2 * nu) <= s * (2 # 1000000)) by nra.
    assert (ne * (2 * nu) <= ne) by nra. unfold tiny. nra.
Qed.

End DoubleFacts.

(** ** The attention-weight generator *)

Section AttentionFacts.
Import Num Random Pipeline Spec.
Import Double (lit, fadd, fmul, fdiv, nearest, tiny).
Local Open Scope Q_scope.

Lemma unit_interval_advance (r : source) :
  unit_interval r -> unit_interval (advance r).
Proof. intros Hr k. apply Hr. Qed.

Lemma unit_interval_fromList (l : list Q) (d : Q) :
  Forall (fun x => 0 <= x /\ x < 1) l -> 0 <= d /\ d < 1 ->
  unit_interval (fromList l d).
Proof.
  intros Hl Hd k. unfold fromList.
  destruct (nth_in_or_default k l d) as [Hin | ->]; [|exact Hd].
  rewrite List.Forall_forall in Hl. now apply Hl.
Qed.

(** The doubles that the literals of the loop denote. *)
Lemma lit_bounds :
  (999 # 10000 <= lit 0.1 /\ lit 0.1 <= 1001 # 10000)
  /\ (6999 # 10000 <= lit 0.7 /\ lit 0.7 <= 7001 # 10000)
  /\ (1999 # 10000 <= lit 0.2 /\ lit 0.2 <= 2001 # 10000)
  /\ (2999 # 10000 <= lit 0.3 /\ lit 0.3 <= 3001 # 10000).
Proof. repeat split; apply Qle_bool_iff; vm_compute; reflexivity. Qed.

Lemma fmul_range (a c hi : Q) :
  0 <= a -> a <= 1 -> 0 <= c -> c <= hi -> hi <= 3 ->
  0 <= fmul a c /\ fmul a c <= hi + tiny.
Proof.
  intros Ha0 Ha1 Hc0 Hc Hhi. unfold fmul.
  assert (0 <= a * c) as Hp0 by (now apply Qmult_le_0_compat).
  assert (a * c <= hi) as Hp by nra.
  destruct (nearest_near (a * c)) as (H0 & _ & H2); [lra | lra |].
  split; [exact H0 | lra].
Qed.

Lemma fadd_range (a b lo hi : Q) :
  0 <= a -> 0 <= b -> lo <= a + b -> a + b <= hi -> hi <= 4 ->
  0 <= fadd a b /\ lo - tiny <= fadd a b /\ fadd a b <= hi + tiny.
Proof.
  intros Ha Hb Hlo Hhi H4. unfold fadd.
  destruct (nearest_near (a + b)) as (H0 & H1 & H2); [lra | lra |].
  split; [exact H0 | split; lra].
Qed.

(** A raw weight lies between 0 and 0.81; on the diagonal it is at
    least 0.69, off the diagonal at most 0.41. *)
Lemma rawWeight_facts (tokenList : list string) (i j : nat) (r : source) :
  unit_interval r ->
  unit_interval (snd (rawWeight tokenList i j r))
  /\ 0 <= fst (rawWeight tokenList i j r)
  /\ fst (rawWeight tokenList i j r) <= 81 # 100
  /\ (i = j -> 69 # 100 <= fst (rawWeight tokenList i j r))
  /\ (i <> j -> fst (rawWeight tokenList i j r) <= 41 # 100).
Proof.
  intros Hr.
  pose proof (Hr 0%nat) as [H0 H0']. pose proof (Hr 2%nat) as [H2 H2'].
  pose proof (unit_interval_advance _ Hr) as Hr1.
  pose proof (unit_interval_advance _ Hr1) as Hr2.
  pose proof (unit_interval_advance _ Hr2) as Hr3.
  destruct lit_bounds as ((L1 & L1') & (L7 & L7') & (L2 & L2') & (L3 & L3')).
  destruct (fmul_range (r 0%nat) (lit 0.1) (1001 # 10000))
    as (Hw0 & Hw1); [lra | lra | lra | lra | lra |].
  unfold rawWeight, bind, random, ret. cbn beta iota.
  set (weight := fmul (r 0%nat) (lit 0.1)) in *.
  unfold tiny in *.
  destruct (i =? j)%nat eqn:Eij.
  { apply Nat.eqb_eq in Eij. cbn [fst snd].
    destruct (fadd_range weight (lit 0.7) (6999 # 10000) (8003 # 10000))
      as (Ha0 & Ha1 & Ha2); unfold tiny in *; try lra.
    split; [exact Hr1|]. split; [exact Ha0|]. split; [lra|].
    split; [intros _; lra | intros Hne; contradiction]. }
  apply Nat.eqb_neq in Eij.
  destruct (absDiff i j <=? 1)%nat.
  { cbn [fst snd].
    destruct (fadd_range weight (lit 0.2) 0 (3003 # 10000))
      as (Ha0 & Ha1 & Ha2); unfold tiny in *; try lra.
    split; [exact Hr1|]. split; [exact Ha0|]. split; [lra|].
    split; [intros E; contradiction | intros _; lra]. }
  destruct (String.eqb _ _ && _).
  { cbn [fst snd].
    destruct (fadd_range weight (lit 0.3) 0 (4003 # 10000))
      as (Ha0 & Ha1 & Ha2); unfold tiny in *; try lra.
    split; [exact Hr1|]. split; [exact Ha0|]. split; [lra|].
    split; [intros E; contradiction | intros _; lra]. }
  cbn beta iota. destruct (Qltb _ _).
  - cbn [fst snd]. change (advance (advance r) 0%nat) with (r 2%nat).
    destruct (fmul_range (r 2%nat) (lit 0.2) (2001 # 10000))
      as (He0 & He1); unfold tiny in *; try lra.
    destruct (fadd_range weight (fmul (r 2%nat) (lit 0.2)) 0
                (3003 # 10000))
      as (Ha0 & Ha1 & Ha2); unfold tiny in *; try lra.
    split; [exact Hr3|]. split; [exact Ha0|]. split; [lra|].
    split; [intros E; contradiction | intros _; lra].
  - cbn [fst snd].
    split; [exact Hr2|]. split; [exact Hw0|]. split; [lra|].
    split; [intros E; contradiction | intros _; lra].
Qed.

Lemma rawRow_cons (tokenList : list string) (i j : nat) (js : list nat)
      (r : source) :
  rawRow tokenList i (j :: js) r
  = (fst (rawWeight tokenList i j r)
       :: fst (rawRow tokenList i js (snd (rawWeight tokenList i j r))),
     snd (rawRow tokenList i js (snd (rawWeight tokenList i j r)))).
Proof.
  cbn [rawRow]. unfold bind, ret.
  destruct (rawWeight tokenList i j r) as [w r1]. cbn [fst snd].
  now destruct (rawRow tokenList i js r1).
Qed.

Lemma rawRows_cons (tokenList : list string) (i : nat) (is_ : list nat)
      (r : source) :
  let row := rawRow tokenList i (seq 0 (List.length tokenList)) r in
  rawRows tokenList (i :: is_) r
  = (fst row :: fst (rawRows tokenList is_ (snd row)),
     snd (rawRows tokenList is_ (snd row))).
Proof.
  cbn [rawRows]. unfold bind, ret.
  destruct (rawRow tokenList i (seq 0 (List.length tokenList)) r) as [raw r1].
  cbn [fst snd]. now destruct (rawRows tokenList is_ r1).
Qed.

Lemma Forall_nonneg (l : list Q) :
  Forall (fun w => 0 <= w /\ w <= 1) l -> Forall (fun w => 0 <= w) l.
Proof. apply List.Forall_impl. intros w [H _]. exact H. Qed.

Lemma rawRow_facts (tokenList : list string) (i : nat) (js : list nat)
      (r : source) :
  unit_interval r ->
  unit_interval (snd (rawRow tokenList i js r))
  /\ List.length (fst (rawRow tokenList i js r)) = List.length js
  /\ Forall (fun w => 0 <= w /\ w <= 1) (fst (rawRow tokenList i js r))
  /\ (In i js -> 69 # 100 <= Qsum (fst (rawRow tokenList i js r))).
Proof.
  revert r; induction js as [|j js IH]; intros r Hr.
  - cbn. split; [exact Hr | split; [reflexivity | split; [constructor | intros []]]].
  - rewrite rawRow_cons. cbn [fst snd List.length Qsum].
    destruct (rawWeight_facts tokenList i j r Hr)
      as (Hr1 & Hw & Hw1 & Hdiag & _).
    destruct (IH _ Hr1) as (Hr2 & Hlen & Hall & Hsum).
    split; [exact Hr2 | split; [ | split]].
    + now rewrite Hlen.
    + constructor; [split; lra | exact Hall].
    + assert (0 <= Qsum (fst (rawRow tokenList i js
                                 (snd (rawWeight tokenList i j r))))) as Hws.
      { apply Qsum_nonneg. now apply Forall_nonneg. }
      intros [<- | Hin].
      * specialize (Hdiag eq_refl). lra.
      * specialize (Hsum Hin). lra.
Qed.

Lemma rawRows_facts (tokenList : list string) (is_ : list nat) (r : source) :
  unit_interval r ->
  (forall i, In i is_ -> (i < List.length tokenList)%nat) ->
  unit_interval (snd (rawRows tokenList is_ r))
  /\ List.length (fst (rawRows tokenList is_ r)) = List.length is_
  /\ Forall (fun raw =>
               List.length raw = List.length tokenList
               /\ Forall (fun w => 0 <= w /\ w <= 1) raw
               /\ 69 # 100 <= Qsum raw)
            (fst (rawRows tokenList is_ r)).
Proof.
  revert r; induction is_ as [|i is_ IH]; intros r Hr Hlt.
  - cbn. split; [exact Hr | split; [reflexivity | constructor]].
  - rewrite rawRows_cons. cbn [fst snd List.length].
    destruct (rawRow_facts tokenList i (seq 0 (List.length tokenList)) r Hr)
      as (Hr1 & Hlen & Hall & Hsum).
    destruct (IH _ Hr1) as (Hr2 & Hlen' & Hrows).
    { intros k Hk. apply Hlt. now right. }
    split; [exact Hr2 | split].
    + now rewrite Hlen'.
    + constructor; [|exact Hrows].
      rewrite length_seq in Hlen. split; [exact Hlen | split; [exact Hall |]].
      apply Hsum. apply in_seq. specialize (Hlt i (or_introl eq_refl)). lia.
Qed.

(** The inner loop leaves the rounded raw weights in [row] and the sum
    of the raw weights in [sum]. *)
Lemma rowLoop_raw (tokenList : list string) (i : nat) (js : list nat)
      (row : list Q) (sum : Q) (r : source) :
  rowLoop tokenList i js row sum r
  = ((row ++ map Double.toFixed3 (fst (rawRow tokenList i js r)),
      fold_left fadd (fst (rawRow tokenList i js r)) sum),
     snd (rawRow tokenList i js r)).
Proof.
  revert row sum r; induction js as [|j js IH]; intros row sum r.
  - cbn. now rewrite app_nil_r.
  - rewrite rawRow_cons. cbn [rowLoop fst snd map fold_left].
    unfold bind. destruct (rawWeight tokenList i j r) as [w r1].
    rewrite IH. cbn [fst snd]. now rewrite <- app_assoc.
Qed.

Lemma matrixLoop_raw (tokenList : list string) (is_ : list nat)
      (weights : list (list Q)) (r : source) :
  matrixLoop tokenList is_ weights r
  = (weights ++ map codeRow (fst (rawRows tokenList is_ r)),
     snd (rawRows tokenList is_ r)).
Proof.
  revert weights r; induction is_ as [|i is_ IH]; intros weights r.
  - cbn. now rewrite app_nil_r.
  - rewrite rawRows_cons. cbn [matrixLoop fst snd map].
    unfold bind. rewrite rowLoop_raw. rewrite IH.
    cbn [fst snd app]. now rewrite <- app_assoc.
Qed.

(** The divisor of a row: the sum of its raw weights, accumulated in
    doubles, is at least 0.68. *)
Lemma divisor_near (raw : list Q) :
  Forall (fun w => 0 <= w /\ w <= 1) raw -> 69 # 100 <= Qsum raw ->
  (Z.of_nat (List.length raw) < 2 ^ 32)%Z ->
  68 # 100 <= sumLeft raw
  /\ Qsum raw - (1 # 1000000) * Qsum raw - tiny <= sumLeft raw
  /\ sumLeft raw <= Qsum raw + (2 # 1000000) * Qsum raw + tiny.
Proof.
  intros Hraw Hsum Hn.
  destruct (sumLeft_near raw (Forall_nonneg raw Hraw) Hn) as (_ & H1 & H2).
  split; [unfold tiny in *; lra | split; assumption].
Qed.

(** An entry of a row is within 0.001236 of its raw weight over the
    divisor: half a thousandth from the last [toFixed], and half a
    thousandth over 0.68 from the first. *)
Lemma entry_near (w d : Q) :
  0 <= w -> w <= 1 -> 68 # 100 <= d ->
  0 <= Double.toFixed3 (fdiv (Double.toFixed3 w) d)
  /\ w / d - (1236 # 1000000) <= Double.toFixed3 (fdiv (Double.toFixed3 w) d)
  /\ Double.toFixed3 (fdiv (Double.toFixed3 w) d) <= w / d + (1236 # 1000000).
Proof.
  intros Hw0 Hw1 Hd.
  destruct (toFixed3_near w) as (Ha0 & Ha1 & Ha2); [lra | lra |].
  set (a := Double.toFixed3 w) in *.
  assert (0 < / d) as Hi0 by (apply Qinv_lt_0_compat; lra).
  assert (/ d <= 100 # 68) as Hi1 by (apply Qle_shift_inv_r; lra).
  unfold fdiv, Qdiv. set (i := / d) in *. unfold tiny in *.
  assert (0 <= a * i) as Hq0 by (apply Qmult_le_0_compat; lra).
  assert (0 <= (w + (1 # 2000) + (1 # 100000000000000) - a) * i) as Hq1
    by (apply Qmult_le_0_compat; lra).
  assert (0 <= (a - (w - (1 # 2000) - (1 # 100000000000000))) * i) as Hq2
    by (apply Qmult_le_0_compat; lra).
  assert (0 <= w * i) as Hq3 by (apply Qmult_le_0_compat; lra).
  assert (w * i <= 100 # 68) as Hq4 by nra.
  destruct (nearest_near (a * i)) as (Hb0 & Hb1 & Hb2); [lra | nra |].
  set (b := nearest (a * i)) in *. unfold tiny in *.
  destruct (toFixed3_near b) as (Hc0 & Hc1 & Hc2); [lra | nra |].
  unfold tiny in *.
  split; [exact Hc0|]. split; nra.
Qed.

Lemma codeRow_stochastic (raw : list Q) :
  Forall (fun w => 0 <= w /\ w <= 1) raw -> 69 # 100 <= Qsum raw ->
  (Z.of_nat (List.length raw) < 2 ^ 32)%Z ->
  List.length (codeRow raw) = List.length raw
  /\ Forall (fun w => 0 <= w) (codeRow raw)
  /\ Qabs (Qsum (codeRow raw) - 1) <= (13 # 10000) * Qnat (List.length raw).
Proof.
  intros Hraw Hsum Hn. unfold codeRow. rewrite map_map.
  destruct (divisor_near raw Hraw Hsum Hn) as (Hd & Hlo & Hhi).
  set (d := sumLeft raw) in *.
  rewrite List.Forall_forall in Hraw.
  split; [apply length_map | split].
  - apply List.Forall_forall. intros e He.
    apply List.in_map_iff in He as [w [<- Hw]].
    destruct (Hraw w Hw) as [Hw0 Hw1].
    now apply entry_near.
  - destruct (Qsum_map_bounds
                (fun w => Double.toFixed3 (fdiv (Double.toFixed3 w) d)) d
                (1236 # 1000000) raw) as [Hlo' Hhi'].
    { intros w Hw. destruct (Hraw w Hw) as [Hw0 Hw1].
      now apply entry_near. }
    assert (1 <= Qnat (List.length raw)) as Hn1.
    { destruct raw as [|x raw'].
      - cbn [Qsum] in Hsum. lra.
      - cbn [List.length]. rewrite Qnat_succ.
        pose proof (Qnat_nonneg (List.length raw')). lra. }
    assert (0 < / d) as Hi0 by (apply Qinv_lt_0_compat; lra).
    assert (/ d <= 100 # 68) as Hi1 by (apply Qle_shift_inv_r; lra).
    assert (d * / d == 1) as Hone by (apply Qmult_inv_r; lra).
    unfold Qdiv, tiny in *. set (i := / d) in *. set (t := Qsum raw) in *.
    assert (0 <= (d - (t - (1 # 1000000) * t - (1 # 100000000000000))) * i)
      as Hp1 by (apply Qmult_le_0_compat; lra).
    assert (0 <= (t + (2 # 1000000) * t + (1 # 100000000000000) - d) * i)
      as Hp2 by (apply Qmult_le_0_compat; lra).
    assert (t * i <= 1 + (3 # 1000000)) as Ht1 by nra.
    assert (1 - (3 # 1000000) <= t * i) as Ht2 by nra.
    apply Qabs_Qle_condition. split; lra.
Qed.

(** C7, as the code has it.  Each row of the matrix is made from the raw
    weights of the row (jitter plus bias) by rounding each to 3
    decimals, dividing each rounded weight by the sum of the raw
    weights, the ones not yet rounded, and rounding the quotient to 3
    decimals. *)
Theorem C7_divisor_is_raw_sum (tokenList : list string) (r : source) :
  generateAttentionWeights tokenList r
  = (map (fun raw =>
            map (fun w => Double.toFixed3 (fdiv w (fold_left fadd raw 0)))
                (map Double.toFixed3 raw))
         (fst (rawMatrix tokenList r)),
     snd (rawMatrix tokenList r)).
Proof.
  unfold generateAttentionWeights, rawMatrix. now rewrite matrixLoop_raw.
Qed.

(** C7, as the specification words it, fails: for the one token a and a
    jitter of 0.00049 the raw weight is 0.70049 and rounds to 0.700; the
    code divides 0.700 by 0.70049 and gets 0.999, while dividing by the
    sum of the rounded weights gives 1.000. *)
Lemma C7_counterexample :
  unit_interval SampleHost.low
  /\ fst (generateAttentionWeights ["a"] SampleHost.low) = [[lit 0.999]]
  /\ map specRow (fst (rawMatrix ["a"] SampleHost.low)) = [[lit 1]]
  /\ fst (generateAttentionWeights ["a"] SampleHost.low)
     <> map specRow (fst (rawMatrix ["a"] SampleHost.low)).
Proof.
  split; [|split; [|split]].
  - apply unit_interval_fromList;
      [repeat constructor|split];
      apply Qle_bool_iff || apply Qlt_alt; vm_compute; reflexivity.
  - vm_compute. reflexivity.
  - vm_compute. reflexivity.
  - vm_compute. discriminate.
Qed.

(** C1, as the code has it.  For every list of [n] tokens, fewer than
    2^32 as in every array, and every run of [Math.random] in [0, 1),
    [generateAttentionWeights] returns an [n] by [n] matrix whose
    entries are not negative and whose rows each sum to 1 within
    [n * 0.0013]: half a thousandth per entry from the last [toFixed],
    at most 0.000736 per entry from rounding the weights before a
    division by at least 0.68, and the rounding of the doubles. *)
Theorem C1_rows_near_one (tokenList : list string) (r : source) :
  unit_interval r ->
  (Z.of_nat (List.length tokenList) < 2 ^ 32)%Z ->
  rowStochasticWithin ((13 # 10000) * Qnat (List.length tokenList))
                      (List.length tokenList)
                      (fst (generateAttentionWeights tokenList r)).
Proof.
  intros Hr Hn. unfold generateAttentionWeights. rewrite matrixLoop_raw.
  cbn [fst app].
  destruct (rawRows_facts tokenList (seq 0 (List.length tokenList)) r Hr)
    as (_ & Hlen & Hrows).
  { intros i Hi. apply in_seq in Hi. lia. }
  split.
  - now rewrite length_map, Hlen, length_seq.
  - apply List.Forall_forall. intros row Hrow.
    apply List.in_map_iff in Hrow as [raw [<- Hin]].
    rewrite List.Forall_forall in Hrows.
    destruct (Hrows raw Hin) as (Hlen' & Hpos & Hsum).
    rewrite <- Hlen' in Hn.
    destruct (codeRow_stochastic raw Hpos Hsum Hn) as (Hl & Hp & Hs).
    rewrite Hlen' in Hl, Hs. auto.
Qed.

(** C1, as the specification states it, fails: for the tokens a, b, c
    and the jitters 0.0133, 0.0473, 0.0143 the first row is 0.731,
    0.253, 0.014, which sums to 0.998. *)
Lemma C1_counterexample :
  unit_interval SampleHost.skewed
  /\ (1 <= List.length ["a"; "b"; "c"])%nat
  /\ nth 0 (fst (generateAttentionWeights ["a"; "b"; "c"] SampleHost.skewed)) []
     = [lit 0.731; lit 0.253; lit 0.014]
  /\ ~ rowStochasticWithin (1 # 1000) 3
        (fst (generateAttentionWeights ["a"; "b"; "c"] SampleHost.skewed)).
Proof.
  split; [|split; [|split]].
  - apply unit_interval_fromList;
      [repeat constructor|split];
      apply Qle_bool_iff || apply Qlt_alt; vm_compute; reflexivity.
  - simpl. lia.
  - vm_compute. reflexivity.
  - intros [_ Hrows].
    pose proof (proj1 (List.Forall_nth _ _) Hrows 0%nat []) as Hrow.
    destruct Hrow as (_ & _ & Hsum); [vm_compute; lia|].
    vm_compute in Hsum. now apply Hsum.
Qed.

(** The last rounding alone takes a row away from 1 by more than
    0.001: for six distinct tokens and these jitters the first row sums
    to 0.998 whether the divisor is the sum of the raw weights or the
    sum of the rounded ones. *)
Lemma rounding_alone_exceeds :
  let tokenList := ["a"; "b"; "c"; "d"; "e"; "f"] in
  let row := [lit 0.63; lit 0.172; lit 0.037; lit 0.024; lit 0.059;
              lit 0.076] in
  nth 0 (fst (generateAttentionWeights tokenList SampleHost.spread)) [] = row
  /\ specRow (nth 0 (fst (rawMatrix tokenList SampleHost.spread)) []) = row
  /\ Qsum row <= 9981 # 10000.
Proof.
  cbv zeta. split; [|split].
  - vm_compute. reflexivity.
  - vm_compute. reflexivity.
  - apply Qle_bool_iff. vm_compute. reflexivity.
Qed.

End AttentionFacts.

(** ** The output generator *)

Section OutputFacts.
Import JsString Num Random Pipeline.
Local Open Scope Q_scope.

(** C8.  On the empty input every stage gives its empty result: the
    tokenizer the empty list, the attention generator the empty matrix
    (drawing no random number), the output generator the message that
    asks to start typing, whatever the input text, the stage and the
    random numbers, with no rule applied after it. *)
Theorem C8_empty_input :
  tokenizeText "" = []
  /\ (forall r : source, generateAttentionWeights [] r = ([], r))
  /\ (forall (currentStep : Z) (localeTime input : string)
             (currentEmbeddings : list Token) (r : source),
        generateSimpleOutput currentStep localeTime input [] currentEmbeddings r
        = ("Start typing to generate output...", r)).
Proof. split; [|split]; reflexivity. Qed.

(** C5, as the code has it.  For an input whose lower-cased form
    contains name and neither hello nor question, and a token list that
    is not empty: with fewer than 3 tokens at stage 4 the result is the
    message that the input is a bit short; otherwise, with at most 7
    tokens, it is the reply of the name branch; with more than 7 tokens
    it is that reply, followed by the suffix when the number drawn
    exceeds 0.5. *)
Theorem C5_name_reply (currentStep : Z) (localeTime input : string)
        (currentTokens : list string) (currentEmbeddings : list Token)
        (r : source) :
  currentTokens <> [] ->
  includes (toLowerCase input) "name" = true ->
  includes (toLowerCase input) "hello" = false ->
  includes (toLowerCase input) "question" = false ->
  let result :=
    fst (generateSimpleOutput currentStep localeTime input currentTokens
           currentEmbeddings r) in
  let n := List.length currentTokens in
  ((n < 3)%nat /\ currentStep = 4%Z -> result = bitShort)
  /\ (((3 <= n)%nat \/ currentStep <> 4%Z) /\ (n <= 7)%nat ->
      result = "My name is LLM-Vis. What's yours?")
  /\ ((7 < n)%nat ->
      result = if Qltb 0.5 (r 0%nat)
               then (nameReply ++ " A lot to think about!")%string
               else nameReply).
Proof.
  intros Hne Hname Hhello Hquestion. cbv zeta.
  unfold generateSimpleOutput.
  destruct currentTokens as [|t0 rest]; [contradiction|].
  cbn [List.length Nat.eqb]. rewrite Hhello, Hquestion, Hname.
  unfold bind at 1. unfold ret at 1.
  set (n := S (List.length rest)).
  split; [|split].
  - intros [Hn ->]. apply Nat.ltb_lt in Hn. rewrite Hn. reflexivity.
  - intros [Hshort Hlong].
    assert ((n <? 3)%nat && (currentStep =? 4)%Z = false) as ->.
    { destruct Hshort as [Hn | Hs].
      - apply Nat.ltb_ge in Hn. now rewrite Hn.
      - apply Z.eqb_neq in Hs. rewrite Hs. apply andb_false_r. }
    assert ((7 <? n)%nat = false) as -> by (apply Nat.ltb_ge; lia).
    reflexivity.
  - intros Hn.
    assert ((n <? 3)%nat = false) as -> by (apply Nat.ltb_ge; lia).
    assert ((7 <? n)%nat = true) as -> by (apply Nat.ltb_lt; lia).
    cbn [andb]. unfold bind, random, ret.
    now destruct (Qltb 0.5 (r 0%nat)).
Qed.

(** C5, as the specification states it, fails: the text My name has the
    keyword and two tokens, and at stage 4 the result is the message
    that the input is a bit short, not the reply of the name branch. *)
Lemma C5_counterexample :
  tokenizeText "My name" = ["my"; "name"]
  /\ includes (toLowerCase "My name") "name" = true
  /\ includes (toLowerCase "My name") "hello" = false
  /\ includes (toLowerCase "My name") "question" = false
  /\ fst (generateSimpleOutput 4 "10:00:00 AM" "My name"
            (tokenizeText "My name") [] SampleHost.steady)
     = "Input is a bit short. Could you elaborate?"
  /\ fst (generateSimpleOutput 4 "10:00:00 AM" "My name"
            (tokenizeText "My name") [] SampleHost.steady)
     <> nameReply.
Proof.
  repeat split; try reflexivity. vm_compute. discriminate.
Qed.

End OutputFacts.

(** ** The stage controller *)

Section ControllerFacts.
Import Random Pipeline Controller.
Context `{MathLib}.

Lemma recompute_state (h : Host) (s : State) :
  currentStep (recompute h s) = currentStep s
  /\ isPlaying (recompute h s) = isPlaying s
  /\ inputText (recompute h s) = inputText s
  /\ embeddingDimension (recompute h s) = embeddingDimension s
  /\ timer (recompute h s) = timer s.
Proof.
  unfold recompute.
  destruct (if (3 <=? currentStep s)%Z then _ else _) as [aw r1].
  destruct (if (4 <=? currentStep s)%Z then _ else _) as [out r2].
  repeat split.
Qed.

Lemma recompute_gated (h : Host) (s : State) : gated (recompute h s).
Proof.
  unfold gated, recompute.
  destruct (if (3 <=? currentStep s)%Z then _ else _) as [aw r1] eqn:Eaw.
  destruct (if (4 <=? currentStep s)%Z then _ else _) as [out r2] eqn:Eout.
  cbn. split; [reflexivity|]. split; [|split; [|split]].
  - intros Hlt. destruct (2 <=? currentStep s)%Z eqn:E2; [lia | reflexivity].
  - intros Hge. destruct (2 <=? currentStep s)%Z eqn:E2; [reflexivity | lia].
  - intros Hlt. destruct (3 <=? currentStep s)%Z eqn:E3; [lia|].
    now injection Eaw as <- _.
  - intros Hlt. destruct (4 <=? currentStep s)%Z eqn:E4; [lia|].
    now injection Eout as <- _.
Qed.

Lemma timerEffect_state (s : State) :
  currentStep (timerEffect (timerCleanup s)) = currentStep s
  /\ inputText (timerEffect (timerCleanup s)) = inputText s
  /\ embeddingDimension (timerEffect (timerCleanup s)) = embeddingDimension s
  /\ tokens (timerEffect (timerCleanup s)) = tokens s
  /\ embeddings (timerEffect (timerCleanup s)) = embeddings s
  /\ attentionWeights (timerEffect (timerCleanup s)) = attentionWeights s
  /\ output (timerEffect (timerCleanup s)) = output s.
Proof.
  unfold timerEffect, timerCleanup. cbn.
  destruct (isPlaying s && _); [repeat split|].
  destruct (currentStep s =? lastStep)%Z; repeat split.
Qed.

Lemma gated_transfer (a b : State) :
  gated a ->
  currentStep b = currentStep a -> inputText b = inputText a ->
  embeddingDimension b = embeddingDimension a ->
  tokens b = tokens a -> embeddings b = embeddings a ->
  attentionWeights b = attentionWeights a -> output b = output a ->
  gated b.
Proof.
  unfold gated. intros Ha -> -> -> -> -> -> ->. exact Ha.
Qed.

Lemma handle_artifacts (e : Event) (s : State) :
  tokens (handle e s) = tokens s
  /\ embeddings (handle e s) = embeddings s
  /\ attentionWeights (handle e s) = attentionWeights s
  /\ output (handle e s) = output s.
Proof.
  destruct e; cbn; try (repeat split; fail).
  - unfold handlePlay. destruct (negb _ && _); repeat split.
  - unfold timerCallback. destruct (timer s); repeat split.
Qed.

Lemma sameRecomputeDeps_eq (a b : State) :
  sameRecomputeDeps a b = true ->
  inputText b = inputText a /\ currentStep b = currentStep a
  /\ embeddingDimension b = embeddingDimension a.
Proof.
  unfold sameRecomputeDeps. intros Hd.
  apply andb_prop in Hd as [Hd Hdim]. apply andb_prop in Hd as [Htxt Hstep].
  apply String.eqb_eq in Htxt. apply Z.eqb_eq in Hstep, Hdim. auto.
Qed.

Lemma sameTimerDeps_eq (a b : State) :
  sameTimerDeps a b = true ->
  currentStep b = currentStep a /\ isPlaying b = isPlaying a.
Proof.
  unfold sameTimerDeps. intros Hd.
  apply andb_prop in Hd as [Hd _]. apply andb_prop in Hd as [Hstep Hplay].
  apply Z.eqb_eq in Hstep. apply Bool.eqb_prop in Hplay. auto.
Qed.

Lemma sameDeps_refl (s : State) :
  sameTimerDeps s s = true /\ sameRecomputeDeps s s = true.
Proof.
  unfold sameTimerDeps, sameRecomputeDeps.
  now rewrite !Z.eqb_refl, String.eqb_refl, Bool.eqb_reflx.
Qed.

Lemma effectsPass_gated (h : Host) (prev cur : State) :
  (sameRecomputeDeps prev cur = true -> gated cur) ->
  gated (effectsPass h prev cur).
Proof.
  intros Hcur. unfold effectsPass.
  destruct (sameRecomputeDeps prev cur); [|apply recompute_gated].
  specialize (Hcur eq_refl).
  destruct (sameTimerDeps prev cur); [exact Hcur|].
  destruct (timerEffect_state cur) as (? & ? & ? & ? & ? & ? & ?).
  now apply (gated_transfer cur).
Qed.

Lemma commit_gated (h : Host) (prev next : State) :
  (sameRecomputeDeps prev next = true -> gated next) ->
  gated (commit h prev next).
Proof.
  intros Hnext. unfold commit.
  pose proof (effectsPass_gated h prev next Hnext) as H1.
  destruct (Bool.eqb _ _); [exact H1|].
  apply effectsPass_gated. intros _. exact H1.
Qed.

Lemma mount_gated (h : Host) : gated (mount h).
Proof.
  unfold mount. pose proof (recompute_gated h (timerEffect initialState)) as H1.
  destruct (Bool.eqb _ _); [exact H1|].
  apply effectsPass_gated. intros _. exact H1.
Qed.

Lemma step_gated (h : Host) (e : Event) (s : State) :
  gated s -> gated (step h e s).
Proof.
  intros Hs. unfold step. apply commit_gated. intros Hd.
  apply sameRecomputeDeps_eq in Hd as (Htxt & Hstep & Hdim).
  destruct (handle_artifacts e s) as (? & ? & ? & ?).
  now apply (gated_transfer s).
Qed.

(** C6.  In every state that the controller reaches from the first
    render by its events and the firing of its time-out, once the
    effects have run: the tokens are those of the input text; the
    embeddings are empty below stage 2 (and from stage 2 on they are
    those of the tokens); the attention matrix is empty below stage 3;
    the output is empty below stage 4. *)
Theorem C6_stage_gating (s : State) :
  reachable s ->
  tokens s = tokenizeText (inputText s)
  /\ ((currentStep s < 2)%Z -> embeddings s = [])
  /\ ((2 <= currentStep s)%Z ->
      embeddings s = generateEmbeddings (tokens s) (embeddingDimension s))
  /\ ((currentStep s < 3)%Z -> attentionWeights s = [])
  /\ ((currentStep s < 4)%Z -> output s = "").
Proof.
  intros Hs. change (gated s).
  induction Hs as [h _ | h e s _ _ IH].
  - apply mount_gated.
  - now apply step_gated.
Qed.

Lemma effectsPass_state (h : Host) (prev cur : State) :
  currentStep (effectsPass h prev cur) = currentStep cur
  /\ (isPlaying cur = false -> isPlaying (effectsPass h prev cur) = false).
Proof.
  unfold effectsPass.
  assert (currentStep (timerEffect (timerCleanup cur)) = currentStep cur
          /\ (isPlaying cur = false ->
              isPlaying (timerEffect (timerCleanup cur)) = false)) as [Hc Hp].
  { unfold timerEffect, timerCleanup. cbn.
    destruct (isPlaying cur && _); [now split|].
    destruct (currentStep cur =? lastStep)%Z; now split. }
  destruct (sameTimerDeps prev cur), (sameRecomputeDeps prev cur);
    repeat match goal with
           | |- context [recompute ?h ?s] =>
               destruct (recompute_state h s) as (-> & -> & _)
           end; auto.
Qed.

Lemma timerEffect_sound (s : State) : timerSound (timerEffect (timerCleanup s)).
Proof.
  unfold timerSound, timerEffect, timerCleanup. cbn. intros d.
  destruct (isPlaying s && _) eqn:E; cbn.
  - intros _. apply andb_prop in E as [Hp Hlt].
    apply Z.ltb_lt in Hlt. now split.
  - destruct (currentStep s =? lastStep)%Z; cbn; discriminate.
Qed.

Lemma recompute_sound (h : Host) (s : State) :
  timerSound s -> timerSound (recompute h s).
Proof.
  unfold timerSound.
  destruct (recompute_state h s) as (-> & -> & _ & _ & ->). auto.
Qed.

Lemma effectsPass_sound (h : Host) (prev cur : State) :
  (sameTimerDeps prev cur = true -> timerSound cur) ->
  timerSound (effectsPass h prev cur).
Proof.
  intros Hcur. unfold effectsPass.
  assert (timerSound (if sameTimerDeps prev cur then cur
                      else timerEffect (timerCleanup cur))) as H1.
  { destruct (sameTimerDeps prev cur); [now apply Hcur|].
    apply timerEffect_sound. }
  destruct (sameRecomputeDeps prev cur); [exact H1|].
  now apply recompute_sound.
Qed.

Lemma commit_sound (h : Host) (prev next : State) :
  (sameTimerDeps prev next = true -> timerSound next) ->
  timerSound (commit h prev next).
Proof.
  intros Hnext. unfold commit.
  pose proof (effectsPass_sound h prev next Hnext) as H1.
  destruct (Bool.eqb _ _); [exact H1|].
  apply effectsPass_sound. intros _. exact H1.
Qed.

Lemma handle_timer (e : Event) (s : State) (d : Z) :
  timer (handle e s) = Some d -> timer s = Some d.
Proof.
  destruct e; cbn; try (intros Ht; exact Ht).
  - unfold handlePlay. destruct (negb _ && _); intros Ht; exact Ht.
  - unfold timerCallback. destruct (timer s) eqn:E; cbn; congruence.
Qed.

Lemma step_sound (h : Host) (e : Event) (s : State) :
  timerSound s -> timerSound (step h e s).
Proof.
  intros Hs. unfold step. apply commit_sound. intros Hd d Ht.
  apply sameTimerDeps_eq in Hd as [-> ->].
  apply (Hs d). now apply handle_timer in Ht.
Qed.

Lemma mount_sound (h : Host) : timerSound (mount h).
Proof.
  unfold mount.
  assert (timerSound (recompute h (timerEffect initialState))) as H1.
  { apply recompute_sound. intros d. cbn. discriminate. }
  destruct (Bool.eqb _ _); [exact H1|].
  apply effectsPass_sound. intros _. exact H1.
Qed.

Lemma reachable_sound (s : State) : reachable s -> timerSound s.
Proof.
  induction 1 as [h _ | h e s _ _ IH]; [apply mount_sound|].
  now apply step_sound.
Qed.

(** The effects leave the walk-through stopped when the handler has
    stopped it. *)
Lemma step_stopped (h : Host) (e : Event) (s : State) :
  isPlaying (handle e s) = false -> isPlaying (step h e s) = false.
Proof.
  intros Hp. unfold step, commit.
  destruct (effectsPass_state h s (handle e s)) as [_ H1].
  specialize (H1 Hp).
  destruct (Bool.eqb _ _); [exact H1|].
  now apply effectsPass_state.
Qed.

(** With no time-out pending, the firing of a time-out is no event. *)
Lemma timerFire_idle (h : Host) (s : State) :
  timer s = None -> step h TimerFire s = s.
Proof.
  intros Ht. unfold step. cbn [handle]. unfold timerCallback. rewrite Ht.
  unfold commit, effectsPass.
  destruct (sameDeps_refl s) as [-> ->].
  now rewrite Bool.eqb_reflx.
Qed.

Lemma stopped_idle (s : State) :
  timerSound s -> isPlaying s = false -> timer s = None.
Proof.
  intros Hs Hp. destruct (timer s) as [d|] eqn:Ht; [|reflexivity].
  destruct (Hs d Ht) as [Hplay _]. congruence.
Qed.

Lemma stops_handle (e : Event) (s : State) :
  stops e -> isPlaying s = true -> isPlaying (handle e s) = false.
Proof.
  intros [-> | [-> | [i ->]]] Hp; cbn; [|reflexivity|reflexivity].
  unfold handlePlay. rewrite Hp. reflexivity.
Qed.

(** C9.  In a reachable state with a time-out pending, [pause()],
    [reset()] or [seek(index)] leaves the walk-through stopped and no
    time-out pending, so that the advance cannot fire: however often
    the firing of a time-out is tried afterwards, the state, and the
    stage with it, stays as it is.  And in every reachable state where
    the walk-through is stopped no time-out is pending and the firing
    of a time-out changes nothing. *)
Theorem C9_timer_cancelled (s : State) :
  reachable s ->
  (forall (d : Z) (e : Event) (h : Host),
      timer s = Some d -> stops e ->
      isPlaying (step h e s) = false
      /\ timer (step h e s) = None
      /\ forall (h' : Host) (k : nat),
          run h' (repeat TimerFire k) (step h e s) = step h e s)
  /\ (isPlaying s = false ->
      timer s = None /\ forall h : Host, step h TimerFire s = s).
Proof.
  intros Hs. pose proof (reachable_sound s Hs) as Hsound. split.
  - intros d e h Ht He. destruct (Hsound d Ht) as [Hp _].
    assert (isPlaying (step h e s) = false) as Hstop.
    { apply step_stopped. now apply stops_handle. }
    assert (timer (step h e s) = None) as Hnone.
    { apply stopped_idle; [now apply step_sound | exact Hstop]. }
    split; [exact Hstop | split; [exact Hnone|]].
    intros h' k. induction k as [|k IH]; [reflexivity|].
    cbn [repeat run]. now rewrite timerFire_idle.
  - intros Hp. pose proof (stopped_idle s Hsound Hp) as Hnone.
    split; [exact Hnone|]. intros h. now apply timerFire_idle.
Qed.

End ControllerFacts.

(** ** Concrete instances *)

Section Instances.
Import JsString Num Random Pipeline Spec Controller SampleHost.
Local Open Scope Q_scope.

Lemma steady_unit : unit_interval steady.
Proof.
  apply unit_interval_fromList; [constructor | split];
    apply Qle_bool_iff || apply Qlt_alt; vm_compute; reflexivity.
Qed.

Lemma skewed_unit : unit_interval skewed.
Proof.
  apply unit_interval_fromList; [repeat constructor | split];
    apply Qle_bool_iff || apply Qlt_alt; vm_compute; reflexivity.
Qed.

(** The default text, played up to the embeddings stage. *)
Lemma playing_reachable :
  reachable (run host [PlayClick; TimerFire; TimerFire] (mount host)).
Proof.
  cbn [run]. repeat apply reach_step; try exact steady_unit.
  apply reach_mount. exact steady_unit.
Qed.

Lemma C1_rows_near_one_witness :
  unit_interval skewed
  /\ (Z.of_nat (List.length ["a"; "b"; "c"]) < 2 ^ 32)%Z
  /\ rowStochasticWithin ((13 # 10000) * Qnat 3) 3
       (fst (generateAttentionWeights ["a"; "b"; "c"] skewed)).
Proof.
  split; [exact skewed_unit|]. split; [reflexivity|].
  exact (C1_rows_near_one ["a"; "b"; "c"] skewed skewed_unit eq_refl).
Defined.

Lemma C2_embed_formula_witness :
  (1 <= 8)%Z
  /\ generateEmbeddings ["fox"] 8
     = [ {| token := "fox";
            vector := [0.736; 1.031; 1.102; 0.896; 0.434;
                       -(0.188); -(0.832); -(1.352)] |} ].
Proof.
  split; [lia|].
  refine (eq_trans (proj1 (C2_embed_formula "fox" 8 _)) _); [lia|].
  vm_compute. reflexivity.
Defined.

Lemma C4_embed_records_witness :
  exists a b : Token,
    generateEmbeddings ["the"; "fox"; "the"] 8 !! 0%nat = Some a
    /\ generateEmbeddings ["the"; "fox"; "the"] 8 !! 2%nat = Some b
    /\ token a = token b
    /\ vector a = vector b.
Proof.
  exists {| token := "the"; vector := embedVector "the" 8 |},
         {| token := "the"; vector := embedVector "the" 8 |}.
  assert (generateEmbeddings ["the"; "fox"; "the"] 8 !! 0%nat
          = Some {| token := "the"; vector := embedVector "the" 8 |}) as H0
      by (vm_compute; reflexivity).
  assert (generateEmbeddings ["the"; "fox"; "the"] 8 !! 2%nat
          = Some {| token := "the"; vector := embedVector "the" 8 |}) as H2
      by (vm_compute; reflexivity).
  split; [exact H0 | split; [exact H2 | split; [reflexivity|]]].
  exact (proj2 (proj2 (C4_embed_records ["the"; "fox"; "the"] 8))
           0%nat 2%nat _ _ H0 H2 eq_refl).
Defined.

Lemma C5_name_reply_witness :
  tokenizeText "What is your name?" <> []
  /\ includes (toLowerCase "What is your name?") "name" = true
  /\ includes (toLowerCase "What is your name?") "hello" = false
  /\ includes (toLowerCase "What is your name?") "question" = false
  /\ fst (generateSimpleOutput 4 "10:00:00 AM" "What is your name?"
            (tokenizeText "What is your name?") [] steady)
     = "My name is LLM-Vis. What's yours?".
Proof.
  assert (tokenizeText "What is your name?" <> []) as Hne
      by (intros E; vm_compute in E; discriminate E).
  split; [exact Hne|]. repeat (split; [reflexivity|]).
  apply (proj1 (proj2 (C5_name_reply 4 "10:00:00 AM" "What is your name?"
                         (tokenizeText "What is your name?") [] steady
                         Hne eq_refl eq_refl eq_refl))).
  split; [left|]; vm_compute; lia.
Defined.

Lemma C6_stage_gating_witness :
  reachable (run host [PlayClick; TimerFire; TimerFire] (mount host))
  /\ gated (run host [PlayClick; TimerFire; TimerFire] (mount host)).
Proof.
  split; [exact playing_reachable|].
  exact (C6_stage_gating _ playing_reachable).
Defined.

Lemma C9_timer_cancelled_witness :
  reachable (run host [PlayClick; TimerFire; TimerFire] (mount host))
  /\ timer (run host [PlayClick; TimerFire; TimerFire] (mount host))
     = Some 2000%Z
  /\ stops PlayClick
  /\ isPlaying
       (step host PlayClick
          (run host [PlayClick; TimerFire; TimerFire] (mount host))) = false
  /\ timer
       (step host PlayClick
          (run host [PlayClick; TimerFire; TimerFire] (mount host))) = None.
Proof.
  assert (timer (run host [PlayClick; TimerFire; TimerFire] (mount host))
          = Some 2000%Z) as Ht by (vm_compute; reflexivity).
  assert (stops PlayClick) as Hstop by (left; reflexivity).
  split; [exact playing_reachable|].
  split; [exact Ht|]. split; [exact Hstop|].
  destruct (proj1 (C9_timer_cancelled _ playing_reachable)
              2000%Z PlayClick host Ht Hstop) as (Hp & Hn & _).
  split; [exact Hp | exact Hn].
Defined.

Lemma C10_embed_nonpositive_witness :
  (-3 <= 0)%Z
  /\ generateEmbeddings ["the"; "fox"] (-3)
     = [ {| token := "the"; vector := [] |};
         {| token := "fox"; vector := [] |} ].
Proof.
  split; [lia|].
  apply (proj1 (C10_embed_nonpositive ["the"; "fox"] (-3) ltac:(lia))).
Defined.

End Instances.

(** * Further properties of the code *)

(** ** The tokenizer, continued *)

Section TokenizerLaws.
Import JsString Tokenizer Notions.

Lemma append_empty (a : string) : (a ++ EmptyString = a)%string.
Proof.
  induction a as [|x a IH]; [reflexivity|]. now rewrite append_cons, IH.
Qed.

Lemma tokenizeText_concat (text : string) :
  concatStrings (tokenizeText text) = keepUnits notDelimiter (toLowerCase text).
Proof.
  rewrite tokenizeText_spec. unfold tokenize_spec.
  now rewrite concat_nonEmpty, concat_fields.
Qed.

Lemma lowerUnit_idem (c : ascii) : lowerUnit (lowerUnit c) = lowerUnit c.
Proof.
  destruct c as [b0 b1 b2 b3 b4 b5 b6 b7].
  destruct b0, b1, b2, b3, b4, b5, b6, b7; reflexivity.
Qed.

Lemma isDelimiter_lower (c : ascii) : isDelimiter (lowerUnit c) = isDelimiter c.
Proof.
  destruct c as [b0 b1 b2 b3 b4 b5 b6 b7].
  destruct b0, b1, b2, b3, b4, b5, b6, b7; reflexivity.
Qed.

Lemma isSpace_lower (c : ascii) : isSpace (lowerUnit c) = isSpace c.
Proof.
  destruct c as [b0 b1 b2 b3 b4 b5 b6 b7].
  destruct b0, b1, b2, b3, b4, b5, b6, b7; reflexivity.
Qed.

Lemma isSpace_isDelimiter (c : ascii) : isSpace c = true -> isDelimiter c = true.
Proof. intros Hc. unfold isDelimiter. now rewrite Hc. Qed.

Lemma toLowerCase_app (a b : string) :
  toLowerCase (a ++ b) = (toLowerCase a ++ toLowerCase b)%string.
Proof.
  induction a as [|c a IH]; [reflexivity|].
  rewrite append_cons. simpl. now rewrite append_cons, IH.
Qed.

Lemma toLowerCase_idem (s : string) :
  toLowerCase (toLowerCase s) = toLowerCase s.
Proof.
  induction s as [|c s IH]; simpl; [reflexivity|].
  now rewrite lowerUnit_idem, IH.
Qed.

Lemma toLowerCase_lowerFixed (s : string) :
  allUnits lowerFixed (toLowerCase s) = true.
Proof.
  induction s as [|c s IH]; simpl; [reflexivity|].
  unfold lowerFixed at 1. now rewrite lowerUnit_idem, Ascii.eqb_refl.
Qed.

Lemma lowerFixed_toLowerCase (w : string) :
  allUnits lowerFixed w = true -> toLowerCase w = w.
Proof.
  induction w as [|c w IH]; simpl; [reflexivity|].
  intros Hw. apply andb_prop in Hw as [Hc Hw].
  apply Ascii.eqb_eq in Hc. now rewrite Hc, IH.
Qed.

Lemma allUnits_app (p : ascii -> bool) (a b : string) :
  allUnits p (a ++ b) = allUnits p a && allUnits p b.
Proof.
  induction a as [|c a IH]; [reflexivity|].
  rewrite append_cons. simpl. now rewrite IH, andb_assoc.
Qed.

(** Every fragment is made of units of the text and of the fragment
    begun. *)
Lemma fields_units (p cls : ascii -> bool) (s frag : string) :
  allUnits p s = true -> allUnits p frag = true ->
  Forall (fun w => allUnits p w = true) (fields cls s frag).
Proof.
  revert frag; induction s as [|c s IH]; intros frag Hs Hfrag; simpl.
  - constructor; [exact Hfrag | constructor].
  - simpl in Hs. apply andb_prop in Hs as [Hc Hs].
    destruct (cls c).
    + constructor; [exact Hfrag | now apply IH].
    + apply IH; [exact Hs|]. rewrite allUnits_app, Hfrag. simpl.
      now rewrite Hc.
Qed.

(** A delimiter closes the fragment before it and opens a new one. *)
Lemma fields_app_delimiter (cls : ascii -> bool) (a b frag : string)
      (d : ascii) :
  cls d = true ->
  fields cls (a ++ String d b) frag
  = fields cls a frag ++ fields cls b EmptyString.
Proof.
  intros Hd. revert frag; induction a as [|c a IH]; intros frag.
  - rewrite append_nil. simpl. now rewrite Hd.
  - rewrite append_cons. simpl. destruct (cls c).
    + now rewrite IH.
    + apply IH.
Qed.

Lemma fields_no_delimiter (cls : ascii -> bool) (w frag : string) :
  allUnits (fun c => negb (cls c)) w = true ->
  fields cls w frag = [(frag ++ w)%string].
Proof.
  revert frag; induction w as [|c w IH]; intros frag Hw; simpl.
  - now rewrite append_empty.
  - simpl in Hw. apply andb_prop in Hw as [Hc Hw].
    apply negb_true_iff in Hc. rewrite Hc, IH by exact Hw.
    now rewrite append_unit.
Qed.

Lemma tokenize_fields (cls : ascii -> bool) (s : string) :
  List.filter nonEmpty (splitClassPlus cls s)
  = List.filter nonEmpty (fields cls s EmptyString).
Proof. apply (proj1 (splitLoop_fields cls s)). Qed.

(** X1.  For texts of code units below 256 (ASCII and Latin-1), where
    lower-casing works unit by unit: the tokens of a text cut in two at
    a delimiter are the tokens of the part before it followed by the
    tokens of the part after it. *)
Theorem X1_tokenize_at_delimiter (a b : string) (d : ascii) :
  isDelimiter d = true ->
  tokenizeText (a ++ String d b) = tokenizeText a ++ tokenizeText b.
Proof.
  intros Hd. unfold tokenizeText. rewrite !tokenize_fields.
  rewrite toLowerCase_app. cbn [toLowerCase].
  rewrite fields_app_delimiter by (now rewrite isDelimiter_lower).
  apply List.filter_app.
Qed.

(** X2.  A token is a text that the tokenizer gives back as it is: its
    only token is itself. *)
Theorem X2_token_fixed (text w : string) :
  In w (tokenizeText text) -> tokenizeText w = [w].
Proof.
  intros Hin.
  pose proof (tokenizeText_tokens text) as Htok.
  rewrite List.Forall_forall in Htok. destruct (Htok w Hin) as [Hne Hclean].
  assert (allUnits lowerFixed w = true) as Hlow.
  { unfold tokenizeText in Hin. rewrite tokenize_fields in Hin.
    apply List.filter_In in Hin as [Hin _].
    pose proof (fields_units lowerFixed isDelimiter (toLowerCase text)
                  EmptyString (toLowerCase_lowerFixed text) eq_refl) as Hall.
    rewrite List.Forall_forall in Hall. now apply Hall. }
  unfold tokenizeText. rewrite tokenize_fields.
  rewrite (lowerFixed_toLowerCase w Hlow).
  rewrite fields_no_delimiter by exact Hclean.
  rewrite append_nil. cbn [List.filter]. now rewrite Hne.
Qed.

Lemma keepUnits_empty (keep : ascii -> bool) (s : string) :
  keepUnits keep s = EmptyString <-> allUnits (fun c => negb (keep c)) s = true.
Proof.
  induction s as [|c s IH]; simpl; [tauto|].
  destruct (keep c); simpl; [split; discriminate | exact IH].
Qed.

Lemma allUnits_lower_delimiter (s : string) :
  allUnits isDelimiter (toLowerCase s) = allUnits isDelimiter s.
Proof.
  induction s as [|c s IH]; simpl; [reflexivity|].
  now rewrite isDelimiter_lower, IH.
Qed.

Lemma allUnits_ext (p q : ascii -> bool) (s : string) :
  (forall c, p c = q c) -> allUnits p s = allUnits q s.
Proof.
  intros Hpq. induction s as [|c s IH]; simpl; [reflexivity|].
  now rewrite Hpq, IH.
Qed.

(** X3.  A text has no token exactly when each of its units is a
    delimiter: the empty text, and a text of spaces and punctuation. *)
Theorem X3_no_token_iff (text : string) :
  tokenizeText text = [] <-> allUnits isDelimiter text = true.
Proof.
  pose proof tokenizeText_concat as Hcat.
  pose proof tokenizeText_tokens as Htok.
  rewrite <- allUnits_lower_delimiter.
  rewrite (allUnits_ext isDelimiter (fun c => negb (notDelimiter c)))
    by (intros c; unfold notDelimiter; now rewrite negb_involutive).
  rewrite <- keepUnits_empty, <- (Hcat text). split.
  - now intros ->.
  - intros Hempty. specialize (Htok text).
    destruct (tokenizeText text) as [|w l]; [reflexivity|].
    inversion Htok as [|? ? [Hne _] _]. destruct w; [discriminate|].
    simpl in Hempty. rewrite append_cons in Hempty. discriminate.
Qed.

Lemma tokens_of_empty (cls : ascii -> bool) :
  List.filter nonEmpty (fields cls EmptyString EmptyString) = [].
Proof. reflexivity. Qed.

Lemma tokens_if_nonEmpty (cls : ascii -> bool) (g : string) :
  flat_map (fun w => List.filter nonEmpty (fields cls w EmptyString))
           (if nonEmpty g then [g] else [])
  = List.filter nonEmpty (fields cls g EmptyString).
Proof.
  destruct g as [|c g]; [reflexivity|].
  cbn [nonEmpty String.length Nat.ltb Nat.leb flat_map]. apply app_nil_r.
Qed.

(** Cutting at a smaller class and then cutting each fragment at a
    larger class is cutting at the larger class. *)
Lemma fields_refine (small large : ascii -> bool) (s g : string) :
  (forall c, small c = true -> large c = true) ->
  flat_map (fun w => List.filter nonEmpty (fields large w EmptyString))
           (List.filter nonEmpty (fields small s g))
  = List.filter nonEmpty (fields large (g ++ s) EmptyString).
Proof.
  intros Hsub. revert g; induction s as [|c s IH]; intros g.
  - rewrite append_empty. cbn [fields List.filter].
    apply tokens_if_nonEmpty.
  - cbn [fields]. destruct (small c) eqn:Hc.
    + cbn [List.filter].
      rewrite fields_app_delimiter by (now apply Hsub).
      specialize (IH EmptyString). rewrite append_nil in IH.
      rewrite List.filter_app, <- IH, <- (tokens_if_nonEmpty large g).
      destruct (nonEmpty g); cbn [flat_map app]; [|reflexivity].
      now rewrite app_nil_r.
    + rewrite IH. now rewrite append_unit.
Qed.

Lemma flat_map_fixed (f g : string -> list string) (l : list string) :
  (forall w, In w l -> f w = g w) -> flat_map f l = flat_map g l.
Proof.
  induction l as [|w l IH]; intros Hfg; [reflexivity|].
  cbn [flat_map]. rewrite (Hfg w (or_introl eq_refl)), IH; [reflexivity|].
  intros v Hv. apply Hfg. now right.
Qed.

(** X4.  The tokenizer refines that of the first version of the
    component: its tokens are those of the first version, each cut
    further at the punctuation it contains. *)
Theorem X4_refines_legacy (text : string) :
  tokenizeText text = flat_map tokenizeText (Legacy.tokenizeText text).
Proof.
  unfold Legacy.tokenizeText. rewrite tokenize_fields.
  pose proof (fields_units lowerFixed isSpace (toLowerCase text) EmptyString
                (toLowerCase_lowerFixed text) eq_refl) as Hlow.
  rewrite List.Forall_forall in Hlow.
  rewrite (flat_map_fixed tokenizeText
             (fun w => List.filter nonEmpty (fields isDelimiter w EmptyString))).
  - rewrite (fields_refine isSpace isDelimiter) by exact isSpace_isDelimiter.
    rewrite append_nil. apply tokenizeText_spec.
  - intros w Hw. apply List.filter_In in Hw as [Hw _].
    unfold tokenizeText. rewrite tokenize_fields.
    now rewrite (lowerFixed_toLowerCase w (Hlow w Hw)).
Qed.

End TokenizerLaws.

(** ** The embedding generator, continued *)

Section EmbeddingLaws.
Import JsString Num Pipeline Spec.
Local Open Scope Q_scope.
Context `{MathLib}.

(** X5.  The records of a list of tokens do not depend on the tokens
    around them: the records of two lists put end to end are the
    records of the first followed by the records of the second, as if
    each had a cache of its own. *)
Theorem X5_embed_app (l1 l2 : list string) (d : Z) :
  generateEmbeddings (l1 ++ l2) d
  = generateEmbeddings l1 d ++ generateEmbeddings l2 d.
Proof. rewrite !generateEmbeddings_map. apply map_app. Qed.

Lemma charCodeSum_perm (l1 l2 : list ascii) :
  Permutation l1 l2 ->
  charCodeSum (string_of_list_ascii l1) = charCodeSum (string_of_list_ascii l2).
Proof.
  induction 1 as [|c l1 l2 _ IH|c1 c2 l|l1 l2 l3 _ IH1 _ IH2]; simpl.
  - reflexivity.
  - now rewrite IH.
  - lia.
  - congruence.
Qed.

(** X6.  Two tokens with the same characters in another order (dog and
    god) get the same vector: the vector depends on the token through
    the sum of its character codes only. *)
Theorem X6_embed_anagram (tokenList : list string) (d : Z) (a b : Token) :
  In a (generateEmbeddings tokenList d) ->
  In b (generateEmbeddings tokenList d) ->
  Permutation (list_ascii_of_string (token a))
              (list_ascii_of_string (token b)) ->
  vector a = vector b.
Proof.
  rewrite generateEmbeddings_map. intros Ha Hb Hperm.
  apply List.in_map_iff in Ha as [ta [<- _]].
  apply List.in_map_iff in Hb as [tb [<- _]].
  cbn [token vector] in *. unfold embedVector.
  apply charCodeSum_perm in Hperm.
  rewrite !string_of_list_ascii_of_string in Hperm. now rewrite Hperm.
Qed.

Lemma embedVector_firstn (t : string) (d d' : Z) :
  (d <= d')%Z ->
  embedVector t d = firstn (Z.to_nat d) (embedVector t d').
Proof.
  intros Hd. unfold embedVector.
  rewrite firstn_map, take_seq.
  now replace (Z.to_nat d `min` Z.to_nat d')%nat with (Z.to_nat d) by lia.
Qed.

(** X7.  The coordinates do not depend on the dimension: the vectors of
    a dimension are the first coordinates of the vectors of any larger
    dimension. *)
Theorem X7_embed_prefix (tokenList : list string) (d d' : Z) :
  (d <= d')%Z ->
  generateEmbeddings tokenList d
  = map (fun e => {| token := token e;
                     vector := firstn (Z.to_nat d) (vector e) |})
        (generateEmbeddings tokenList d').
Proof.
  intros Hd. rewrite !generateEmbeddings_map, map_map.
  apply map_ext. intros t. cbn [token vector].
  now rewrite <- embedVector_firstn.
Qed.

Lemma thousandths_within_two (z : Z) :
  (0 <= z <= 2000)%Z -> 0 <= z # 1000 /\ z # 1000 <= 2.
Proof.
  intros [Hz0 Hz1]. rewrite Qmake_1000.
  assert (inject_Z 0 <= inject_Z z) as H0 by (rewrite <- Zle_Qle; exact Hz0).
  assert (inject_Z z <= inject_Z 2000) as H1 by (rewrite <- Zle_Qle; exact Hz1).
  change (inject_Z 0) with 0 in H0. change (inject_Z 2000) with 2000 in H1.
  split; lra.
Qed.

Lemma toFixed3_within_two (x : Q) : -2 <= x -> x <= 2 ->
  -2 <= toFixed3 x /\ toFixed3 x <= 2.
Proof.
  intros Hlo Hhi. unfold toFixed3. destruct (Qle_bool 0 x) eqn:E.
  - apply Qle_bool_iff in E.
    destruct (thousandths_within_two (Qfloor (x * 1000 + (1 # 2)))) as [H0 H1].
    { split.
      - apply (Qfloor_resp_le 0 (x * 1000 + (1 # 2))). lra.
      - apply (Qfloor_resp_le (x * 1000 + (1 # 2)) (4001 # 2)). lra. }
    split; lra.
  - assert (~ 0 <= x) as Hneg by (rewrite <- Qle_bool_iff; congruence).
    destruct (thousandths_within_two (Qfloor (- x * 1000 + (1 # 2))))
      as [H0 H1].
    { split.
      - apply (Qfloor_resp_le 0 (- x * 1000 + (1 # 2))). lra.
      - apply (Qfloor_resp_le (- x * 1000 + (1 # 2)) (4001 # 2)). lra. }
    split; lra.
Qed.

(** X8.  On a host whose sine and cosine stay between -1 and 1, every
    coordinate of every vector lies between -2 and 2. *)
Theorem X8_embed_range (tokenList : list string) (d : Z) :
  (forall x, -1 <= Math_sin x /\ Math_sin x <= 1) ->
  (forall x, -1 <= Math_cos x /\ Math_cos x <= 1) ->
  Forall (fun e => Forall (fun v => -2 <= v /\ v <= 2) (vector e))
         (generateEmbeddings tokenList d).
Proof.
  intros Hsin Hcos. rewrite generateEmbeddings_map.
  apply List.Forall_forall. intros e He.
  apply List.in_map_iff in He as [t [<- _]]. cbn [vector].
  unfold embedVector. apply List.Forall_forall. intros v Hv.
  apply List.in_map_iff in Hv as [i [<- _]].
  match goal with
  | |- context [Math_sin ?a * Math_cos ?b * 2] =>
      destruct (Hsin a) as [Hs1 Hs2]; destruct (Hcos b) as [Hc1 Hc2];
      set (sn := Math_sin a) in *; set (cs := Math_cos b) in *
  end.
  apply toFixed3_within_two; nra.
Qed.

End EmbeddingLaws.

(** ** The attention-weight generator, continued *)

Section AttentionLaws.
Import Num Random Pipeline Spec Notions.
Import Double (lit, fadd, fmul, fdiv, nearest, tiny).
Local Open Scope Q_scope.

Lemma rawWeight_range (tokenList : list string) (i j : nat) (r : source) :
  unit_interval r -> rawRange i j (fst (rawWeight tokenList i j r)).
Proof.
  intros Hr.
  destruct (rawWeight_facts tokenList i j r Hr) as (_ & H0 & H1 & Hd & Ho).
  split; [exact H0|]. split; [exact H1|]. split.
  - intros ->. now apply Hd.
  - intros Hne. apply Ho. congruence.
Qed.

Lemma rawRow_range (tokenList : list string) (i : nat) (js : list nat)
      (r : source) :
  unit_interval r ->
  Forall2 (rawRange i) js (fst (rawRow tokenList i js r)).
Proof.
  revert r; induction js as [|j js IH]; intros r Hr.
  - constructor.
  - rewrite rawRow_cons. cbn [fst]. constructor.
    + now apply rawWeight_range.
    + apply IH. now apply rawWeight_facts.
Qed.

(** Each row of raw weights is drawn by [rawRow] from numbers in [0, 1). *)
Lemma rawRows_rows (tokenList : list string) (is_ : list nat) (r : source) :
  unit_interval r ->
  Forall2 (fun i raw =>
             exists r', unit_interval r'
                        /\ raw = fst (rawRow tokenList i
                                        (seq 0 (List.length tokenList)) r'))
          is_ (fst (rawRows tokenList is_ r)).
Proof.
  revert r; induction is_ as [|i is_ IH]; intros r Hr.
  - constructor.
  - rewrite rawRows_cons. cbn [fst]. constructor.
    + now exists r.
    + apply IH. now apply rawRow_facts.
Qed.

Lemma In_le_Qsum (l : list Q) (w : Q) :
  Forall (fun x => 0 <= x) l -> In w l -> w <= Qsum l.
Proof.
  induction 1 as [|x l Hx Hl IH]; intros Hin; [destruct Hin|].
  pose proof (Qsum_nonneg l Hl) as Hs. cbn [Qsum].
  destruct Hin as [<- | Hin]; [lra | specialize (IH Hin); lra].
Qed.

Lemma Qsum_le_length (l : list Q) :
  Forall (fun w => 0 <= w /\ w <= 1) l -> Qsum l <= Qnat (List.length l).
Proof.
  induction 1 as [|x l [_ Hx] _ IH]; cbn [Qsum List.length].
  - apply Qle_refl.
  - rewrite Qnat_succ. lra.
Qed.

(** The row of a matrix, as [codeRow] of the raw weights that [rawRow]
    draws for it. *)
Lemma attention_row (tokenList : list string) (r : source) (i : nat)
      (row : list Q) :
  unit_interval r ->
  fst (generateAttentionWeights tokenList r) !! i = Some row ->
  exists r',
    unit_interval r'
    /\ (i < List.length tokenList)%nat
    /\ row = codeRow (fst (rawRow tokenList i
                             (seq 0 (List.length tokenList)) r')).
Proof.
  intros Hr Hrow. unfold generateAttentionWeights in Hrow.
  rewrite matrixLoop_raw in Hrow. cbn [fst app] in Hrow.
  rewrite list_lookup_fmap in Hrow.
  destruct (fst (rawRows _ _ r) !! i) as [raw|] eqn:Hraw; [|discriminate].
  injection Hrow as <-.
  pose proof (rawRows_rows tokenList (seq 0 (List.length tokenList)) r Hr)
    as Hrows.
  destruct (Forall2_lookup_r _ _ _ _ _ Hrows Hraw) as (k & Hk & r' & Hr' & ->).
  apply lookup_seq in Hk as [-> Hlt]. now exists r'.
Qed.

(** The raw weights of a row and their divisor. *)
Lemma row_divisor (tokenList : list string) (i : nat) (r : source) :
  unit_interval r ->
  (i < List.length tokenList)%nat ->
  (Z.of_nat (List.length tokenList) < 2 ^ 32)%Z ->
  let raw := fst (rawRow tokenList i (seq 0 (List.length tokenList)) r) in
  Forall (fun w => 0 <= w /\ w <= 1) raw
  /\ 69 # 100 <= Qsum raw
  /\ Qsum raw <= 4294967296
  /\ 68 # 100 <= sumLeft raw
  /\ Qsum raw - (1 # 1000000) * Qsum raw - tiny <= sumLeft raw
  /\ sumLeft raw <= Qsum raw + (2 # 1000000) * Qsum raw + tiny.
Proof.
  intros Hr Hi Hn raw.
  destruct (rawRow_facts tokenList i (seq 0 (List.length tokenList)) r Hr)
    as (_ & Hlen & Hall & Hsum).
  fold raw in Hlen, Hall, Hsum. rewrite length_seq in Hlen.
  specialize (Hsum ltac:(apply in_seq; lia)).
  assert (Z.of_nat (List.length raw) < 2 ^ 32)%Z as Hn' by (now rewrite Hlen).
  destruct (divisor_near raw Hall Hsum Hn') as (Hd & Hlo & Hhi).
  pose proof (Qsum_le_length raw Hall) as Hle.
  pose proof (Qnat_le _ _ Hn') as Hq.
  change (inject_Z (2 ^ 32)) with 4294967296 in Hq.
  split; [exact Hall|]. split; [exact Hsum|]. split; [lra|].
  split; [exact Hd|]. split; assumption.
Qed.

(** X9.  In every row of the matrix the entry on the diagonal is a
    largest entry of the row: a token attends to itself at least as much
    as to any other token. *)
Theorem X9_diagonal_largest (tokenList : list string) (r : source)
        (i j : nat) (row : list Q) (w d : Q) :
  unit_interval r ->
  (Z.of_nat (List.length tokenList) < 2 ^ 32)%Z ->
  fst (generateAttentionWeights tokenList r) !! i = Some row ->
  row !! j = Some w -> row !! i = Some d ->
  w <= d.
Proof.
  intros Hr Hn Hrow Hw Hd.
  destruct (Nat.eq_dec j i) as [-> | Hne].
  { rewrite Hw in Hd. injection Hd as ->. apply Qle_refl. }
  destruct (attention_row tokenList r i row Hr Hrow) as (r' & Hr' & Hi & ->).
  destruct (row_divisor tokenList i r' Hr' Hi Hn)
    as (Hall & Hsum & Hmax & Hdiv & _ & Hhi).
  set (n := List.length tokenList) in *.
  pose proof (rawRow_range tokenList i (seq 0 n) r' Hr') as Hrange.
  set (raw := fst (rawRow tokenList i (seq 0 n) r')) in *.
  unfold codeRow in Hw, Hd. rewrite map_map in Hw, Hd.
  rewrite list_lookup_fmap in Hw, Hd.
  destruct (raw !! j) as [wj|] eqn:Hj; [|discriminate].
  destruct (raw !! i) as [wi|] eqn:Hii; [|discriminate].
  injection Hw as <-. injection Hd as <-.
  assert ((seq 0 n) !! j = Some j) as Hsj.
  { apply lookup_seq. split; [reflexivity|].
    apply lookup_lt_Some in Hj.
    rewrite <- (Forall2_length _ _ _ Hrange), length_seq in Hj. exact Hj. }
  assert ((seq 0 n) !! i = Some i) as Hsi by (now apply lookup_seq).
  destruct (Forall2_lookup_lr _ _ _ _ _ _ Hrange Hsj Hj)
    as (Hj0 & Hj1 & _ & Hjo).
  destruct (Forall2_lookup_lr _ _ _ _ _ _ Hrange Hsi Hii)
    as (Hi0 & Hi1 & Hid & _).
  specialize (Hid eq_refl). specialize (Hjo Hne).
  destruct (toFixed3_near wj) as (Haj0 & _ & Haj); [lra | lra |].
  destruct (toFixed3_near wi) as (Hai0 & Hai & Hai'); [lra | lra |].
  set (aj := Double.toFixed3 wj) in *. set (ai := Double.toFixed3 wi) in *.
  set (s := sumLeft raw) in *.
  assert (0 < / s) as Hinv by (apply Qinv_lt_0_compat; lra).
  assert (/ s <= 100 # 68) as Hinv' by (apply Qle_shift_inv_r; lra).
  assert (s * / s == 1) as Hone by (apply Qmult_inv_r; lra).
  unfold fdiv, Qdiv, tiny in *. set (v := / s) in *.
  assert (0 <= (5000000000 - s) * v) as Hp1
    by (apply Qmult_le_0_compat; lra).
  assert (0 <= (ai - aj - (27 # 100)) * v) as Hp2
    by (apply Qmult_le_0_compat; lra).
  assert (0 <= aj * v) as Hp3 by (apply Qmult_le_0_compat; lra).
  assert (0 <= (2 - ai) * v) as Hp4 by (apply Qmult_le_0_compat; lra).
  destruct (nearest_near (aj * v)) as (Hbj0 & _ & Hbj); [lra | nra |].
  destruct (nearest_near (ai * v)) as (Hbi0 & Hbi & Hbi'); [nra | nra |].
  unfold tiny in *.
  apply toFixed3_le; [exact Hbj0 | nra | nra].
Qed.

(** X10.  No entry of the matrix exceeds 1.001. *)
Theorem X10_entries_at_most (tokenList : list string) (r : source) :
  unit_interval r ->
  (Z.of_nat (List.length tokenList) < 2 ^ 32)%Z ->
  Forall (Forall (fun w => w <= lit 1.001))
         (fst (generateAttentionWeights tokenList r)).
Proof.
  intros Hr Hn. apply Forall_lookup. intros i row Hrow.
  destruct (attention_row tokenList r i row Hr Hrow) as (r' & Hr' & Hi & ->).
  destruct (row_divisor tokenList i r' Hr' Hi Hn)
    as (Hall & Hsum & _ & Hdiv & Hlo & _).
  set (raw := fst (rawRow tokenList i (seq 0 (List.length tokenList)) r')) in *.
  unfold codeRow. rewrite map_map.
  apply List.Forall_forall. intros e He.
  apply List.in_map_iff in He as [w [<- Hw]].
  pose proof (In_le_Qsum raw w (Forall_nonneg raw Hall) Hw) as Hle.
  rewrite List.Forall_forall in Hall. destruct (Hall w Hw) as [Hw0 Hw1].
  destruct (toFixed3_near w) as (Ha0 & _ & Ha); [lra | lra |].
  set (a := Double.toFixed3 w) in *. set (s := sumLeft raw) in *.
  assert (0 < / s) as Hinv by (apply Qinv_lt_0_compat; lra).
  assert (s * / s == 1) as Hone by (apply Qmult_inv_r; lra).
  unfold fdiv, Qdiv, tiny in *. set (v := / s) in *.
  assert (0 <= ((10008 # 10000) * s - a) * v) as Hp1
    by (apply Qmult_le_0_compat; lra).
  assert (0 <= a * v) as Hp2 by (apply Qmult_le_0_compat; lra).
  destruct (nearest_near (a * v)) as (Hb0 & _ & Hb); [lra | nra |].
  set (b := nearest (a * v)) in *. unfold tiny in *.
  assert (b <= 1001 # 1000) as Hb1 by nra.
  unfold Double.toFixed3.
  assert (Qle_bool 0 b = true) as -> by (now apply Qle_bool_iff).
  apply nearest_thousandths_le.
  - apply floor_half_nonneg. lra.
  - apply (Qfloor_resp_le (b * 1000 + (1 # 2)) (2003 # 2)). lra.
  - lia.
Qed.

(** The bound is reached: one token and a jitter of 0.0006 give the
    weight 0.7006, rounded to 0.701, and 0.701 / 0.7006 rounds to 1.001. *)
Lemma entry_above_one :
  fst (generateAttentionWeights ["a"] high) = [[lit 1.001]].
Proof. vm_compute. reflexivity. Qed.

Lemma attention_length (tokenList : list string) (r : source) :
  unit_interval r ->
  List.length (fst (generateAttentionWeights tokenList r))
  = List.length tokenList.
Proof.
  intros Hr. unfold generateAttentionWeights. rewrite matrixLoop_raw.
  cbn [fst app].
  destruct (rawRows_facts tokenList (seq 0 (List.length tokenList)) r Hr)
    as (_ & Hlen & _).
  { intros i Hi. apply in_seq in Hi. lia. }
  now rewrite length_map, Hlen, length_seq.
Qed.

(** The matrix is square, its entries are not negative and each row
    sums to 1 within 0.0013 per entry. *)
Lemma attention_stochastic (tokenList : list string) (r : source) :
  unit_interval r ->
  (Z.of_nat (List.length tokenList) < 2 ^ 32)%Z ->
  rowStochasticWithin ((13 # 10000) * Qnat (List.length tokenList))
                      (List.length tokenList)
                      (fst (generateAttentionWeights tokenList r)).
Proof.
  intros Hr Hn. unfold generateAttentionWeights. rewrite matrixLoop_raw.
  cbn [fst app].
  destruct (rawRows_facts tokenList (seq 0 (List.length tokenList)) r Hr)
    as (_ & Hlen & Hrows).
  { intros i Hi. apply in_seq in Hi. lia. }
  split; [now rewrite length_map, Hlen, length_seq|].
  apply List.Forall_forall. intros row Hrow.
  apply List.in_map_iff in Hrow as [raw [<- Hin]].
  rewrite List.Forall_forall in Hrows.
  destruct (Hrows raw Hin) as (Hlen' & Hpos & Hsum).
  rewrite <- Hlen' in Hn.
  destruct (codeRow_stochastic raw Hpos Hsum Hn) as (Hl & Hp & Hs).
  rewrite Hlen' in Hl, Hs. auto.
Qed.

End AttentionLaws.

(** ** The output generator, continued *)

Section OutputLaws.
Import JsString Num Random Pipeline Notions.
Local Open Scope Q_scope.

Lemma generateSimpleOutput_parts (currentStep : Z) (localeTime input : string)
      (t : string) (rest : list string) (em : list Token) (r : source) :
  generateSimpleOutput currentStep localeTime input (t :: rest) em r
  = bind (basePart localeTime input (t :: rest))
         (postProcess currentStep (List.length (t :: rest))) r.
Proof. reflexivity. Qed.

Lemma append_nonEmpty_l (a b : string) :
  a <> EmptyString -> (a ++ b)%string <> EmptyString.
Proof.
  destruct a as [|c a]; [congruence|]. intros _.
  rewrite append_cons. discriminate.
Qed.

Lemma continuation_nonEmpty (lastToken : string) (r : source) :
  fst (continuation lastToken r) <> EmptyString.
Proof.
  unfold continuation.
  repeat (destruct (String.eqb lastToken _); [cbn; discriminate|]).
  unfold bind, random, ret. cbn [fst].
  apply append_nonEmpty_l. discriminate.
Qed.

Lemma basePart_nonEmpty (localeTime input : string)
      (currentTokens : list string) (r : source) :
  fst (basePart localeTime input currentTokens r) <> EmptyString.
Proof.
  unfold basePart.
  destruct (includes _ "hello"); [cbn; discriminate|].
  destruct (includes _ "question"); [cbn; discriminate|].
  destruct (includes _ "name"); [cbn; discriminate|].
  destruct (includes _ "weather"); [cbn; discriminate|].
  destruct (includes _ "time").
  - unfold ret. cbn [fst]. apply append_nonEmpty_l. discriminate.
  - destruct (3 <? _)%nat; [apply continuation_nonEmpty | cbn; discriminate].
Qed.

Lemma postProcess_nonEmpty (currentStep : Z) (n : nat) (g : string)
      (r : source) :
  g <> EmptyString -> fst (postProcess currentStep n g r) <> EmptyString.
Proof.
  intros Hg. unfold postProcess.
  destruct (_ && _); [cbn; discriminate|].
  destruct (7 <? n)%nat; [|exact Hg].
  unfold bind, random, ret.
  destruct (Qltb _ _); cbn [fst]; [now apply append_nonEmpty_l | exact Hg].
Qed.

Lemma output_nonEmpty (currentStep : Z) (localeTime input : string)
      (currentTokens : list string) (em : list Token) (r : source) :
  fst (generateSimpleOutput currentStep localeTime input currentTokens em r)
  <> EmptyString.
Proof.
  destruct currentTokens as [|t rest]; [cbn; discriminate|].
  rewrite generateSimpleOutput_parts. unfold bind.
  pose proof (basePart_nonEmpty localeTime input (t :: rest) r) as Hbase.
  destruct (basePart localeTime input (t :: rest) r) as [g r1].
  now apply postProcess_nonEmpty.
Qed.

(** X11.  [generateSimpleOutput] never returns the empty string. *)
Theorem X11_output_nonEmpty (currentStep : Z) (localeTime input : string)
        (currentTokens : list string) (em : list Token) (r : source) :
  fst (generateSimpleOutput currentStep localeTime input currentTokens em r)
  <> EmptyString.
Proof. apply output_nonEmpty. Qed.

(** X12.  With one or two tokens at stage 4 the result is the message
    that the input is a bit short, whatever the input text says: this
    rule wins over every keyword. *)
Theorem X12_short_input_wins (localeTime input : string)
        (currentTokens : list string) (em : list Token) (r : source) :
  (0 < List.length currentTokens < 3)%nat ->
  fst (generateSimpleOutput 4 localeTime input currentTokens em r)
  = "Input is a bit short. Could you elaborate?".
Proof.
  intros [Hpos Hlt]. destruct currentTokens as [|t rest]; [cbn in Hpos; lia|].
  rewrite generateSimpleOutput_parts. unfold bind.
  destruct (basePart localeTime input (t :: rest) r) as [g r1].
  unfold postProcess.
  assert ((List.length (t :: rest) <? 3)%nat = true) as ->
      by (now apply Nat.ltb_lt).
  reflexivity.
Qed.





(** With 3 to 7 tokens the keywords are served in the order
    hello, question, name, weather, time: the first of them that the
    lower-cased input contains decides the reply, whatever the tokens
    are. *)
Lemma keyword_order (currentStep : Z) (localeTime input : string)
        (currentTokens : list string) (em : list Token) (r : source) :
  (3 <= List.length currentTokens <= 7)%nat ->
  let has k := includes (toLowerCase input) k in
  let result :=
    fst (generateSimpleOutput currentStep localeTime input currentTokens
           em r) in
  (has "hello" = true -> result = "Hey there! How can I assist you today?")
  /\ (has "hello" = false -> has "question" = true ->
      result = "I'm ready to answer your question!")
  /\ (has "hello" = false -> has "question" = false -> has "name" = false ->
      has "weather" = true ->
      result = "The weather is simulated to be sunny.")
  /\ (has "hello" = false -> has "question" = false -> has "name" = false ->
      has "weather" = false -> has "time" = true ->
      result = ("It's currently " ++ localeTime ++ " here.")%string).
Proof.
  intros [Hlo Hhi]. cbv zeta.
  destruct currentTokens as [|t rest]; [cbn in Hlo; lia|].
  rewrite generateSimpleOutput_parts. unfold bind, basePart, postProcess.
  assert ((List.length (t :: rest) <? 3)%nat = false) as Hshort
      by (apply Nat.ltb_ge; lia).
  assert ((7 <? List.length (t :: rest))%nat = false) as Hlong
      by (apply Nat.ltb_ge; lia).
  repeat split; intros;
    repeat match goal with
           | H : includes _ _ = _ |- _ => rewrite H; clear H
           end;
    unfold ret; cbn [fst snd]; rewrite Hshort, Hlong; reflexivity.
Qed.

(** X14.  With at most 7 tokens, the result does not depend on the
    random numbers when a keyword is present, or there are at most 3
    tokens, or the last token is a case of the [switch]. *)
Theorem X14_output_without_chance (currentStep : Z)
        (localeTime input : string) (currentTokens : list string)
        (em : list Token) (r r' : source) :
  (List.length currentTokens <= 7)%nat ->
  ~ noKeyword input
  \/ (List.length currentTokens <= 3)%nat
  \/ In (at_ currentTokens (List.length currentTokens - 1)) lexicon ->
  fst (generateSimpleOutput currentStep localeTime input currentTokens em r)
  = fst (generateSimpleOutput currentStep localeTime input currentTokens em r').
Proof.
  intros Hhi Hcase. destruct currentTokens as [|t rest]; [reflexivity|].
  rewrite !generateSimpleOutput_parts.
  assert (forall g r1 r2,
             fst (postProcess currentStep (List.length (t :: rest)) g r1)
             = fst (postProcess currentStep (List.length (t :: rest)) g r2))
    as Hpost.
  { intros g r1 r2. unfold postProcess.
    assert ((7 <? List.length (t :: rest))%nat = false) as ->
        by (apply Nat.ltb_ge; lia).
    now destruct (_ && _). }
  assert (fst (basePart localeTime input (t :: rest) r)
          = fst (basePart localeTime input (t :: rest) r')) as Hbase.
  { unfold basePart.
    destruct (includes _ "hello") eqn:E1; [reflexivity|].
    destruct (includes _ "question") eqn:E2; [reflexivity|].
    destruct (includes _ "name") eqn:E3; [reflexivity|].
    destruct (includes _ "weather") eqn:E4; [reflexivity|].
    destruct (includes _ "time") eqn:E5; [reflexivity|].
    destruct (3 <? List.length (t :: rest))%nat eqn:E6; [|reflexivity].
    destruct Hcase as [Hkw | [Hle | Hin]].
    - exfalso. apply Hkw. unfold noKeyword, keywords.
      repeat (constructor; [assumption|]). constructor.
    - apply Nat.ltb_lt in E6. lia.
    - unfold lexicon in Hin. cbn [In] in Hin.
      decompose [or] Hin; try contradiction;
        match goal with H : _ = at_ _ _ |- _ => rewrite <- H end;
        reflexivity. }
  unfold bind.
  destruct (basePart localeTime input (t :: rest) r) as [g r1].
  destruct (basePart localeTime input (t :: rest) r') as [g' r1'].
  cbn [fst] in Hbase. subst g'. apply Hpost.
Qed.

End OutputLaws.

(** ** The stage controller, continued *)

Section ControllerLaws.
Import Random Pipeline Controller Markup.
Context `{MathLib}.

Lemma recompute_speed (h : Host) (s : State) :
  animationSpeed (recompute h s) = animationSpeed s.
Proof.
  unfold recompute.
  destruct (if (3 <=? currentStep s)%Z then _ else _) as [aw r1].
  destruct (if (4 <=? currentStep s)%Z then _ else _) as [out r2].
  reflexivity.
Qed.

Lemma sameTimerDeps_speed (a b : State) :
  sameTimerDeps a b = true -> animationSpeed b = animationSpeed a.
Proof.
  unfold sameTimerDeps. intros Hd. apply andb_prop in Hd as [_ Hs].
  apply Z.eqb_eq in Hs. auto.
Qed.

(** What the first effect does to the state. *)
Lemma timerEffect_fields (s : State) :
  let s' := timerEffect (timerCleanup s) in
  currentStep s' = currentStep s
  /\ animationSpeed s' = animationSpeed s
  /\ isPlaying s' = isPlaying s && negb (currentStep s =? lastStep)%Z
  /\ timer s' = (if isPlaying s && (currentStep s <? lastStep)%Z
                then Some (animationSpeed s) else None).
Proof.
  unfold timerEffect, timerCleanup, lastStep. cbn.
  destruct (isPlaying s) eqn:Hp; cbn.
  - destruct (currentStep s <? 4)%Z eqn:Hlt; cbn.
    + apply Z.ltb_lt in Hlt.
      assert ((currentStep s =? 4)%Z = false) as -> by (apply Z.eqb_neq; lia).
      now rewrite Hp.
    + destruct (currentStep s =? 4)%Z; cbn; now rewrite ?Hp.
  - destruct (currentStep s =? 4)%Z; cbn; now rewrite ?Hp.
Qed.

Lemma timerEffect_settled (s : State) : settled (timerEffect (timerCleanup s)).
Proof.
  destruct (timerEffect_fields s) as (Hc & Hs & Hp & Ht).
  unfold settled. rewrite Ht, Hp, Hc, Hs. unfold lastStep. split.
  - destruct (isPlaying s); [|reflexivity]. cbn [andb].
    destruct (currentStep s <? 4)%Z eqn:Hlt; [|now rewrite andb_false_r].
    apply Z.ltb_lt in Hlt.
    assert ((currentStep s =? 4)%Z = false) as -> by (apply Z.eqb_neq; lia).
    reflexivity.
  - intros ->. cbn. apply andb_false_r.
Qed.

Lemma recompute_settled (h : Host) (s : State) :
  settled s -> settled (recompute h s).
Proof.
  unfold settled.
  destruct (recompute_state h s) as (-> & -> & _ & _ & ->).
  now rewrite recompute_speed.
Qed.

Lemma effectsPass_settled (h : Host) (prev cur : State) :
  (sameTimerDeps prev cur = true -> settled cur) ->
  settled (effectsPass h prev cur).
Proof.
  intros Hcur. unfold effectsPass.
  assert (settled (if sameTimerDeps prev cur then cur
                   else timerEffect (timerCleanup cur))) as H1.
  { destruct (sameTimerDeps prev cur); [now apply Hcur|].
    apply timerEffect_settled. }
  destruct (sameRecomputeDeps prev cur); [exact H1|].
  now apply recompute_settled.
Qed.

Lemma commit_settled (h : Host) (prev next : State) :
  (sameTimerDeps prev next = true -> settled next) ->
  settled (commit h prev next).
Proof.
  intros Hnext. unfold commit.
  pose proof (effectsPass_settled h prev next Hnext) as H1.
  destruct (Bool.eqb _ _); [exact H1|].
  apply effectsPass_settled. intros _. exact H1.
Qed.

(** A handler that leaves the dependencies of the first effect alone
    leaves the time-out alone. *)
Lemma handle_timer_same (e : Event) (s : State) :
  sameTimerDeps s (handle e s) = true -> timer (handle e s) = timer s.
Proof.
  destruct e; cbn; try (intros _; reflexivity).
  - unfold handlePlay. destruct (negb _ && _); intros _; reflexivity.
  - unfold timerCallback. destruct (timer s) eqn:Ht; [|now rewrite Ht].
    unfold sameTimerDeps. cbn. intros Hd.
    apply andb_prop in Hd as [Hd _]. apply andb_prop in Hd as [Hd _].
    apply Z.eqb_eq in Hd. lia.
Qed.

Lemma step_settled (h : Host) (e : Event) (s : State) :
  settled s -> settled (step h e s).
Proof.
  intros [Ht Hstop]. unfold step. apply commit_settled. intros Hd.
  pose proof (handle_timer_same e s Hd) as Hsame.
  pose proof (sameTimerDeps_speed _ _ Hd) as Hspeed.
  apply sameTimerDeps_eq in Hd as [Hc Hp].
  unfold settled. now rewrite Hsame, Hc, Hp, Hspeed.
Qed.

Lemma mount_settled (h : Host) : settled (mount h).
Proof.
  unfold mount.
  assert (settled (recompute h (timerEffect initialState))) as H1.
  { apply recompute_settled. split; [reflexivity | discriminate]. }
  destruct (Bool.eqb _ _); [exact H1|].
  apply effectsPass_settled. intros _. exact H1.
Qed.

Lemma reachable_settled (s : State) : reachable s -> settled s.
Proof.
  induction 1 as [h _ | h e s _ _ IH]; [apply mount_settled|].
  now apply step_settled.
Qed.

Lemma reachable_gated (s : State) : reachable s -> gated s.
Proof.
  induction 1 as [h _ | h e s _ _ IH]; [apply mount_gated|].
  now apply step_gated.
Qed.

(** X15.  In every reachable state a time-out is pending exactly while
    the walk-through plays below stage 4, and its delay is the current
    tick interval; at stage 4 the walk-through does not play. *)
Theorem X15_timer_follows_state (s : State) :
  reachable s ->
  timer s = (if isPlaying s && (currentStep s <? 4)%Z
             then Some (animationSpeed s) else None)
  /\ (currentStep s = 4%Z -> isPlaying s = false).
Proof. intros Hs. exact (reachable_settled s Hs). Qed.

(** What one pass of the effects does to the cells that the handlers
    set. *)
Lemma effectsPass_fields (h : Host) (prev cur : State) :
  let s' := effectsPass h prev cur in
  currentStep s' = currentStep cur
  /\ inputText s' = inputText cur
  /\ embeddingDimension s' = embeddingDimension cur
  /\ animationSpeed s' = animationSpeed cur
  /\ isPlaying s'
     = (if sameTimerDeps prev cur then isPlaying cur
        else isPlaying cur && negb (currentStep cur =? lastStep)%Z).
Proof.
  cbv zeta. unfold effectsPass.
  destruct (timerEffect_fields cur) as (Hc & Hs & Hp & _).
  destruct (timerEffect_state cur) as (_ & Htxt & Hdim & _).
  destruct (sameTimerDeps prev cur), (sameRecomputeDeps prev cur);
    repeat match goal with
           | |- context [recompute ?h ?s] =>
               rewrite (recompute_speed h s);
               destruct (recompute_state h s) as (-> & -> & -> & -> & _)
           end; auto 10.
Qed.

(** What an event does to the cells that the handlers set, from a
    settled state: the effects change none of them, except that they
    stop the walk-through at stage 4. *)
Lemma step_fields (h : Host) (e : Event) (s : State) :
  settled s ->
  currentStep (step h e s) = currentStep (handle e s)
  /\ inputText (step h e s) = inputText (handle e s)
  /\ embeddingDimension (step h e s) = embeddingDimension (handle e s)
  /\ animationSpeed (step h e s) = animationSpeed (handle e s)
  /\ isPlaying (step h e s)
     = isPlaying (handle e s) && negb (currentStep (handle e s) =? 4)%Z.
Proof.
  intros [_ Hstop]. unfold step, commit.
  set (next := handle e s).
  destruct (effectsPass_fields h s next) as (Hc & Htxt & Hdim & Hsp & Hp).
  set (s1 := effectsPass h s next) in *.
  assert (isPlaying s1
          = isPlaying next && negb (currentStep next =? 4)%Z) as Hp1.
  { rewrite Hp. destruct (sameTimerDeps s next) eqn:Hd; [|reflexivity].
    apply sameTimerDeps_eq in Hd as [Hc' Hp'].
    destruct (currentStep next =? 4)%Z eqn:E4; [|now rewrite andb_true_r].
    apply Z.eqb_eq in E4. rewrite Hp', Hstop by (unfold lastStep; lia).
    reflexivity. }
  destruct (Bool.eqb (isPlaying s1) (isPlaying next)) eqn:Heq.
  - auto 10.
  - destruct (effectsPass_fields h next s1) as (Hc2 & Ht2 & Hd2 & Hs2 & Hp2).
    rewrite Hc2, Ht2, Hd2, Hs2, Hp2, Hc, Htxt, Hdim, Hsp.
    repeat split; try reflexivity.
    apply Bool.eqb_false_iff in Heq.
    assert (isPlaying s1 = false) as Hoff.
    { rewrite Hp1 in *. destruct (isPlaying next); [|reflexivity].
      destruct (negb _); cbn in *; [congruence | reflexivity]. }
    rewrite <- Hp1, Hoff. now destruct (sameTimerDeps next s1).
Qed.

(** Without a change of the text, the stage or the dimension the third
    effect does not run, and the artifacts stay as they are. *)
Lemma effectsPass_kept (h : Host) (prev cur : State) :
  sameRecomputeDeps prev cur = true ->
  tokens (effectsPass h prev cur) = tokens cur
  /\ embeddings (effectsPass h prev cur) = embeddings cur
  /\ attentionWeights (effectsPass h prev cur) = attentionWeights cur
  /\ output (effectsPass h prev cur) = output cur.
Proof.
  intros Hd. unfold effectsPass. rewrite Hd.
  destruct (sameTimerDeps prev cur); [auto|].
  destruct (timerEffect_state cur) as (_ & _ & _ & -> & -> & -> & ->). auto.
Qed.

Lemma sameRecomputeDeps_intro (a b : State) :
  inputText b = inputText a -> currentStep b = currentStep a ->
  embeddingDimension b = embeddingDimension a ->
  sameRecomputeDeps a b = true.
Proof.
  intros Ht Hc Hd. unfold sameRecomputeDeps. rewrite Ht, Hc, Hd.
  now rewrite !Z.eqb_refl, String.eqb_refl.
Qed.

Lemma step_kept (h : Host) (e : Event) (s : State) :
  sameRecomputeDeps s (handle e s) = true ->
  tokens (step h e s) = tokens s
  /\ embeddings (step h e s) = embeddings s
  /\ attentionWeights (step h e s) = attentionWeights s
  /\ output (step h e s) = output s.
Proof.
  intros Hd. unfold step, commit.
  destruct (effectsPass_kept h s (handle e s) Hd) as (Ht & He & Ha & Ho).
  destruct (handle_artifacts e s) as (Ht' & He' & Ha' & Ho').
  destruct (Bool.eqb _ _).
  - rewrite Ht, He, Ha, Ho. auto.
  - destruct (effectsPass_fields h s (handle e s)) as (Hc & Htxt & Hdim & _).
    destruct (effectsPass_kept h (handle e s) (effectsPass h s (handle e s)))
      as (-> & -> & -> & ->); [now apply sameRecomputeDeps_intro|].
    rewrite Ht, He, Ha, Ho. auto.
Qed.

Lemma state_ext (a b : State) :
  currentStep a = currentStep b -> isPlaying a = isPlaying b ->
  inputText a = inputText b -> tokens a = tokens b ->
  embeddings a = embeddings b -> attentionWeights a = attentionWeights b ->
  output a = output b -> animationSpeed a = animationSpeed b ->
  embeddingDimension a = embeddingDimension b -> timer a = timer b ->
  a = b.
Proof. destruct a, b. cbn. congruence. Qed.

(** An event whose handler sets stage 0, from a reachable state. *)
Lemma step_to_stage0 (h : Host) (e : Event) (s : State) :
  settled s -> gated s -> currentStep (handle e s) = 0%Z ->
  step h e s
  = {| currentStep := 0; isPlaying := isPlaying (handle e s);
       inputText := inputText (handle e s);
       tokens := tokenizeText (inputText (handle e s));
       embeddings := []; attentionWeights := []; output := "";
       animationSpeed := animationSpeed (handle e s);
       embeddingDimension := embeddingDimension (handle e s);
       timer := if isPlaying (handle e s)
                then Some (animationSpeed (handle e s)) else None |}.
Proof.
  intros Hset Hgat H0.
  destruct (step_fields h e s Hset) as (Hc & Htxt & Hdim & Hsp & Hp).
  rewrite H0 in Hc, Hp. cbn in Hp. rewrite andb_true_r in Hp.
  destruct (step_settled h e s Hset) as [Ht _].
  destruct (step_gated h e s Hgat) as (Htok & Hem & _ & Haw & Hout).
  rewrite Hc, Hp, Hsp in Ht. cbn in Ht. rewrite andb_true_r in Ht.
  apply state_ext; cbn; try assumption.
  - now rewrite Htok, Htxt.
  - apply Hem. lia.
  - apply Haw. lia.
  - apply Hout. lia.
Qed.

(** X16.  Replay: at stage 4, where the walk-through has stopped, the
    play button goes back to stage 0 and plays; the time-out is
    scheduled with the current tick interval, the tokens stay, and the
    embeddings, the matrix and the output are cleared. *)
Theorem X16_replay (h : Host) (s : State) :
  reachable s -> currentStep s = 4%Z ->
  step h PlayClick s
  = {| currentStep := 0; isPlaying := true; inputText := inputText s;
       tokens := tokens s; embeddings := []; attentionWeights := [];
       output := ""; animationSpeed := animationSpeed s;
       embeddingDimension := embeddingDimension s;
       timer := Some (animationSpeed s) |}.
Proof.
  intros Hs H4. pose proof (reachable_settled s Hs) as Hset.
  pose proof (reachable_gated s Hs) as Hgat.
  assert (isPlaying s = false) as Hoff by (now apply Hset).
  assert (handle PlayClick s = setIsPlaying true (setCurrentStep 0 s)) as Hh.
  { cbn. unfold handlePlay, lastStep. rewrite Hoff, H4. reflexivity. }
  rewrite (step_to_stage0 h PlayClick s Hset Hgat) by (now rewrite Hh).
  rewrite Hh. destruct Hgat as (Htok & _). rewrite Htok. reflexivity.
Qed.

(** X17.  The firing of the pending time-out moves the stage on by one
    and changes neither the text nor the two parameters; the
    walk-through goes on playing unless the stage reached is 4. *)
Theorem X17_timer_advances (h : Host) (s : State) (d : Z) :
  reachable s -> timer s = Some d ->
  currentStep (step h TimerFire s) = (currentStep s + 1)%Z
  /\ isPlaying (step h TimerFire s) = negb (currentStep s + 1 =? 4)%Z
  /\ inputText (step h TimerFire s) = inputText s
  /\ animationSpeed (step h TimerFire s) = animationSpeed s
  /\ embeddingDimension (step h TimerFire s) = embeddingDimension s.
Proof.
  intros Hs Ht. pose proof (reachable_settled s Hs) as Hset.
  destruct (step_fields h TimerFire s Hset) as (Hc & Htxt & Hdim & Hsp & Hp).
  assert (isPlaying s = true) as Hon.
  { destruct Hset as [Hf _]. rewrite Ht in Hf.
    destruct (isPlaying s); [reflexivity | discriminate]. }
  cbn [handle] in *. unfold timerCallback in *. rewrite Ht in *. cbn in *.
  rewrite Hon in Hp. auto.
Qed.

Lemma settled_pending (s : State) :
  settled s -> isPlaying s = true -> (currentStep s < 4)%Z ->
  timer s = Some (animationSpeed s).
Proof.
  intros [Hf _] Hon Hlt. rewrite Hf, Hon. unfold lastStep.
  now apply Z.ltb_lt in Hlt as ->.
Qed.

Lemma play_through (h : Host) (k : nat) (s : State) :
  settled s -> isPlaying s = true ->
  (currentStep s + Z.of_nat k = 4)%Z ->
  let s' := run h (repeat TimerFire k) s in
  currentStep s' = 4%Z /\ isPlaying s' = false /\ timer s' = None.
Proof.
  revert s; induction k as [|k IH]; intros s Hset Hon Hk.
  - destruct Hset as [_ Hstop].
    rewrite Hstop in Hon by (unfold lastStep; lia). discriminate.
  - cbn [repeat run]. cbv zeta.
    pose proof (settled_pending s Hset Hon ltac:(lia)) as Ht.
    destruct (step_fields h TimerFire s Hset) as (Hc & _ & _ & _ & Hp).
    pose proof (step_settled h TimerFire s Hset) as Hset1.
    cbn [handle] in Hc, Hp. unfold timerCallback in Hc, Hp.
    rewrite Ht in Hc, Hp. cbn in Hc, Hp. rewrite Hon in Hp.
    destruct k as [|k].
    + cbn [repeat run].
      assert (currentStep (step h TimerFire s) = 4%Z) as H4 by lia.
      destruct Hset1 as [Hf Hstop].
      split; [exact H4 | split; [apply Hstop; exact H4|]].
      rewrite Hf, (Hstop H4). reflexivity.
    + apply IH; [exact Hset1 | | lia].
      rewrite Hp. apply negb_true_iff, Z.eqb_neq. lia.
Qed.

(** X18.  Left alone, a playing walk-through arrives: from a reachable
    state that plays at a stage below 4, once the time-out has fired as
    many times as there are stages left, the stage is 4, the
    walk-through has stopped and no time-out is pending. *)
Theorem X18_play_reaches_end (h : Host) (s : State) :
  reachable s -> isPlaying s = true -> (currentStep s <= 4)%Z ->
  let s' := run h (repeat TimerFire (Z.to_nat (4 - currentStep s))) s in
  currentStep s' = 4%Z /\ isPlaying s' = false /\ timer s' = None.
Proof.
  intros Hs Hon Hle. apply play_through; [now apply reachable_settled | exact Hon |].
  lia.
Qed.

Lemma markup_reachable (s : State) : reachableByMarkup s -> reachable s.
Proof.
  induction 1 as [h Hh | h e s Hh _ _ IH];
    [now apply reach_mount | now apply reach_step].
Qed.

Lemma mount_fields (h : Host) :
  currentStep (mount h) = 0%Z /\ animationSpeed (mount h) = 2000%Z
  /\ embeddingDimension (mount h) = 8%Z.
Proof.
  unfold mount.
  set (s0 := timerEffect initialState).
  assert (currentStep (recompute h s0) = 0%Z
          /\ animationSpeed (recompute h s0) = 2000%Z
          /\ embeddingDimension (recompute h s0) = 8%Z
          /\ isPlaying (recompute h s0) = false) as (Hc & Hs & Hd & Hp).
  { rewrite recompute_speed.
    destruct (recompute_state h s0) as (-> & -> & _ & -> & _). auto. }
  rewrite Hp. cbn [Bool.eqb isPlaying initialState]. auto.
Qed.

(** X19.  Under the events that the markup can send (a step button
    sends an index from 0 to 4, the range inputs a value within their
    bounds) the stage stays between 0 and 4, the tick interval between
    500 and 3000 and the dimension between 4 and 20. *)
Theorem X19_markup_bounds (s : State) :
  reachableByMarkup s ->
  (0 <= currentStep s <= 4)%Z
  /\ (500 <= animationSpeed s <= 3000)%Z
  /\ (4 <= embeddingDimension s <= 20)%Z.
Proof.
  induction 1 as [h _ | h e s _ He Hs IH].
  - destruct (mount_fields h) as (-> & -> & ->). lia.
  - pose proof (reachable_settled s (markup_reachable s Hs)) as Hset.
    destruct (step_fields h e s Hset) as (-> & _ & -> & -> & _).
    destruct IH as (Hc & Hsp & Hdim).
    destruct e; cbn in *; try lia.
    + unfold handlePlay. destruct (negb _ && _); cbn; lia.
    + unfold timerCallback. destruct (timer s) as [d|] eqn:Ht; cbn; [|lia].
      destruct Hset as [Hf _]. rewrite Ht in Hf.
      destruct (isPlaying s && (currentStep s <? lastStep)%Z) eqn:E;
        [|discriminate].
      apply andb_prop in E as [_ E]. apply Z.ltb_lt in E.
      unfold lastStep in E. lia.
Qed.

(** X20.  Reset: from every reachable state the reset button leads to
    the state of the first render, but for the tick interval and the
    dimension, which it keeps. *)
Theorem X20_reset_restores (h : Host) (s : State) :
  reachable s ->
  step h ResetClick s
  = {| currentStep := 0; isPlaying := false;
       inputText := "The quick brown fox";
       tokens := ["the"; "quick"; "brown"; "fox"];
       embeddings := []; attentionWeights := []; output := "";
       animationSpeed := animationSpeed s;
       embeddingDimension := embeddingDimension s;
       timer := None |}.
Proof.
  intros Hs.
  rewrite (step_to_stage0 h ResetClick s (reachable_settled s Hs)
             (reachable_gated s Hs)) by reflexivity.
  reflexivity.
Qed.

(** X21.  Editing the text restarts the walk-through: the state after
    the edit is at stage 0, stopped, with no time-out pending, with the
    tokens of the new text and nothing else computed. *)
Theorem X21_edit_restarts (h : Host) (s : State) (value : string) :
  reachable s ->
  step h (InputChange value) s
  = {| currentStep := 0; isPlaying := false; inputText := value;
       tokens := tokenizeText value;
       embeddings := []; attentionWeights := []; output := "";
       animationSpeed := animationSpeed s;
       embeddingDimension := embeddingDimension s;
       timer := None |}.
Proof.
  intros Hs.
  rewrite (step_to_stage0 h (InputChange value) s (reachable_settled s Hs)
             (reachable_gated s Hs)) by reflexivity.
  reflexivity.
Qed.

(** X22.  A change of the tick interval changes the interval and the
    delay of the pending time-out, if there is one, and nothing else:
    the stage, the play flag and every artifact stay, the matrix and the
    output are not drawn again. *)
Theorem X22_speed_only (h : Host) (s : State) (value : Z) :
  reachable s ->
  step h (SpeedChange value) s
  = setTimer (if isPlaying s && (currentStep s <? 4)%Z
              then Some value else None)
             (setAnimationSpeed value s).
Proof.
  intros Hs. pose proof (reachable_settled s Hs) as Hset.
  destruct (step_fields h (SpeedChange value) s Hset)
    as (Hc & Htxt & Hdim & Hsp & Hp).
  destruct (step_kept h (SpeedChange value) s) as (Ht & He & Ha & Ho).
  { now apply sameRecomputeDeps_intro. }
  destruct (step_settled h (SpeedChange value) s Hset) as [Hf _].
  cbn [handle] in *. unfold handleSpeedChange in *. cbn in *.
  assert (isPlaying s && negb (currentStep s =? 4)%Z = isPlaying s) as Hsame.
  { destruct (currentStep s =? 4)%Z eqn:E4; [|apply andb_true_r].
    apply Z.eqb_eq in E4. destruct Hset as [_ Hstop].
    now rewrite Hstop. }
  rewrite Hsame in Hp. rewrite Hc, Hp, Hsp in Hf.
  now apply state_ext.
Qed.

(** X23.  A change of the dimension keeps the stage, the play flag, the
    text and the tokens; from stage 2 on the embeddings are made again
    at once with the new dimension, each vector with as many
    coordinates. *)
Theorem X23_dimension_applies (h : Host) (s : State) (value : Z) :
  reachable s ->
  let s' := step h (DimensionChange value) s in
  currentStep s' = currentStep s
  /\ isPlaying s' = isPlaying s
  /\ inputText s' = inputText s
  /\ tokens s' = tokens s
  /\ embeddingDimension s' = value
  /\ embeddings s'
     = (if (2 <=? currentStep s)%Z then generateEmbeddings (tokens s) value
        else [])
  /\ Forall (fun e => List.length (vector e) = Z.to_nat value)
            (embeddings s').
Proof.
  intros Hs. cbv zeta. pose proof (reachable_settled s Hs) as Hset.
  pose proof (reachable_gated s Hs) as Hgat.
  destruct (step_fields h (DimensionChange value) s Hset)
    as (Hc & Htxt & Hdim & _ & Hp).
  destruct (step_gated h (DimensionChange value) s Hgat)
    as (Htok & Hlow & Hhigh & _).
  cbn [handle] in *. unfold handleEmbeddingDimensionChange in *. cbn in *.
  assert (isPlaying s && negb (currentStep s =? 4)%Z = isPlaying s) as Hsame.
  { destruct (currentStep s =? 4)%Z eqn:E4; [|apply andb_true_r].
    apply Z.eqb_eq in E4. destruct Hset as [_ Hstop].
    now rewrite Hstop. }
  rewrite Hsame in Hp. destruct Hgat as (Htok0 & _).
  rewrite Hc in Hlow, Hhigh. rewrite Htxt, <- Htok0 in Htok.
  rewrite Hdim, Htok in Hhigh.
  assert (embeddings (step h (DimensionChange value) s)
          = (if (2 <=? currentStep s)%Z
             then generateEmbeddings (tokens s) value else [])) as Hem.
  { destruct (2 <=? currentStep s)%Z eqn:E2.
    - apply Hhigh. now apply Z.leb_le.
    - apply Hlow. apply Z.leb_gt in E2. lia. }
  repeat (split; [assumption|]). rewrite Hem.
  destruct (2 <=? currentStep s)%Z; [|constructor].
  rewrite generateEmbeddings_map. apply List.Forall_forall. intros e He.
  apply List.in_map_iff in He as [t [<- _]]. apply embedVector_length.
Qed.

Lemma recompute_artifacts (h : Host) (s : State) :
  tokens (recompute h s) = tokenizeText (inputText s)
  /\ attentionWeights (recompute h s)
     = (if (3 <=? currentStep s)%Z
        then fst (generateAttentionWeights (tokenizeText (inputText s)) (rnd h))
        else [])
  /\ ((4 <= currentStep s)%Z ->
      exists r,
        output (recompute h s)
        = fst (generateSimpleOutput (currentStep s) (localeTime h)
                 (inputText s) (tokenizeText (inputText s)) (embeddings s) r)).
Proof.
  unfold recompute.
  destruct (3 <=? currentStep s)%Z.
  - destruct (generateAttentionWeights _ _) as [aw r1]. cbn [fst].
    destruct (4 <=? currentStep s)%Z eqn:E4.
    + destruct (generateSimpleOutput _ _ _ _ _ r1) as [out r2] eqn:Eo.
      cbn. repeat split. intros _. exists r1. now rewrite Eo.
    + cbn. repeat split. intros H4. apply Z.leb_gt in E4. lia.
  - destruct (4 <=? currentStep s)%Z eqn:E4.
    + destruct (generateSimpleOutput _ _ _ _ _ (rnd h)) as [out r2] eqn:Eo.
      cbn. repeat split. intros _. exists (rnd h). now rewrite Eo.
    + cbn. repeat split. intros H4. apply Z.leb_gt in E4. lia.
Qed.

Lemma recompute_produced (h : Host) (s : State) :
  unit_interval (rnd h) -> produced (recompute h s).
Proof.
  intros Hr. destruct (recompute_artifacts h s) as (Htok & Haw & Hout).
  destruct (recompute_state h s) as (Hc & _ & Htxt & _).
  unfold produced. rewrite Hc, Htxt, Htok, Haw. split.
  - intros H3. apply Z.leb_le in H3. rewrite H3. now exists (rnd h).
  - intros H4. destruct (Hout H4) as [r Hr1].
    now exists (localeTime h), (embeddings s), r.
Qed.

Lemma produced_transfer (a b : State) :
  produced a ->
  currentStep b = currentStep a -> inputText b = inputText a ->
  tokens b = tokens a -> attentionWeights b = attentionWeights a ->
  output b = output a ->
  produced b.
Proof.
  unfold produced. intros Ha -> -> -> -> ->. exact Ha.
Qed.

Lemma effectsPass_produced (h : Host) (prev cur : State) :
  unit_interval (rnd h) ->
  (sameRecomputeDeps prev cur = true -> produced cur) ->
  produced (effectsPass h prev cur).
Proof.
  intros Hr Hcur. unfold effectsPass.
  destruct (sameRecomputeDeps prev cur); [|now apply recompute_produced].
  specialize (Hcur eq_refl).
  destruct (sameTimerDeps prev cur); [exact Hcur|].
  destruct (timerEffect_state cur) as (? & ? & ? & ? & ? & ? & ?).
  now apply (produced_transfer cur).
Qed.

Lemma step_produced (h : Host) (e : Event) (s : State) :
  unit_interval (rnd h) -> produced s -> produced (step h e s).
Proof.
  intros Hr Hs. unfold step, commit.
  assert (produced (effectsPass h s (handle e s))) as H1.
  { apply effectsPass_produced; [exact Hr|]. intros Hd.
    apply sameRecomputeDeps_eq in Hd as (Htxt & Hstep & _).
    destruct (handle_artifacts e s) as (? & ? & ? & ?).
    now apply (produced_transfer s). }
  destruct (Bool.eqb _ _); [exact H1|].
  apply effectsPass_produced; [exact Hr|]. intros _. exact H1.
Qed.

Lemma mount_produced (h : Host) : unit_interval (rnd h) -> produced (mount h).
Proof.
  intros Hr. unfold mount.
  pose proof (recompute_produced h (timerEffect initialState) Hr) as H1.
  destruct (Bool.eqb _ _); [exact H1|].
  apply effectsPass_produced; [exact Hr|]. intros _. exact H1.
Qed.

Lemma reachable_produced (s : State) : reachable s -> produced s.
Proof.
  induction 1 as [h Hr | h e s Hr _ IH]; [now apply mount_produced|].
  now apply step_produced.
Qed.

(** X24.  The output panel shows its placeholder exactly below stage 4:
    in every reachable state the output is empty below stage 4 and is
    not empty from stage 4 on, where the panel shows it. *)
Theorem X24_output_shown (s : State) :
  reachable s ->
  ((currentStep s < 4)%Z -> shownOutput s = outputPlaceholder)
  /\ ((4 <= currentStep s)%Z ->
      output s <> EmptyString /\ shownOutput s = output s).
Proof.
  intros Hs. split.
  - intros Hlt. destruct (reachable_gated s Hs) as (_ & _ & _ & _ & Hout).
    unfold shownOutput. now rewrite (Hout Hlt).
  - intros Hge. destruct (reachable_produced s Hs) as [_ Hout].
    destruct (Hout Hge) as (time & em & r & Heq).
    assert (output s <> EmptyString) as Hne
        by (rewrite Heq; apply output_nonEmpty).
    split; [exact Hne|]. unfold shownOutput.
    destruct (output s); [congruence | reflexivity].
Qed.

(** X25.  Whenever the attention panel is shown (stage 3 or later), the
    matrix has one row per token, so that every row of the table has its
    token as label; and for fewer than 2^32 tokens it has one column per
    token, its entries are not negative and each row sums to 1 within
    0.0013 per token. *)
Theorem X25_attention_table (s : State) :
  reachable s -> attentionPanelShown s = true ->
  (forall i, (i < List.length (attentionWeights s))%nat ->
             exists label, rowLabel s i = Some label)
  /\ ((Z.of_nat (List.length (tokens s)) < 2 ^ 32)%Z ->
      Spec.rowStochasticWithin
        ((13 # 10000) * Num.Qnat (List.length (tokens s)))%Q
        (List.length (tokens s)) (attentionWeights s)).
Proof.
  intros Hs Hshown. unfold attentionPanelShown in Hshown.
  apply Z.leb_le in Hshown.
  destruct (reachable_produced s Hs) as [Haw _].
  destruct (Haw Hshown) as (r & Hr & Heq).
  split.
  - intros i Hi. rewrite Heq, (attention_length (tokens s) r Hr) in Hi.
    unfold rowLabel. apply lookup_lt_is_Some_2 in Hi. destruct Hi as [t Ht].
    now exists t.
  - intros Hn. rewrite Heq. now apply attention_stochastic.
Qed.

End ControllerLaws.

(** ** The first version of the component *)

Section LegacyLaws.
Import Num Random Notions LegacyComponent.
Local Open Scope Q_scope.

Lemma randomVector_succ (n : nat) (r : source) :
  randomVector (S n) r
  = (r 0%nat * 2 - 1 :: fst (randomVector n (advance r)),
     snd (randomVector n (advance r))).
Proof.
  cbn [randomVector]. unfold bind, random, ret.
  now destruct (randomVector n (advance r)).
Qed.

Lemma randomVector_facts (n : nat) (r : source) :
  unit_interval r ->
  unit_interval (snd (randomVector n r))
  /\ List.length (fst (randomVector n r)) = n
  /\ Forall (fun v => -1 <= v /\ v < 1) (fst (randomVector n r)).
Proof.
  revert r; induction n as [|n IH]; intros r Hr.
  - cbn. split; [exact Hr | split; [reflexivity | constructor]].
  - rewrite randomVector_succ. cbn [fst snd List.length].
    destruct (IH (advance r) (unit_interval_advance r Hr)) as (Hr1 & Hl & Hv).
    split; [exact Hr1 | split; [now rewrite Hl|]].
    constructor; [|exact Hv]. destruct (Hr 0%nat). split; lra.
Qed.

Lemma legacy_embeddings_cons (t : string) (rest : list string) (r : source) :
  generateEmbeddings (t :: rest) r
  = ({| token := t; vector := fst (randomVector 8 r) |}
       :: fst (generateEmbeddings rest (snd (randomVector 8 r))),
     snd (generateEmbeddings rest (snd (randomVector 8 r)))).
Proof.
  cbn [generateEmbeddings]. unfold bind, ret.
  destruct (randomVector 8 r) as [v r1]. cbn [fst snd].
  now destruct (generateEmbeddings rest r1).
Qed.

Lemma legacy_embeddings_facts (tokenList : list string) (r : source) :
  unit_interval r ->
  unit_interval (snd (generateEmbeddings tokenList r))
  /\ map token (fst (generateEmbeddings tokenList r)) = tokenList
  /\ Forall (fun e => List.length (vector e) = 8%nat
                      /\ Forall (fun v => -1 <= v /\ v < 1) (vector e))
            (fst (generateEmbeddings tokenList r)).
Proof.
  revert r; induction tokenList as [|t rest IH]; intros r Hr.
  - cbn. split; [exact Hr | split; [reflexivity | constructor]].
  - rewrite legacy_embeddings_cons. cbn [fst snd map token].
    destruct (randomVector_facts 8 r Hr) as (Hr1 & Hl & Hv).
    destruct (IH _ Hr1) as (Hr2 & Htok & Hall).
    split; [exact Hr2 | split; [now rewrite Htok|]].
    constructor; [|exact Hall]. cbn [vector]. now split.
Qed.

(** X26.  The embeddings of the first version: one record per token, in
    order, each with 8 coordinates drawn from [-1, 1). *)
Theorem X26_legacy_embeddings (tokenList : list string) (r : source) :
  unit_interval r ->
  map token (fst (generateEmbeddings tokenList r)) = tokenList
  /\ Forall (fun e => List.length (vector e) = 8%nat
                      /\ Forall (fun v => -1 <= v /\ v < 1) (vector e))
            (fst (generateEmbeddings tokenList r)).
Proof. intros Hr. now apply legacy_embeddings_facts. Qed.

Lemma randomRow_succ (n : nat) (r : source) :
  randomRow (S n) r
  = (r 0%nat :: fst (randomRow n (advance r)),
     snd (randomRow n (advance r))).
Proof.
  cbn [randomRow]. unfold bind, random, ret.
  now destruct (randomRow n (advance r)).
Qed.

Lemma randomRow_facts (n : nat) (r : source) :
  unit_interval r ->
  unit_interval (snd (randomRow n r))
  /\ List.length (fst (randomRow n r)) = n
  /\ Forall (fun x => 0 <= x /\ x < 1) (fst (randomRow n r)).
Proof.
  revert r; induction n as [|n IH]; intros r Hr.
  - cbn. split; [exact Hr | split; [reflexivity | constructor]].
  - rewrite randomRow_succ. cbn [fst snd List.length].
    destruct (IH (advance r) (unit_interval_advance r Hr)) as (Hr1 & Hl & Hv).
    split; [exact Hr1 | split; [now rewrite Hl|]].
    constructor; [|exact Hv]. exact (Hr 0%nat).
Qed.

Lemma fadd_sum_nonneg (l : list Q) (acc : Q) :
  0 <= acc -> Forall (fun w => 0 <= w) l ->
  0 <= fold_left Double.fadd l acc.
Proof.
  intros Hacc Hl. revert acc Hacc.
  induction Hl as [|x l Hx _ IH]; intros acc Hacc; [exact Hacc|].
  cbn [fold_left]. apply IH. unfold Double.fadd.
  apply nearest_spec. lra.
Qed.

(** Quotients rounded to the nearest double sum to the quotient of the
    sum, up to the rounding of each. *)
Lemma Qsum_map_rel (f : Q -> Q) (i : Q) (l : list Q) :
  (forall w, In w l ->
     w * i - (Double.u * (w * i) + Double.eta) <= f w
     /\ f w <= w * i + (Double.u * (w * i) + Double.eta)) ->
  Qsum l * i * (1 - Double.u) - Double.eta * Qnat (List.length l)
  <= Qsum (map f l)
  /\ Qsum (map f l)
     <= Qsum l * i * (1 + Double.u) + Double.eta * Qnat (List.length l).
Proof.
  induction l as [|x l IH]; intros Hf.
  - cbn [List.length map Qsum]. change (Qnat 0) with 0. split; nra.
  - destruct (Hf x (or_introl eq_refl)) as [Hx1 Hx2].
    destruct IH as [IH1 IH2]; [intros w Hw; apply Hf; now right|].
    cbn [List.length map Qsum]. rewrite Qnat_succ. split; nra.
Qed.

Lemma unit_nonneg (l : list Q) :
  Forall (fun x => 0 <= x /\ x < 1) l -> Forall (fun x => 0 <= x) l.
Proof. apply List.Forall_impl. intros x [H _]. exact H. Qed.

Lemma normalize_ok (draws : list Q) :
  Forall (fun x => 0 <= x /\ x < 1) draws ->
  legacyRowOk (List.length draws) (normalize draws).
Proof.
  intros Hall. exists draws.
  split; [reflexivity|]. split; [exact Hall|]. split; [reflexivity|].
  split; [apply length_map|].
  pose proof (unit_nonneg draws Hall) as Hpos.
  pose proof (fadd_sum_nonneg draws 0 ltac:(lra) Hpos) as Hs0.
  fold (rowSum draws) in Hs0.
  unfold normalize, divide. destruct (Qeq_bool (rowSum draws) 0) eqn:E.
  { left. apply List.Forall_forall. intros x Hx.
    now apply List.in_map_iff in Hx as [w [<- _]]. }
  right. exists (map (fun w => Double.fdiv w (rowSum draws)) draws).
  assert (0 < rowSum draws) as Hd.
  { apply Qeq_bool_neq in E. destruct (Qlt_le_dec 0 (rowSum draws)); [auto|].
    exfalso. apply E. lra. }
  assert (0 < / rowSum draws) as Hi0 by (now apply Qinv_lt_0_compat).
  assert (forall w, In w draws -> 0 <= w * / rowSum draws) as Hq.
  { intros w Hw. rewrite List.Forall_forall in Hpos.
    apply Qmult_le_0_compat; [now apply Hpos | lra]. }
  split; [now rewrite map_map | split].
  - apply List.Forall_forall. intros q Hin.
    apply List.in_map_iff in Hin as [w [<- Hw]].
    unfold Double.fdiv. apply nearest_spec. now apply Hq.
  - intros Hn Hsum.
    destruct (sumLeft_near draws Hpos Hn) as (_ & Hlo & Hhi).
    change (Spec.sumLeft draws) with (rowSum draws) in Hlo, Hhi.
    destruct (Qsum_map_rel (fun w => Double.fdiv w (rowSum draws))
                (/ rowSum draws) draws) as [Hlo' Hhi'].
    { intros w Hw. unfold Double.fdiv.
      destruct (nearest_spec (w * / rowSum draws) (Hq w Hw)) as (_ & H1 & H2).
      split; assumption. }
    destruct u_eta_small as (Hu & Hu' & Heta & Heta').
    pose proof (Qnat_le _ _ Hn) as Hnq.
    change (inject_Z (2 ^ 32)) with 4294967296 in Hnq.
    pose proof (Qnat_nonneg (List.length draws)) as Hn0.
    assert (rowSum draws * / rowSum draws == 1) as Hone
        by (apply Qmult_inv_r; lra).
    unfold Double.tiny in *.
    set (s := rowSum draws) in *. set (v := / s) in *.
    set (t := Qsum draws) in *. set (n := Qnat (List.length draws)) in *.
    assert (0 <= (s - (t - (1 # 1000000) * t - (1 # 100000000000000))) * v)
      as Hp1 by (apply Qmult_le_0_compat; lra).
    assert (0 <= (t + (2 # 1000000) * t + (1 # 100000000000000) - s) * v)
      as Hp2 by (apply Qmult_le_0_compat; lra).
    assert (0 <= (t - (1 # 1000)) * v) as Hp3
        by (apply Qmult_le_0_compat; lra).
    assert (t * v <= 1 + (2 # 1000000)) as Hx1 by nra.
    assert (1 - (3 # 1000000) <= t * v) as Hx2 by nra.
    assert (0 <= (2 - t * v) * Double.u) as Hp4
        by (apply Qmult_le_0_compat; lra).
    assert (0 <= t * v * Double.u) as Hp5
        by (apply Qmult_le_0_compat; lra).
    assert (0 <= (4294967296 - n) * Double.eta) as Hp6
        by (apply Qmult_le_0_compat; lra).
    assert (0 <= n * Double.eta) as Hp7
        by (apply Qmult_le_0_compat; lra).
    apply Qabs_Qle_condition. split; nra.
Qed.

Lemma legacy_matrixLoop_rows (n rows : nat) (weights : list (list (option Q)))
      (r : source) :
  unit_interval r ->
  Forall (legacyRowOk n) weights ->
  List.length (fst (matrixLoop n rows weights r))
  = (List.length weights + rows)%nat
  /\ Forall (legacyRowOk n) (fst (matrixLoop n rows weights r)).
Proof.
  revert weights r; induction rows as [|rows IH]; intros weights r Hr Hw.
  - cbn. split; [lia | exact Hw].
  - cbn [matrixLoop]. unfold bind.
    destruct (randomRow_facts n r Hr) as (Hr1 & Hl & Hpos).
    destruct (randomRow n r) as [row r1]. cbn [fst snd] in *.
    destruct (IH (weights ++ [normalize row]) r1 Hr1) as [Hlen Hall].
    { apply Forall_app. split; [exact Hw|].
      constructor; [|constructor]. rewrite <- Hl. now apply normalize_ok. }
    split; [|exact Hall]. rewrite Hlen, length_app. cbn. lia.
Qed.

(** X27.  The matrix of the first version, for numbers drawn from
    [0, 1): one row and one column per token.  Each row is made from as
    many numbers, every one divided by their sum; its entries are not
    negative, except that a row whose numbers sum to 0 has no finite
    entry; and where the numbers are fewer than 2^32 and sum to at
    least 0.001 the entries sum to 1 within 0.00001. *)
Theorem X27_legacy_rows (tokenList : list string) (r : source) :
  unit_interval r ->
  List.length (fst (generateAttentionWeights tokenList r))
  = List.length tokenList
  /\ Forall (legacyRowOk (List.length tokenList))
            (fst (generateAttentionWeights tokenList r)).
Proof.
  intros Hr. unfold generateAttentionWeights.
  now apply legacy_matrixLoop_rows.
Qed.

(** The entries of a row need not sum to exactly 1: the numbers 0.3 and
    0.6 give 0.33333333333333337 and 0.6666666666666667, whose sum is
    above 1 by 2^-53. *)
Lemma legacy_row_inexact :
  normalize [Double.lit 0.3; Double.lit 0.6]
  = [Some (Double.lit 0.33333333333333337);
     Some (Double.lit 0.6666666666666667)]
  /\ Double.lit 0.33333333333333337 + Double.lit 0.6666666666666667 - 1
     == Double.u.
Proof.
  split; [vm_compute; reflexivity|].
  apply Qeq_bool_iff. vm_compute. reflexivity.
Qed.

Lemma legacy_recompute_state (r : source) (s : State) :
  currentStep (recompute r s) = currentStep s
  /\ isPlaying (recompute r s) = isPlaying s
  /\ inputText (recompute r s) = inputText s
  /\ timer (recompute r s) = timer s.
Proof.
  unfold recompute.
  destruct (if (2 <=? currentStep s)%Z then _ else _) as [em r1].
  destruct (if (3 <=? currentStep s)%Z then _ else _) as [aw r2].
  repeat split.
Qed.

Lemma legacy_matrix_length (tokenList : list string) (r : source) :
  List.length (fst (generateAttentionWeights tokenList r))
  = List.length tokenList.
Proof.
  unfold generateAttentionWeights.
  generalize (List.length tokenList) at 1 as n.
  assert (forall n rows weights r0,
             List.length (fst (matrixLoop n rows weights r0))
             = (List.length weights + rows)%nat) as Hgen.
  { intros n rows. induction rows as [|rows IH]; intros weights r0.
    - cbn. lia.
    - cbn [matrixLoop]. unfold bind. destruct (randomRow n r0) as [row r1].
      rewrite IH, length_app. cbn. lia. }
  intros n. now rewrite Hgen.
Qed.

Lemma randomVector_length (n : nat) (r : source) :
  List.length (fst (randomVector n r)) = n.
Proof.
  revert r; induction n as [|n IH]; intros r; [reflexivity|].
  rewrite randomVector_succ. cbn [fst List.length]. now rewrite IH.
Qed.

Lemma legacy_embeddings_shape (tokenList : list string) (r : source) :
  map token (fst (generateEmbeddings tokenList r)) = tokenList
  /\ Forall (fun e => List.length (vector e) = 8%nat)
            (fst (generateEmbeddings tokenList r)).
Proof.
  revert r; induction tokenList as [|t rest IH]; intros r.
  - cbn. split; [reflexivity | constructor].
  - rewrite legacy_embeddings_cons. cbn [fst map token].
    destruct (IH (snd (randomVector 8 r))) as [Htok Hall].
    split; [now rewrite Htok|]. constructor; [|exact Hall].
    apply randomVector_length.
Qed.

Lemma legacy_recompute_fresh (r : source) (s : State) :
  fresh (recompute r s).
Proof.
  unfold fresh, recompute.
  destruct (2 <=? currentStep s)%Z eqn:E2.
  - pose proof (legacy_embeddings_shape
                  (Legacy.tokenizeText (inputText s)) r) as Hshape.
    destruct (generateEmbeddings _ r) as [em r1]. cbn [fst] in Hshape.
    destruct (3 <=? currentStep s)%Z eqn:E3.
    + pose proof (legacy_matrix_length
                    (Legacy.tokenizeText (inputText s)) r1) as Hlen.
      destruct (generateAttentionWeights _ r1) as [aw r2]. cbn [fst] in Hlen.
      cbn. apply Z.leb_le in E2, E3.
      assert ((1 <=? currentStep s)%Z = true) as ->
          by (apply Z.leb_le; lia).
      repeat split; try tauto.
      intros H4. apply Z.leb_le in H4. now rewrite H4.
    + cbn. apply Z.leb_le in E2. apply Z.leb_gt in E3.
      assert ((1 <=? currentStep s)%Z = true) as ->
          by (apply Z.leb_le; lia).
      assert ((4 <=? currentStep s)%Z = false) as ->
          by (apply Z.leb_gt; lia).
      repeat split; try tauto; intros; lia.
  - apply Z.leb_gt in E2.
    assert ((3 <=? currentStep s)%Z = false) as -> by (apply Z.leb_gt; lia).
    assert ((4 <=? currentStep s)%Z = false) as -> by (apply Z.leb_gt; lia).
    cbn. repeat split; try (intros; lia).
    intros H1. apply Z.leb_le in H1. now rewrite H1.
Qed.

Lemma legacy_timerEffect_state (s : State) :
  currentStep (timerEffect s) = currentStep s
  /\ isPlaying (timerEffect s) = isPlaying s
  /\ inputText (timerEffect s) = inputText s
  /\ tokens (timerEffect s) = tokens s
  /\ embeddings (timerEffect s) = embeddings s
  /\ attentionWeights (timerEffect s) = attentionWeights s
  /\ output (timerEffect s) = output s
  /\ timer (timerEffect s)
     = (if isPlaying s then Some (currentStep s) else None).
Proof.
  unfold timerEffect. destruct (isPlaying s) eqn:Hp; cbn; rewrite ?Hp; auto 10.
Qed.

Lemma fresh_transfer (a b : State) :
  fresh a ->
  currentStep b = currentStep a -> inputText b = inputText a ->
  tokens b = tokens a -> embeddings b = embeddings a ->
  attentionWeights b = attentionWeights a -> output b = output a ->
  fresh b.
Proof.
  unfold fresh. intros Ha -> -> -> -> -> ->. exact Ha.
Qed.

Lemma legacy_sameRecomputeDeps_eq (a b : State) :
  sameRecomputeDeps a b = true ->
  currentStep b = currentStep a /\ inputText b = inputText a.
Proof.
  unfold sameRecomputeDeps. intros Hd. apply andb_prop in Hd as [Hc Ht].
  apply Z.eqb_eq in Hc. apply String.eqb_eq in Ht. auto.
Qed.

Lemma legacy_sameTimerDeps_eq (a b : State) :
  sameTimerDeps a b = true ->
  currentStep b = currentStep a /\ isPlaying b = isPlaying a.
Proof.
  unfold sameTimerDeps. intros Hd. apply andb_prop in Hd as [Hc Hp].
  apply Z.eqb_eq in Hc. apply Bool.eqb_prop in Hp. auto.
Qed.

(** A handler that leaves the stage and the text alone leaves fresh
    artifacts fresh. *)
Lemma legacy_handle_fresh (e : Event) (s : State) :
  fresh s -> sameRecomputeDeps s (handle e s) = true -> fresh (handle e s).
Proof.
  intros Hs Hd. apply legacy_sameRecomputeDeps_eq in Hd as [Hc Ht].
  destruct e; cbn [handle] in *.
  - now apply (fresh_transfer s).
  - now apply (fresh_transfer s).
  - unfold fresh. cbn. repeat split; intros; lia.
  - now apply (fresh_transfer s).
  - unfold timerCallback in *. destruct (timer s) as [c|]; [|exact Hs].
    destruct (c <? 4)%Z; now apply (fresh_transfer s).
Qed.

Lemma legacy_commit_fresh (r : source) (prev cur : State) :
  (sameRecomputeDeps prev cur = true -> fresh cur) ->
  fresh (commit r prev cur).
Proof.
  intros Hcur. unfold commit.
  destruct (sameRecomputeDeps prev cur); [|apply legacy_recompute_fresh].
  specialize (Hcur eq_refl).
  destruct (sameTimerDeps prev cur); [exact Hcur|].
  destruct (legacy_timerEffect_state cur) as (? & ? & ? & ? & ? & ? & ? & _).
  now apply (fresh_transfer cur).
Qed.

(** X28.  In every state that the first version reaches, the artifacts
    of the stages reached are those of the current text: from stage 1
    the tokens are its tokens, from stage 2 there is one embedding of 8
    coordinates per token, from stage 3 the matrix has one row per
    token, from stage 4 the output is the fixed sentence. *)
Theorem X28_legacy_fresh (s : State) :
  reachable s ->
  ((1 <= currentStep s)%Z -> tokens s = Legacy.tokenizeText (inputText s))
  /\ ((2 <= currentStep s)%Z ->
      map token (embeddings s) = Legacy.tokenizeText (inputText s)
      /\ Forall (fun e => List.length (vector e) = 8%nat) (embeddings s))
  /\ ((3 <= currentStep s)%Z ->
      List.length (attentionWeights s)
      = List.length (Legacy.tokenizeText (inputText s)))
  /\ ((4 <= currentStep s)%Z -> output s = "jumps over the lazy dog").
Proof.
  intros Hs. change (fresh s).
  induction Hs as [r _ | r e s _ _ IH].
  - apply legacy_recompute_fresh.
  - unfold step. apply legacy_commit_fresh. now apply legacy_handle_fresh.
Qed.

Lemma legacy_handle_timer_same (e : Event) (s : State) :
  timed s -> sameTimerDeps s (handle e s) = true ->
  timer (handle e s) = timer s.
Proof.
  intros Hs. destruct e; cbn [handle]; try (intros _; reflexivity).
  unfold timerCallback. destruct (timer s) as [c|] eqn:Ht; [|now rewrite Ht].
  unfold timed in Hs. rewrite Ht in Hs.
  destruct (isPlaying s) eqn:Hp; [|discriminate]. injection Hs as ->.
  unfold sameTimerDeps. destruct (currentStep s <? 4)%Z; cbn; rewrite ?Hp.
  - assert ((currentStep s =? currentStep s + 1)%Z = false) as ->
        by (apply Z.eqb_neq; lia).
    discriminate.
  - rewrite andb_false_r. discriminate.
Qed.

Lemma legacy_step_timed (r : source) (e : Event) (s : State) :
  timed s -> timed (step r e s).
Proof.
  intros Hs. unfold step, commit.
  set (next := handle e s).
  assert (timed (if sameTimerDeps s next then next else timerEffect next))
    as H1.
  { destruct (sameTimerDeps s next) eqn:Hd.
    - unfold timed. subst next.
      rewrite (legacy_handle_timer_same e s Hs Hd).
      apply legacy_sameTimerDeps_eq in Hd as [-> ->]. exact Hs.
    - unfold timed.
      now destruct (legacy_timerEffect_state next)
        as (-> & -> & _ & _ & _ & _ & _ & ->). }
  destruct (sameRecomputeDeps s next); [exact H1|].
  unfold timed in *.
  now destruct (legacy_recompute_state r
                  (if sameTimerDeps s next then next else timerEffect next))
    as (-> & -> & _ & ->).
Qed.

(** X29.  In every state that the first version reaches, a time-out is
    pending exactly while the walk-through plays, also at stage 4, and
    its call-back holds the current stage. *)
Theorem X29_legacy_timer (s : State) :
  reachable s ->
  timer s = if isPlaying s then Some (currentStep s) else None.
Proof.
  intros Hs. change (timed s). induction Hs as [r _ | r e s _ _ IH].
  - unfold timed, mount.
    now destruct (legacy_recompute_state r (timerEffect initialState))
      as (-> & -> & _ & ->).
  - now apply legacy_step_timed.
Qed.

(** X30.  The first version does not clear what it has computed when
    the stage goes back: after a click on step button [i] the artifacts
    of the stages above [i] are what they were before. *)
Theorem X30_legacy_keeps (r : source) (s : State) (i : Z) :
  ((i < 1)%Z -> tokens (step r (StepClick i) s) = tokens s)
  /\ ((i < 2)%Z -> embeddings (step r (StepClick i) s) = embeddings s)
  /\ ((i < 3)%Z ->
      attentionWeights (step r (StepClick i) s) = attentionWeights s)
  /\ ((i < 4)%Z -> output (step r (StepClick i) s) = output s).
Proof.
  unfold step, commit. cbn [handle].
  set (next := handleStepClick i s).
  set (s1 := if sameTimerDeps s next then next else timerEffect next).
  assert (currentStep s1 = i /\ tokens s1 = tokens s
          /\ embeddings s1 = embeddings s
          /\ attentionWeights s1 = attentionWeights s
          /\ output s1 = output s) as (Hc & Ht & He & Ha & Ho).
  { subst s1. destruct (sameTimerDeps s next); [subst next; cbn; auto 10|].
    destruct (legacy_timerEffect_state next)
      as (-> & _ & _ & -> & -> & -> & -> & _). subst next. cbn. auto 10. }
  destruct (sameRecomputeDeps s next); [auto 10|].
  unfold recompute. rewrite Hc.
  destruct (2 <=? i)%Z eqn:E2.
  - destruct (generateEmbeddings _ r) as [em r1].
    destruct (3 <=? i)%Z eqn:E3.
    + destruct (generateAttentionWeights _ r1) as [aw r2]. cbn.
      apply Z.leb_le in E2, E3.
      repeat split; intros; try lia.
      assert ((4 <=? i)%Z = false) as -> by (apply Z.leb_gt; lia). exact Ho.
    + cbn. apply Z.leb_le in E2. apply Z.leb_gt in E3.
      repeat split; intros; try lia; [exact Ha|].
      assert ((4 <=? i)%Z = false) as -> by (apply Z.leb_gt; lia). exact Ho.
  - apply Z.leb_gt in E2.
    assert ((3 <=? i)%Z = false) as -> by (apply Z.leb_gt; lia).
    assert ((4 <=? i)%Z = false) as -> by (apply Z.leb_gt; lia).
    cbn. repeat split; intros; try assumption.
    assert ((1 <=? i)%Z = false) as -> by (apply Z.leb_gt; lia). exact Ht.
Qed.

End LegacyLaws.

(** ** Concrete instances of the further properties *)

Section FurtherInstances.
Import JsString Tokenizer Num Random Pipeline Spec Notions.
Import Controller Markup SampleHost Samples.
Local Open Scope Q_scope.

Lemma playing_is_reachable : reachable playing.
Proof. exact playing_reachable. Qed.

Lemma atEnd_reachable : reachable atEnd.
Proof.
  unfold atEnd. cbn [run]. apply reach_step; [exact steady_unit|].
  apply reach_mount. exact steady_unit.
Qed.

Lemma legacyPlaying_reachable : LegacyComponent.reachable legacyPlaying.
Proof.
  unfold legacyPlaying. apply LegacyComponent.reach_step; [exact steady_unit|].
  apply LegacyComponent.reach_mount. exact steady_unit.
Qed.

Lemma legacyAtEnd_reachable : LegacyComponent.reachable legacyAtEnd.
Proof.
  unfold legacyAtEnd. apply LegacyComponent.reach_step; [exact steady_unit|].
  apply LegacyComponent.reach_mount. exact steady_unit.
Qed.

Lemma clamp_bounds (x : Q) :
  -1 <= BoundedHost.clamp x /\ BoundedHost.clamp x <= 1.
Proof.
  unfold BoundedHost.clamp.
  destruct (Qle_bool x (-1)) eqn:E1; [split; lra|].
  destruct (Qle_bool 1 x) eqn:E2; [split; lra|].
  assert (~ x <= -1) as H1 by (rewrite <- Qle_bool_iff; congruence).
  assert (~ 1 <= x) as H2 by (rewrite <- Qle_bool_iff; congruence).
  split; lra.
Qed.

Lemma X1_tokenize_at_delimiter_witness :
  isDelimiter ","%char = true
  /\ tokenizeText ("the" ++ String ","%char "fox")%string
     = tokenizeText "the" ++ tokenizeText "fox".
Proof.
  split; [reflexivity|].
  exact (X1_tokenize_at_delimiter "the" "fox" ","%char eq_refl).
Defined.

Lemma X2_token_fixed_witness :
  In "fox" (tokenizeText "Hi, fox!") /\ tokenizeText "fox" = ["fox"].
Proof.
  assert (In "fox" (tokenizeText "Hi, fox!")) as Hin
      by (right; left; reflexivity).
  split; [exact Hin|]. exact (X2_token_fixed "Hi, fox!" "fox" Hin).
Defined.

Lemma X6_embed_anagram_witness :
  In {| token := "dog"; vector := embedVector "dog" 8 |}
     (generateEmbeddings ["dog"; "god"] 8)
  /\ In {| token := "god"; vector := embedVector "god" 8 |}
        (generateEmbeddings ["dog"; "god"] 8)
  /\ Permutation (list_ascii_of_string "dog") (list_ascii_of_string "god")
  /\ embedVector "dog" 8 = embedVector "god" 8.
Proof.
  assert (In {| token := "dog"; vector := embedVector "dog" 8 |}
             (generateEmbeddings ["dog"; "god"] 8)) as Ha
      by (rewrite generateEmbeddings_map; left; reflexivity).
  assert (In {| token := "god"; vector := embedVector "god" 8 |}
             (generateEmbeddings ["dog"; "god"] 8)) as Hb
      by (rewrite generateEmbeddings_map; right; left; reflexivity).
  assert (Permutation (list_ascii_of_string "dog")
                      (list_ascii_of_string "god")) as Hp
      by (apply (Permutation_rev (list_ascii_of_string "dog"))).
  split; [exact Ha | split; [exact Hb | split; [exact Hp|]]].
  exact (X6_embed_anagram ["dog"; "god"] 8 _ _ Ha Hb Hp).
Defined.

Lemma X7_embed_prefix_witness :
  (4 <= 8)%Z
  /\ generateEmbeddings ["fox"] 4
     = map (fun e => {| token := token e;
                        vector := firstn (Z.to_nat 4) (vector e) |})
           (generateEmbeddings ["fox"] 8).
Proof.
  split; [lia|]. apply (X7_embed_prefix ["fox"] 4 8). lia.
Defined.

Lemma X8_embed_range_witness :
  (forall x, -1 <= BoundedHost.clamp (sinPoly x)
             /\ BoundedHost.clamp (sinPoly x) <= 1)
  /\ (forall x, -1 <= BoundedHost.clamp (cosPoly x)
                /\ BoundedHost.clamp (cosPoly x) <= 1)
  /\ Forall (fun e => Forall (fun v => -2 <= v /\ v <= 2) (vector e))
            (@generateEmbeddings BoundedHost.boundedMath ["the"; "fox"] 8).
Proof.
  split; [intros x; apply clamp_bounds|].
  split; [intros x; apply clamp_bounds|].
  apply (@X8_embed_range BoundedHost.boundedMath ["the"; "fox"] 8);
    intros x; apply clamp_bounds.
Defined.

Lemma X9_diagonal_largest_witness :
  unit_interval skewed
  /\ (Z.of_nat (List.length ["a"; "b"; "c"]) < 2 ^ 32)%Z
  /\ fst (generateAttentionWeights ["a"; "b"; "c"] skewed) !! 0%nat
     = Some [Double.lit 0.731; Double.lit 0.253; Double.lit 0.014]
  /\ Double.lit 0.253 <= Double.lit 0.731.
Proof.
  assert (fst (generateAttentionWeights ["a"; "b"; "c"] skewed) !! 0%nat
          = Some [Double.lit 0.731; Double.lit 0.253; Double.lit 0.014])
    as Hrow by (vm_compute; reflexivity).
  split; [exact skewed_unit | split; [reflexivity | split; [exact Hrow|]]].
  exact (X9_diagonal_largest ["a"; "b"; "c"] skewed 0 1 _ _ _
           skewed_unit eq_refl Hrow eq_refl eq_refl).
Defined.

Lemma X10_entries_at_most_witness :
  unit_interval skewed
  /\ (Z.of_nat (List.length ["a"; "b"; "c"]) < 2 ^ 32)%Z
  /\ Forall (Forall (fun w => w <= Double.lit 1.001))
            (fst (generateAttentionWeights ["a"; "b"; "c"] skewed)).
Proof.
  split; [exact skewed_unit | split; [reflexivity|]].
  exact (X10_entries_at_most ["a"; "b"; "c"] skewed skewed_unit eq_refl).
Defined.

Lemma X12_short_input_wins_witness :
  (0 < List.length ["hello"; "there"] < 3)%nat
  /\ fst (generateSimpleOutput 4 "10:00:00 AM" "Hello there"
             ["hello"; "there"] [] steady)
     = "Input is a bit short. Could you elaborate?".
Proof.
  assert (0 < List.length ["hello"; "there"] < 3)%nat as Hn by (cbn; lia).
  split; [exact Hn|].
  exact (X12_short_input_wins "10:00:00 AM" "Hello there"
           ["hello"; "there"] [] steady Hn).
Defined.




Lemma X14_output_without_chance_witness :
  (List.length ["the"; "quick"; "brown"; "fox"] <= 7)%nat
  /\ In "fox" lexicon
  /\ fst (generateSimpleOutput 4 "10:00:00 AM" "The quick brown fox"
             ["the"; "quick"; "brown"; "fox"] [] steady)
     = fst (generateSimpleOutput 4 "10:00:00 AM" "The quick brown fox"
              ["the"; "quick"; "brown"; "fox"] [] skewed).
Proof.
  assert (List.length ["the"; "quick"; "brown"; "fox"] <= 7)%nat as Hn
      by (cbn; lia).
  assert (In "fox" lexicon) as Hin by (left; reflexivity).
  split; [exact Hn | split; [exact Hin|]].
  exact (X14_output_without_chance 4 "10:00:00 AM" "The quick brown fox"
           ["the"; "quick"; "brown"; "fox"] [] steady skewed Hn
           (or_intror (or_intror Hin))).
Defined.

Lemma X15_timer_follows_state_witness :
  reachable playing /\ timer playing = Some (animationSpeed playing).
Proof.
  split; [exact playing_is_reachable|].
  refine (eq_trans (proj1 (X15_timer_follows_state playing
                             playing_is_reachable)) _).
  vm_compute. reflexivity.
Defined.

Lemma X16_replay_witness :
  reachable atEnd /\ currentStep atEnd = 4%Z
  /\ currentStep (step host PlayClick atEnd) = 0%Z
  /\ isPlaying (step host PlayClick atEnd) = true.
Proof.
  assert (currentStep atEnd = 4%Z) as H4 by (vm_compute; reflexivity).
  split; [exact atEnd_reachable | split; [exact H4|]].
  rewrite (X16_replay host atEnd atEnd_reachable H4). split; reflexivity.
Defined.

Lemma X17_timer_advances_witness :
  reachable playing /\ timer playing = Some 2000%Z
  /\ currentStep (step host TimerFire playing) = (currentStep playing + 1)%Z.
Proof.
  assert (timer playing = Some 2000%Z) as Ht by (vm_compute; reflexivity).
  split; [exact playing_is_reachable | split; [exact Ht|]].
  exact (proj1 (X17_timer_advances host playing 2000
                  playing_is_reachable Ht)).
Defined.

Lemma X18_play_reaches_end_witness :
  reachable playing /\ isPlaying playing = true
  /\ (currentStep playing <= 4)%Z
  /\ currentStep
       (run host (repeat TimerFire (Z.to_nat (4 - currentStep playing)))
            playing) = 4%Z.
Proof.
  assert (isPlaying playing = true) as Hon by (vm_compute; reflexivity).
  assert (currentStep playing <= 4)%Z as Hle
      by (vm_compute; discriminate).
  split; [exact playing_is_reachable | split; [exact Hon|]].
  split; [exact Hle|].
  exact (proj1 (X18_play_reaches_end host playing playing_is_reachable
                  Hon Hle)).
Defined.

Lemma X19_markup_bounds_witness :
  reachableByMarkup (step host (StepClick 3) (mount host))
  /\ (0 <= currentStep (step host (StepClick 3) (mount host)) <= 4)%Z.
Proof.
  assert (reachableByMarkup (step host (StepClick 3) (mount host))) as Hr.
  { apply markup_step; [exact steady_unit | cbn; tauto|].
    apply markup_mount. exact steady_unit. }
  split; [exact Hr|]. exact (proj1 (X19_markup_bounds _ Hr)).
Defined.

Lemma X20_reset_restores_witness :
  reachable playing
  /\ step host ResetClick playing
     = {| currentStep := 0; isPlaying := false;
          inputText := "The quick brown fox";
          tokens := ["the"; "quick"; "brown"; "fox"];
          embeddings := []; attentionWeights := []; output := "";
          animationSpeed := animationSpeed playing;
          embeddingDimension := embeddingDimension playing;
          timer := None |}.
Proof.
  split; [exact playing_is_reachable|].
  exact (X20_reset_restores host playing playing_is_reachable).
Defined.

Lemma X21_edit_restarts_witness :
  reachable playing
  /\ step host (InputChange "Hi, fox!") playing
     = {| currentStep := 0; isPlaying := false; inputText := "Hi, fox!";
          tokens := tokenizeText "Hi, fox!";
          embeddings := []; attentionWeights := []; output := "";
          animationSpeed := animationSpeed playing;
          embeddingDimension := embeddingDimension playing;
          timer := None |}.
Proof.
  split; [exact playing_is_reachable|].
  exact (X21_edit_restarts host playing "Hi, fox!" playing_is_reachable).
Defined.

Lemma X22_speed_only_witness :
  reachable playing
  /\ step host (SpeedChange 500) playing
     = setTimer (if isPlaying playing && (currentStep playing <? 4)%Z
                 then Some 500%Z else None)
                (setAnimationSpeed 500 playing).
Proof.
  split; [exact playing_is_reachable|].
  exact (X22_speed_only host playing 500 playing_is_reachable).
Defined.

Lemma X23_dimension_applies_witness :
  reachable playing
  /\ Forall (fun e => List.length (vector e) = Z.to_nat 12)
            (embeddings (step host (DimensionChange 12) playing)).
Proof.
  split; [exact playing_is_reachable|].
  exact (proj2 (proj2 (proj2 (proj2 (proj2 (proj2
           (X23_dimension_applies host playing 12
              playing_is_reachable))))))).
Defined.

Lemma X24_output_shown_witness :
  reachable atEnd /\ (4 <= currentStep atEnd)%Z
  /\ shownOutput atEnd = output atEnd.
Proof.
  assert (4 <= currentStep atEnd)%Z as H4 by (vm_compute; discriminate).
  split; [exact atEnd_reachable | split; [exact H4|]].
  exact (proj2 (proj2 (X24_output_shown atEnd atEnd_reachable) H4)).
Defined.

Lemma X25_attention_table_witness :
  reachable atEnd /\ attentionPanelShown atEnd = true
  /\ (Z.of_nat (List.length (tokens atEnd)) < 2 ^ 32)%Z
  /\ rowStochasticWithin
       ((13 # 10000) * Qnat (List.length (tokens atEnd)))
       (List.length (tokens atEnd)) (attentionWeights atEnd).
Proof.
  assert (attentionPanelShown atEnd = true) as Hshown
      by (vm_compute; reflexivity).
  assert (Z.of_nat (List.length (tokens atEnd)) < 2 ^ 32)%Z as Hn
      by (vm_compute; reflexivity).
  split; [exact atEnd_reachable | split; [exact Hshown | split; [exact Hn|]]].
  exact (proj2 (X25_attention_table atEnd atEnd_reachable Hshown) Hn).
Defined.

Lemma X26_legacy_embeddings_witness :
  unit_interval skewed
  /\ map token (fst (LegacyComponent.generateEmbeddings ["the"; "fox"] skewed))
     = ["the"; "fox"].
Proof.
  split; [exact skewed_unit|].
  exact (proj1 (X26_legacy_embeddings ["the"; "fox"] skewed skewed_unit)).
Defined.

Lemma X27_legacy_rows_witness :
  unit_interval skewed
  /\ Forall (LegacyComponent.legacyRowOk 2)
            (fst (LegacyComponent.generateAttentionWeights ["the"; "fox"]
                    skewed)).
Proof.
  split; [exact skewed_unit|].
  exact (proj2 (X27_legacy_rows ["the"; "fox"] skewed skewed_unit)).
Defined.

Lemma X28_legacy_fresh_witness :
  LegacyComponent.reachable legacyAtEnd
  /\ (4 <= LegacyComponent.currentStep legacyAtEnd)%Z
  /\ LegacyComponent.output legacyAtEnd = "jumps over the lazy dog".
Proof.
  assert (4 <= LegacyComponent.currentStep legacyAtEnd)%Z as H4
      by (vm_compute; discriminate).
  split; [exact legacyAtEnd_reachable | split; [exact H4|]].
  exact (proj2 (proj2 (proj2 (X28_legacy_fresh legacyAtEnd
                                legacyAtEnd_reachable))) H4).
Defined.

Lemma X29_legacy_timer_witness :
  LegacyComponent.reachable legacyPlaying
  /\ LegacyComponent.timer legacyPlaying = Some 0%Z.
Proof.
  split; [exact legacyPlaying_reachable|].
  refine (eq_trans (X29_legacy_timer legacyPlaying legacyPlaying_reachable) _).
  vm_compute. reflexivity.
Defined.

Lemma X30_legacy_keeps_witness :
  (0 < 2)%Z
  /\ LegacyComponent.embeddings
       (LegacyComponent.step steady (LegacyComponent.StepClick 0)
          legacyAtEnd)
     = LegacyComponent.embeddings legacyAtEnd.
Proof.
  split; [lia|].
  apply (proj1 (proj2 (X30_legacy_keeps steady legacyAtEnd 0))). lia.
Defined.

End FurtherInstances.
